(** * Cache, single-flight queue and rate limiter: a shallow embedding

    The three coordinators of the service are embedded as pure functions on
    explicit states:

    - [LRUCache]   from [src/utils/lru-cache.utils.ts],
    - [AsyncQueue] from the async queue utility (class [AsyncQueue]),
    - [RateLimiter] from the rate limiter middleware (class [RateLimiter]).

    Conventions.
    - [Date.now()] is an integer number of milliseconds; every operation takes
      the instant [now : Z] at which it runs (one clock reading per call).
      The limiter reads the clock up to four times within a call (when it
      creates a bucket and in each refill step): its model describes the
      calls during which the clock does not tick.  [createUser] takes its
      four readings.
    - A JavaScript [Map] iterates in insertion order and the code relies on it
      (LRU eviction takes the first key, [processNext] scans the entries in
      order), so a [Map] is an association list in insertion order, see
      [JsMap].  A [Set] whose order is never observed is a [gset].
    - Counters and timestamps are integers ([Z]).  The fractional quantities
      (steady tokens, the refill rate, the hit rate, the average response
      time) are exact rationals ([Q]): IEEE rounding of the doubles is not
      part of the model.  The properties state of them bounds, comparisons
      with integers, integer values, or values with a margin for the
      rounding; the lemmas they rest on are exact in the model.
    - The queue runs on the event loop: a call of [enqueue] runs to its end,
      and a [processTask] call suspended at [await task()] resumes, and runs
      to its end, when the task's promise has settled.  These are the steps
      of the [World] below.  A task is a function returning a promise; it is
      named, not run, and the outcome of its promise comes with the step.

    Around them, the methods of [UserService] that run in one piece
    ([src/modules/users/users.service.ts]), the middleware of the limiter,
    and the configuration of the logger are embedded the same way.

    Layout: the embedding ([JsMap], [LRUCache], [RateLimiter], [AsyncQueue],
    [JsObject], [UserService], [Config], [Logger]), the notions the
    properties are stated with ([..Defs], [LRUCacheLedger],
    [RateLimiterTraffic]), then the facts ([JsMapFacts], [LRUCacheSpec],
    [RateLimiterSpec], [AsyncQueueSpec], and the further properties in
    [LRUCacheLaws], [RateLimiterLaws], [AsyncQueueLaws], [UserServiceLaws],
    [LoggerLaws]). *)

From Stdlib Require Import ZArith QArith Qminmax Qround Lqa Lia.
From stdpp Require Import gmap strings list sorting pretty.

#[local] Open Scope Z_scope.

(* ===================================================================== *)
(** * JavaScript [Map] with string keys, in insertion order *)
(* ===================================================================== *)

Module JsMap.
Section Ops.
Context {V : Type}.

(** [m.get(k)] *)
Fixpoint get (k : string) (m : list (string * V)) : option V :=
  match m with
  | [] => None
  | (k', v) :: m' => if decide (k' = k) then Some v else get k m'
  end.

(** [m.has(k)] *)
Definition has (k : string) (m : list (string * V)) : bool :=
  match get k m with Some _ => true | None => false end.

(** [m.delete(k)] *)
Fixpoint delete (k : string) (m : list (string * V)) : list (string * V) :=
  match m with
  | [] => []
  | (k', v) :: m' => if decide (k' = k) then m' else (k', v) :: delete k m'
  end.

(** [m.set(k, v)]: an existing key keeps its position, a new key goes last. *)
Fixpoint set (k : string) (v : V) (m : list (string * V)) : list (string * V) :=
  match m with
  | [] => [(k, v)]
  | (k', v') :: m' =>
      if decide (k' = k) then (k', v) :: m' else (k', v') :: set k v m'
  end.

(** [m.size] *)
Definition size (m : list (string * V)) : Z := Z.of_nat (length m).

(** [m.keys().next().value]: the oldest key, [undefined] on an empty map. *)
Definition first_key (m : list (string * V)) : option string :=
  match m with
  | [] => None
  | (k, _) :: _ => Some k
  end.

(** [Array.from(m.keys())] *)
Definition keys (m : list (string * V)) : list string := m.*1.
End Ops.
End JsMap.

(** Truthiness of a string in a JavaScript condition: only [""] is falsy. *)
Definition truthy (s : string) : bool :=
  match s with EmptyString => false | _ => true end.

(* ===================================================================== *)
(** * LRUCache *)
(* ===================================================================== *)

Module LRUCache.

Record CacheEntry (T : Type) := mkEntry {
  value : T;
  timestamp : Z;
  lastAccessed : Z
}.
Arguments mkEntry {T}.
Arguments value {T}.
Arguments timestamp {T}.
Arguments lastAccessed {T}.

Record Counters := mkCounters {
  hits : Z;
  misses : Z;
  evictions : Z
}.

Record CacheStats := mkStats {
  s_hits : Z;
  s_misses : Z;
  s_currentSize : Z;
  s_totalRequests : Z;
  s_hitRate : Q;
  s_evictions : Z
}.

Record t (T : Type) := mkCache {
  cache : list (string * CacheEntry T);
  capacity : Z;
  ttl : Z;
  stats : Counters
}.
Arguments mkCache {T}.
Arguments cache {T}.
Arguments capacity {T}.
Arguments ttl {T}.
Arguments stats {T}.

Section WithValue.
Context {T : Type}.
Implicit Types (c : t T) (e : CacheEntry T) (key : string) (now : Z).

(** [constructor(capacity, ttlSeconds)] *)
Definition constructor (cap ttlSeconds : Z) : t T :=
  {| cache := []; capacity := cap; ttl := ttlSeconds * 1000;
     stats := {| hits := 0; misses := 0; evictions := 0 |} |}.

Definition with_cache c (m : list (string * CacheEntry T)) : t T :=
  {| cache := m; capacity := capacity c; ttl := ttl c; stats := stats c |}.

Definition with_stats c (s : Counters) : t T :=
  {| cache := cache c; capacity := capacity c; ttl := ttl c; stats := s |}.

Definition miss (s : Counters) : Counters :=
  {| hits := hits s; misses := misses s + 1; evictions := evictions s |}.
Definition hit (s : Counters) : Counters :=
  {| hits := hits s + 1; misses := misses s; evictions := evictions s |}.
Definition evicted (s : Counters) : Counters :=
  {| hits := hits s; misses := misses s; evictions := evictions s + 1 |}.

(** [isExpired(entry)]: [Date.now() - entry.timestamp > this.ttl] *)
Definition isExpired c now e : bool := now - timestamp e >? ttl c.

(** [get(key)] *)
Definition get c now key : option T * t T :=
  match JsMap.get key (cache c) with
  | None => (None, with_stats c (miss (stats c)))
  | Some e =>
      if isExpired c now e then
        (None, with_stats (with_cache c (JsMap.delete key (cache c)))
                          (miss (stats c)))
      else
        let e' := {| value := value e; timestamp := timestamp e;
                     lastAccessed := now |} in
        (Some (value e),
         with_stats
           (with_cache c (JsMap.set key e' (JsMap.delete key (cache c))))
           (hit (stats c)))
  end.

(** [set(key, value)] *)
Definition set c now key (v : T) : t T :=
  let c1 :=
    if JsMap.has key (cache c) then
      with_cache c (JsMap.delete key (cache c))
    else if JsMap.size (cache c) >=? capacity c then
      match JsMap.first_key (cache c) with
      | Some firstKey =>
          if truthy firstKey then
            with_stats (with_cache c (JsMap.delete firstKey (cache c)))
                       (evicted (stats c))
          else c
      | None => c
      end
    else c in
  with_cache c1
    (JsMap.set key {| value := v; timestamp := now; lastAccessed := now |}
               (cache c1)).

(** [clear()] *)
Definition clear c : t T := with_cache c [].

(** [Math.round(x)]: nearest integer, halves towards plus infinity. *)
Definition Math_round (x : Q) : Z := Qfloor (x + (1 # 2))%Q.

(** [getStats()] *)
Definition getStats c : CacheStats :=
  let totalRequests := hits (stats c) + misses (stats c) in
  let hitRate : Q :=
    if totalRequests >? 0
    then ((inject_Z (hits (stats c)) / inject_Z totalRequests) * 100)%Q
    else 0%Q in
  {| s_hits := hits (stats c);
     s_misses := misses (stats c);
     s_currentSize := JsMap.size (cache c);
     s_totalRequests := totalRequests;
     s_hitRate := (inject_Z (Math_round (hitRate * 100)) / 100)%Q;
     s_evictions := evictions (stats c) |}.

(** [resetStats()] *)
Definition resetStats c : t T :=
  with_stats c {| hits := 0; misses := 0; evictions := 0 |}.

(** [has(key)] *)
Definition has c now key : bool * t T :=
  match JsMap.get key (cache c) with
  | None => (false, c)
  | Some e =>
      if isExpired c now e
      then (false, with_cache c (JsMap.delete key (cache c)))
      else (true, c)
  end.

(** [cleanupStaleEntries()], the body of the 10 s background sweep: the
    keys to delete are collected first and deleted afterwards. *)
Definition keysToDelete c now : list string :=
  (filter (fun p => now - timestamp p.2 > ttl c) (cache c)).*1.

Definition cleanupStaleEntries c now : t T :=
  with_cache c (foldl (fun m k => JsMap.delete k m) (cache c)
                      (keysToDelete c now)).

(** [keys()] and [size()] *)
Definition keys c : list string := JsMap.keys (cache c).
Definition size c : Z := JsMap.size (cache c).

(** ** Operation sequences *)

Inductive op :=
| OpGet (key : string)
| OpSet (key : string) (v : T)
| OpHas (key : string)
| OpClear
| OpResetStats
| OpSweep.

(** One operation, run at the instant [now]. *)
Definition exec c (x : Z * op) : t T :=
  match x.2 with
  | OpGet key => (get c x.1 key).2
  | OpSet key v => set c x.1 key v
  | OpHas key => (has c x.1 key).2
  | OpClear => clear c
  | OpResetStats => resetStats c
  | OpSweep => cleanupStaleEntries c x.1
  end.

Definition run c (xs : list (Z * op)) : t T := foldl exec c xs.
End WithValue.

Arguments op : clear implicits.

End LRUCache.

(* ===================================================================== *)
(** * RateLimiter *)
(* ===================================================================== *)

Module RateLimiter.

Record TokenBucket := mkBucket {
  tokens : Q;
  lastRefill : Z;
  burstTokens : Z;
  lastBurstRefill : Z
}.

Record t := mkLimiter {
  buckets : gmap string TokenBucket;
  maxTokens : Q;
  refillRate : Q;
  burstCapacity : Z;
  burstWindow : Z
}.

(** The part of an Express request that [getClientId] reads; an absent
    header or address is [None]. *)
Record Request := mkRequest {
  x_forwarded_for : option string;
  x_real_ip : option string;
  remoteAddress : option string
}.

Record Status := mkStatus {
  remaining : Z;
  burstRemaining : Z;
  resetIn : Z
}.

(** [constructor()] *)
Definition constructor : t :=
  {| buckets := ∅;
     maxTokens := 10;
     refillRate := (10 / (60 * 1000))%Q;
     burstCapacity := 5;
     burstWindow := 10 * 1000 |}.

Definition with_buckets (rl : t) (m : gmap string TokenBucket) : t :=
  {| buckets := m; maxTokens := maxTokens rl; refillRate := refillRate rl;
     burstCapacity := burstCapacity rl; burstWindow := burstWindow rl |}.

(** The bucket is an object shared with the map: a mutation of the bucket
    is a write to the map at its client. *)
Definition store (rl : t) (clientId : string) (b : TokenBucket) : t :=
  with_buckets rl (<[clientId := b]> (buckets rl)).

(** [a || b] on optional strings. *)
Definition or_else (a : option string) (b : option string) : option string :=
  match a with
  | Some s => if truthy s then Some s else b
  | None => b
  end.

(** [getClientId(req)] *)
Definition getClientId (req : Request) : string :=
  default "unknown"%string
    (or_else (x_forwarded_for req)
       (or_else (x_real_ip req)
          (or_else (remoteAddress req) (Some "unknown"%string)))).

(** [getBucket(clientId)] *)
Definition getBucket (rl : t) (now : Z) (clientId : string) : TokenBucket * t :=
  match buckets rl !! clientId with
  | Some bucket => (bucket, rl)
  | None =>
      let bucket := {| tokens := maxTokens rl; lastRefill := now;
                       burstTokens := burstCapacity rl;
                       lastBurstRefill := now |} in
      (bucket, store rl clientId bucket)
  end.

(** [refillTokens(bucket)] *)
Definition refillTokens (rl : t) (now : Z) (bucket : TokenBucket) : TokenBucket :=
  let timeSinceRefill := now - lastRefill bucket in
  let tokensToAdd := (inject_Z timeSinceRefill * refillRate rl)%Q in
  {| tokens := Qmin (maxTokens rl) (tokens bucket + tokensToAdd)%Q;
     lastRefill := now;
     burstTokens := burstTokens bucket;
     lastBurstRefill := lastBurstRefill bucket |}.

(** [refillBurstTokens(bucket)] *)
Definition refillBurstTokens (rl : t) (now : Z) (bucket : TokenBucket) : TokenBucket :=
  let timeSinceBurstRefill := now - lastBurstRefill bucket in
  if timeSinceBurstRefill >=? burstWindow rl then
    {| tokens := tokens bucket; lastRefill := lastRefill bucket;
       burstTokens := burstCapacity rl; lastBurstRefill := now |}
  else bucket.

(** [allowRequest(clientId)] *)
Definition allowRequest (rl : t) (now : Z) (clientId : string) : bool * t :=
  let '(bucket, rl) := getBucket rl now clientId in
  let bucket := refillTokens rl now bucket in
  let bucket := refillBurstTokens rl now bucket in
  if burstTokens bucket >? 0 then
    (true,
     store rl clientId
       {| tokens := Qmax 0 (tokens bucket - 1)%Q;
          lastRefill := lastRefill bucket;
          burstTokens := burstTokens bucket - 1;
          lastBurstRefill := lastBurstRefill bucket |})
  else if Qle_bool 1 (tokens bucket) then
    (true,
     store rl clientId
       {| tokens := (tokens bucket - 1)%Q;
          lastRefill := lastRefill bucket;
          burstTokens := burstTokens bucket;
          lastBurstRefill := lastBurstRefill bucket |})
  else (false, store rl clientId bucket).

(** [cleanup()] *)
Definition cleanup (rl : t) (now : Z) : t :=
  let timeout := 5 * 60 * 1000 in
  with_buckets rl
    (filter (fun kb => ¬ (now - lastRefill kb.2 > timeout)) (buckets rl)).

(** [getStatus(req)] *)
Definition getStatus (rl : t) (now : Z) (req : Request) : Status * t :=
  let clientId := getClientId req in
  let '(bucket, rl) := getBucket rl now clientId in
  let bucket := refillTokens rl now bucket in
  let bucket := refillBurstTokens rl now bucket in
  let resetIn := Qceiling ((maxTokens rl - tokens bucket) / refillRate rl)%Q in
  ({| remaining := Qfloor (tokens bucket);
      burstRemaining := burstTokens bucket;
      resetIn := resetIn |},
   store rl clientId bucket).

(** [admitted rl now clientId n]: the answers of [n] consecutive
    [allowRequest] calls that all read the clock at [now], and the state
    they leave. *)
Fixpoint admitted (rl : t) (now : Z) (clientId : string) (n : nat) : list bool * t :=
  match n with
  | O => ([], rl)
  | S n' =>
      let '(a, rl1) := allowRequest rl now clientId in
      let '(l, rl2) := admitted rl1 now clientId n' in
      (a :: l, rl2)
  end.

End RateLimiter.

(* ===================================================================== *)
(** * AsyncQueue *)
(* ===================================================================== *)

Module AsyncQueue.

(** How a promise settles: [resolve(value)] or [reject(error)]. *)
Inductive outcome :=
| Fulfilled (v : string)
| Rejected (err : string).

(** A [QueueTask].  [execute] names the caller's fetch function; [promise]
    names the promise that [enqueue] returned to the caller, and stands for
    its [resolve]/[reject] pair. *)
Record QueueTask := mkTask {
  id : string;
  execute : nat;
  promise : nat
}.

(** The fields of the class. *)
Record t := mkQueue {
  queue : list (string * list QueueTask);
  processing : gset string;
  concurrencyLimit : Z;
  activeCount : Z
}.

(** The queue together with what the JavaScript runtime holds around it:
    - [running]: the [processTask] calls suspended at [await task()],
    - [calls]: every call [task()] made so far, oldest first (the call
      counter of an instrumented fetch function),
    - [settled]: every [resolve]/[reject] call made so far, oldest first,
    - [nextPromise]: the name of the next promise [enqueue] will create. *)
Record World := mkWorld {
  aq : t;
  running : list QueueTask;
  calls : list (string * nat);
  settled : list (nat * outcome);
  nextPromise : nat
}.

(** [new AsyncQueue(concurrencyLimit)] in a fresh runtime. *)
Definition constructor (limit : Z) : World :=
  {| aq := {| queue := []; processing := ∅;
              concurrencyLimit := limit; activeCount := 0 |};
     running := []; calls := []; settled := []; nextPromise := 0 |}.

(** [processTask(id, task, resolve, reject)] up to its [await]: [task()] is
    called at once and the call suspends until the task's promise settles. *)
Definition processTask_call (w : World) (i : string) (task p : nat) : World :=
  {| aq := aq w;
     running := running w ++ [{| id := i; execute := task; promise := p |}];
     calls := calls w ++ [(i, task)];
     settled := settled w;
     nextPromise := nextPromise w |}.

(** [this.queue.get(id) || []; existingQueue.push(...); this.queue.set(...)] *)
Definition push_waiter (q : t) (i : string) (task p : nat) : t :=
  let existingQueue := default [] (JsMap.get i (queue q)) in
  {| queue := JsMap.set i
                (existingQueue ++ [{| id := i; execute := task; promise := p |}])
                (queue q);
     processing := processing q;
     concurrencyLimit := concurrencyLimit q;
     activeCount := activeCount q |}.

Definition with_aq (w : World) (q : t) : World :=
  {| aq := q; running := running w; calls := calls w;
     settled := settled w; nextPromise := nextPromise w |}.

(** [enqueue(id, task)]: returns the new promise and the next world. *)
Definition enqueue (w : World) (i : string) (task : nat) : nat * World :=
  let p := nextPromise w in
  let w := {| aq := aq w; running := running w; calls := calls w;
              settled := settled w; nextPromise := S p |} in
  if decide (i ∈ processing (aq w)) then
    (p, with_aq w (push_waiter (aq w) i task p))
  else
    let q := {| queue := queue (aq w);
                processing := {[i]} ∪ processing (aq w);
                concurrencyLimit := concurrencyLimit (aq w);
                activeCount := activeCount (aq w) |} in
    if activeCount q <? concurrencyLimit q then
      let q := {| queue := queue q; processing := processing q;
                  concurrencyLimit := concurrencyLimit q;
                  activeCount := activeCount q + 1 |} in
      (p, processTask_call (with_aq w q) i task p)
    else
      (p, with_aq w (push_waiter q i task p)).

(** The entry the loop of [processNext] stops at: the first one, in
    insertion order, whose id is not being processed and whose array is
    not empty; with the task that [tasks.shift()] returns and the rest. *)
Fixpoint next_entry (proc : gset string) (m : list (string * list QueueTask))
  : option (string * QueueTask * list QueueTask) :=
  match m with
  | [] => None
  | (i, tasks) :: m' =>
      if decide (i ∈ proc) then next_entry proc m'
      else match tasks with
           | [] => next_entry proc m'
           | task :: rest => Some (i, task, rest)
           end
  end.

(** [processNext()] *)
Definition processNext (w : World) : World :=
  if activeCount (aq w) >=? concurrencyLimit (aq w) then w
  else
    match next_entry (processing (aq w)) (queue (aq w)) with
    | None => w
    | Some (i, task, rest) =>
        let q := {| queue := match rest with
                             | [] => JsMap.delete i (queue (aq w))
                             | _ => JsMap.set i rest (queue (aq w))
                             end;
                    processing := {[i]} ∪ processing (aq w);
                    concurrencyLimit := concurrencyLimit (aq w);
                    activeCount := activeCount (aq w) + 1 |} in
        processTask_call (with_aq w q) i (execute task) (promise task)
    end.

(** [resolve(result)] or [reject(error)] on each of [ps], in order. *)
Definition settle_all (w : World) (ps : list nat) (o : outcome) : World :=
  {| aq := aq w; running := running w; calls := calls w;
     settled := settled w ++ map (fun p => (p, o)) ps;
     nextPromise := nextPromise w |}.

(** The rest of [processTask] once [task()] has settled with [o]: the
    [try] (or [catch]) block, then [finally]. *)
Definition processTask_resume (w : World) (t0 : QueueTask) (o : outcome) : World :=
  let w := settle_all w [promise t0] o in
  let w :=
    match JsMap.get (id t0) (queue (aq w)) with
    | Some waitingTasks =>
        if (0 <? length waitingTasks)%nat then
          let w := settle_all w (map promise waitingTasks) o in
          with_aq w {| queue := JsMap.delete (id t0) (queue (aq w));
                       processing := processing (aq w);
                       concurrencyLimit := concurrencyLimit (aq w);
                       activeCount := activeCount (aq w) |}
        else w
    | None => w
    end in
  let w := with_aq w {| queue := queue (aq w);
                        processing := processing (aq w) ∖ {[id t0]};
                        concurrencyLimit := concurrencyLimit (aq w);
                        activeCount := activeCount (aq w) - 1 |} in
  processNext w.

(** The suspended call whose caller's promise is [p], and the others. *)
Fixpoint take (p : nat) (l : list QueueTask) : option (QueueTask * list QueueTask) :=
  match l with
  | [] => None
  | t0 :: l' =>
      if decide (promise t0 = p) then Some (t0, l')
      else match take p l' with
           | Some (t1, l'') => Some (t1, t0 :: l'')
           | None => None
           end
  end.

(** [clear()] *)
Definition clear (q : t) : t :=
  {| queue := []; processing := processing q;
     concurrencyLimit := concurrencyLimit q; activeCount := activeCount q |}.

(** [getStats()] *)
Record QueueStats := mkQueueStats {
  queueSize : Z;
  processingCount : Z;
  s_activeCount : Z
}.

Definition getStats (q : t) : QueueStats :=
  {| queueSize := foldl (fun totalQueued e => totalQueued + Z.of_nat (length e.2))
                        0 (queue q);
     processingCount := Z.of_nat (size (processing q));
     s_activeCount := activeCount q |}.

(** [isProcessing(id)] *)
Definition isProcessing (q : t) (i : string) : bool :=
  bool_decide (i ∈ processing q).

(** What can happen to the queue: a caller calls [enqueue], the fetch of
    the suspended [processTask] call of promise [p] settles, or [clear()]
    is called. *)
Inductive event :=
| Enqueue (i : string) (task : nat)
| Settle (p : nat) (o : outcome)
| Clear.

Definition step (w : World) (ev : event) : World :=
  match ev with
  | Enqueue i task => (enqueue w i task).2
  | Settle p o =>
      match take p (running w) with
      | Some (t0, others) =>
          processTask_resume
            {| aq := aq w; running := others; calls := calls w;
               settled := settled w; nextPromise := nextPromise w |} t0 o
      | None => w
      end
  | Clear => with_aq w (clear (aq w))
  end.

Definition run (w : World) (evs : list event) : World := foldl step w evs.

(** The state of promise [p]: the first [resolve] or [reject] made on it
    decides, later ones are ignored. *)
Fixpoint first_outcome (p : nat) (l : list (nat * outcome)) : option outcome :=
  match l with
  | [] => None
  | (q, o) :: l' => if decide (q = p) then Some o else first_outcome p l'
  end.

Definition settlement (w : World) (p : nat) : option outcome :=
  first_outcome p (settled w).

(** The call counter of the fetches made for key [i]. *)
Definition callCount (w : World) (i : string) : nat :=
  length (filter (fun c => c.1 = i) (calls w)).

End AsyncQueue.

(* ===================================================================== *)
(** * LRUCache: notions used to state its properties *)
(* ===================================================================== *)

Module LRUCacheDefs.
Import LRUCache.

Section WithValue.
Context {T : Type}.
Implicit Types (c : t T) (e : CacheEntry T) (k key : string) (now : Z).

(** The counters are natural numbers. *)
Definition counters_ok (s : Counters) : Prop :=
  0 <= hits s /\ 0 <= misses s /\ 0 <= evictions s.


(** The [lastAccessed] stamps, in the order of the store. *)
Definition ages (m : list (string * CacheEntry T)) : list Z :=
  (fun p => lastAccessed p.2) <$> m.

(** The store holds no key twice, no empty key, and at most [capacity]
    entries. *)
Record store_ok c : Prop := mk_store_ok {
  ok_nodup : NoDup (JsMap.keys (cache c));
  ok_keys : Forall (fun k => truthy k = true) (JsMap.keys (cache c));
  ok_size : JsMap.size (cache c) <= capacity c
}.

(** The store is ordered by [lastAccessed], and no stamp is after [tl]. *)
Definition recency_ok (m : list (string * CacheEntry T)) (tl : Z) : Prop :=
  StronglySorted Z.le (ages m) /\ Forall (fun a => a <= tl) (ages m).

(** An operation that writes: its key is not the empty string. *)
Definition set_keys_ok (x : Z * op T) : Prop :=
  match x.2 with
  | OpSet k _ => truthy k = true
  | _ => True
  end.

(** The operation [x], run on [c], uses the key [k]: it writes it, or it
    reads it and finds it. *)
Definition touches c (x : Z * op T) k : bool :=
  match x.2 with
  | OpSet key _ => bool_decide (k = key)
  | OpGet key => bool_decide (k = key) && bool_decide (is_Some (get c x.1 key).1)
  | _ => false
  end.

(** The position, in [xs] run from [c], of the last operation that used
    [k]. *)
Fixpoint last_use c (xs : list (Z * op T)) k : option nat :=
  match xs with
  | [] => None
  | x :: xs' =>
      match last_use (exec c x) xs' k with
      | Some j => Some (S j)
      | None => if touches c x k then Some 0%nat else None
      end
  end.

(** The keys of the store, each with the position of its last use. *)
Definition ranks c0 (xs : list (Z * op T)) : list (option nat) :=
  (fun k => last_use c0 xs k) <$> JsMap.keys (cache (run c0 xs)).

(** [a] was used, and before [b]. *)
Definition used_before (a b : option nat) : Prop :=
  exists i j, a = Some i /\ b = Some j /\ (i < j)%nat.

(** The store is ordered by last use: every key in it was used, and the
    keys come in the order of their last uses. *)
Definition use_order_ok c0 (xs : list (Z * op T)) : Prop :=
  StronglySorted used_before (ranks c0 xs)
  /\ Forall (fun a => exists i, a = Some i /\ (i < length xs)%nat) (ranks c0 xs).

End WithValue.

(** Capacity 2, TTL 1 s, three writes. *)
Definition demo : t Z :=
  run (constructor 2 1)
      [(0, OpSet "a" 1); (1, OpSet "b" 2); (2, OpSet "c" 3)].

End LRUCacheDefs.

(* ===================================================================== *)
(** * RateLimiter: notions used to state its properties *)
(* ===================================================================== *)

Module RateLimiterDefs.
Import RateLimiter.

(** The bucket of a client as the next call will see it: the stored one,
    or a full bucket stamped [now] for a client seen for the first time. *)
Definition bucket_of (rl : t) (now : Z) (clientId : string) : TokenBucket :=
  (getBucket rl now clientId).1.

(** The steady refill followed by the burst refill. *)
Definition refill (rl : t) (now : Z) (b : TokenBucket) : TokenBucket :=
  refillBurstTokens rl now (refillTokens rl now b).

(** The admission decision on a refilled bucket, and the bucket it leaves. *)
Definition consume (b : TokenBucket) : bool * TokenBucket :=
  if burstTokens b >? 0 then
    (true, {| tokens := Qmax 0 (tokens b - 1)%Q; lastRefill := lastRefill b;
              burstTokens := burstTokens b - 1;
              lastBurstRefill := lastBurstRefill b |})
  else if Qle_bool 1 (tokens b) then
    (true, {| tokens := (tokens b - 1)%Q; lastRefill := lastRefill b;
              burstTokens := burstTokens b;
              lastBurstRefill := lastBurstRefill b |})
  else (false, b).

(** The steady and burst tokens after one request at the instant of the
    stamps, for the pool sizes of the constructor. *)
Definition instant (s : Q * Z) : bool * (Q * Z) :=
  let tk := Qmin 10 (s.1 + inject_Z 0 * (10 / (60 * 1000)))%Q in
  if s.2 >? 0 then (true, (Qmax 0 (tk - 1)%Q, s.2 - 1))
  else if Qle_bool 1 tk then (true, ((tk - 1)%Q, s.2))
  else (false, (tk, s.2)).

(** [n] requests at that instant: the answers and the tokens left. *)
Fixpoint instants (s : Q * Z) (n : nat) : list bool * (Q * Z) :=
  match n with
  | O => ([], s)
  | S n' =>
      let '(a, s1) := instant s in
      let '(l, s2) := instants s1 n' in
      (a :: l, s2)
  end.

(** The bucket with the tokens [s], last refilled at [now]. *)
Definition stamped (now : Z) (s : Q * Z) : TokenBucket :=
  {| tokens := s.1; lastRefill := now; burstTokens := s.2;
     lastBurstRefill := now |}.

(** A request from 10.0.0.1 without proxy headers. *)
Definition probe : Request :=
  {| x_forwarded_for := None; x_real_ip := None;
     remoteAddress := Some "10.0.0.1"%string |}.

End RateLimiterDefs.

(* ===================================================================== *)
(** * AsyncQueue: notions used to state its properties *)
(* ===================================================================== *)

Module AsyncQueueDefs.
Import AsyncQueue.

(** Every task waiting in the queue. *)
Definition qtasks (m : list (string * list QueueTask)) : list QueueTask :=
  concat m.*2.

(** Every promise somebody still holds a [resolve]/[reject] pair of: those
    of the suspended [processTask] calls and those of the waiting tasks. *)
Definition outstanding (w : World) : list nat :=
  (promise <$> running w) ++ (promise <$> qtasks (queue (aq w))).

(** The promises [resolve] or [reject] was called on. *)
Definition settled_promises (w : World) : list nat := (settled w).*1.

(** What holds of the queue however it was driven. *)
Record Inv (w : World) : Prop := mkInv {
  inv_keys : NoDup (JsMap.keys (queue (aq w)));
  inv_nonempty : Forall (fun e => e.2 ≠ []) (queue (aq w));
  inv_queued : Forall (fun e => e.1 ∈ processing (aq w)) (queue (aq w));
  inv_running : Forall (fun t0 => id t0 ∈ processing (aq w)) (running w);
  inv_runids : NoDup (id <$> running w);
  inv_count : activeCount (aq w) = Z.of_nat (length (running w));
  inv_fresh : Forall (fun p => (p < nextPromise w)%nat) (outstanding w);
  inv_nodup : NoDup (outstanding w);
  inv_settled : Forall (fun p => (p < nextPromise w)%nat /\ p ∉ outstanding w)
                       (settled_promises w)
}.

(** The world [processTask] leaves when it resumes, before its call of
    [processNext]: the caller and the waiters of the id are settled with
    the one outcome, the id loses its queue entry and its mark, a slot is
    free. *)
Definition resumed (w : World) (t0 : QueueTask) (o : outcome) : World :=
  {| aq := {| queue := JsMap.delete (id t0) (queue (aq w));
              processing := processing (aq w) ∖ {[id t0]};
              concurrencyLimit := concurrencyLimit (aq w);
              activeCount := activeCount (aq w) - 1 |};
     running := running w;
     calls := calls w;
     settled := settled w
                ++ map (fun p => (p, o))
                     (promise t0
                      :: (promise <$> default [] (JsMap.get (id t0) (queue (aq w)))));
     nextPromise := nextPromise w |}.

(** [p] was handed out, nobody holds its [resolve]/[reject] pair any more,
    and it was never settled. *)
Definition abandoned (w : World) (p : nat) : Prop :=
  (p < nextPromise w)%nat /\ (p ∉ outstanding w) /\ (p ∉ settled_promises w).

(** [k] is marked as being processed although no fetch for it is in
    flight. *)
Definition stuck (w : World) (k : string) : Prop :=
  k ∈ processing (aq w) /\ Forall (fun t0 => id t0 ≠ k) (running w).

(** [p] can only be settled through the queue entry of [k]. *)
Definition waits_under (w : World) (k : string) (p : nat) : Prop :=
  (p ∉ settled_promises w)
  /\ (p ∉ promise <$> running w)
  /\ (p < nextPromise w)%nat
  /\ Forall (fun e => Forall (fun t0 => promise t0 = p -> e.1 = k) e.2)
            (queue (aq w)).

(** The promises that [enqueue] returns, along [evs], to callers for [k]. *)
Fixpoint callers (k : string) (w : World) (evs : list event) : list nat :=
  match evs with
  | [] => []
  | ev :: evs' =>
      match ev with
      | Enqueue i task => if decide (i = k) then [(enqueue w i task).1] else []
      | _ => []
      end ++ callers k (step w ev) evs'
  end.

(** What may happen while the fetch of promise [p0] is in flight: any call
    of [enqueue], for its key or another, and the completion of any other
    fetch; not its own completion and not [clear()]. *)
Definition leaves_in_flight (p0 : nat) (ev : event) : Prop :=
  match ev with
  | Enqueue _ _ => True
  | Settle p _ => p ≠ p0
  | Clear => False
  end.

(** The waiters of [k], by their promises, oldest first. *)
Definition waiting (w : World) (k : string) : list nat :=
  promise <$> default [] (JsMap.get k (queue (aq w))).

End AsyncQueueDefs.

(* ===================================================================== *)
(** * The user service and the logger configuration *)
(* ===================================================================== *)

(** A JavaScript object used as a record keyed by numbers: its own
    integer keys are enumerated in ascending order, whatever the order of
    the writes. *)
Module JsObject.
Section WithValue.
Context {V : Type}.

(** [obj[k]] *)
Fixpoint get (k : Z) (m : list (Z * V)) : option V :=
  match m with
  | [] => None
  | (k0, v0) :: m' => if decide (k0 = k) then Some v0 else get k m'
  end.

(** [obj[k] = v] *)
Fixpoint set (k : Z) (v : V) (m : list (Z * V)) : list (Z * V) :=
  match m with
  | [] => [(k, v)]
  | (k0, v0) :: m' =>
      if decide (k0 = k) then (k, v) :: m'
      else if decide (k < k0) then (k, v) :: (k0, v0) :: m'
      else (k0, v0) :: set k v m'
  end.

(** [Object.values(obj)] *)
Definition values (m : list (Z * V)) : list V := m.*2.
End WithValue.
End JsObject.

(** [UserService] from [src/modules/users/users.service.ts]: the state of
    the service and the methods whose body runs in one piece.
    [getUserById], which suspends in the queue and on the database timer,
    is not embedded.  Ids are integers; the id counter is far from the
    range where a double stops counting. *)
Module UserService.

Record User := mkUser {
  id : Z;
  name : string;
  email : string;
  createdAt : option Z
}.

Record CreateUserInput := mkInput {
  in_name : string;
  in_email : string
}.

(** [minResponseTime] starts as [Infinity], which is [None] here. *)
Record PerformanceMetrics := mkMetrics {
  requestCount : Z;
  totalResponseTime : Z;
  minResponseTime : option Z;
  maxResponseTime : Z;
  averageResponseTime : Q
}.

Record t := mkService {
  cache : LRUCache.t User;
  userDatabase : list (Z * User);
  performanceMetrics : PerformanceMetrics;
  nextUserId : Z
}.

Definition mockUsers : list (Z * User) :=
  [(1, {| id := 1; name := "John Doe"; email := "john@example.com";
          createdAt := None |});
   (2, {| id := 2; name := "Jane Smith"; email := "jane@example.com";
          createdAt := None |});
   (3, {| id := 3; name := "Alice Johnson"; email := "alice@example.com";
          createdAt := None |})].

Definition noMetrics : PerformanceMetrics :=
  {| requestCount := 0; totalResponseTime := 0; minResponseTime := None;
     maxResponseTime := 0; averageResponseTime := 0 |}.

(** [constructor()] *)
Definition constructor : t :=
  {| cache := LRUCache.constructor 100 60;
     userDatabase := mockUsers;
     performanceMetrics := noMetrics;
     nextUserId := 4 |}.

(** [`user:${userId}`] for an integer [userId]. *)
Definition cacheKey (userId : Z) : string := "user:" +:+ pretty userId.

(** [updatePerformanceMetrics(startTime)], with the clock at [now]. *)
Definition updatePerformanceMetrics (s : t) (startTime now : Z) : t :=
  let responseTime := now - startTime in
  let m := performanceMetrics s in
  let count := requestCount m + 1 in
  let total := totalResponseTime m + responseTime in
  {| cache := cache s;
     userDatabase := userDatabase s;
     performanceMetrics :=
       {| requestCount := count;
          totalResponseTime := total;
          minResponseTime :=
            Some (match minResponseTime m with
                  | None => responseTime
                  | Some mn => Z.min mn responseTime
                  end);
          maxResponseTime := Z.max (maxResponseTime m) responseTime;
          averageResponseTime :=
            (inject_Z (LRUCache.Math_round
                         ((inject_Z total / inject_Z count) * 100))
             / 100)%Q |};
     nextUserId := nextUserId s |}.

(** The four readings of the clock that [createUser] makes, in order:
    [startTime], [new Date()], the one inside [cache.set], and the one
    inside [updatePerformanceMetrics]. *)
Record Clock := mkClock {
  startTime : Z;
  created : Z;
  cached : Z;
  finished : Z
}.

(** [createUser(input)]: its body has no [await] and runs in one piece. *)
Definition createUser (s : t) (input : CreateUserInput) (ck : Clock) : User * t :=
  let newUser := {| id := nextUserId s;
                    name := in_name input;
                    email := in_email input;
                    createdAt := Some (created ck) |} in
  let s := {| cache := LRUCache.set (cache s) (cached ck)
                         (cacheKey (id newUser)) newUser;
              userDatabase := JsObject.set (id newUser) newUser (userDatabase s);
              performanceMetrics := performanceMetrics s;
              nextUserId := nextUserId s + 1 |} in
  (newUser, updatePerformanceMetrics s (startTime ck) (finished ck)).

(** [getAllUsers()] *)
Definition getAllUsers (s : t) : list User := JsObject.values (userDatabase s).

(** [clearCache()] *)
Definition clearCache (s : t) : t :=
  {| cache := LRUCache.clear (cache s);
     userDatabase := userDatabase s;
     performanceMetrics := performanceMetrics s;
     nextUserId := nextUserId s |}.

(** [getPerformanceMetrics()] *)
Definition getPerformanceMetrics (s : t) : PerformanceMetrics :=
  performanceMetrics s.

(** [resetPerformanceMetrics()] *)
Definition resetPerformanceMetrics (s : t) : t :=
  {| cache := cache s;
     userDatabase := userDatabase s;
     performanceMetrics := noMetrics;
     nextUserId := nextUserId s |}.

(** The calls that run in one piece. *)
Inductive call :=
| CreateUser (input : CreateUserInput) (ck : Clock)
| ClearCache
| ResetPerformanceMetrics.

(** One call: the user it returns, if it is [createUser], and the state. *)
Definition step (s : t) (c : call) : option User * t :=
  match c with
  | CreateUser input ck =>
      let '(u, s') := createUser s input ck in (Some u, s')
  | ClearCache => (None, clearCache s)
  | ResetPerformanceMetrics => (None, resetPerformanceMetrics s)
  end.

(** A sequence of calls: the users returned, in order, and the state. *)
Fixpoint run (s : t) (cs : list call) : list User * t :=
  match cs with
  | [] => ([], s)
  | c :: cs' =>
      let '(o, s1) := step s c in
      let '(us, s2) := run s1 cs' in
      (option_list o ++ us, s2)
  end.

(** The requests measured one after the other: each with its start and
    its end. *)
Definition measure (s : t) (xs : list (Z * Z)) : t :=
  foldl (fun s x => updatePerformanceMetrics s x.1 x.2) s xs.

End UserService.

(** [config] and the options of the [Logger], from the parsed
    environment on. *)
Module Config.

Inductive Environment :=
| DEVELOPMENT
| PRODUCTION
| LOCAL.

(** The environment as [envSchema.parse] returns it. *)
Record Env := mkEnv {
  NODE_ENV : Environment;
  PORT : string
}.

Record t := mkConfig {
  env : Environment;
  port : string;
  isDevelopment : bool;
  isProduction : bool;
  isLocal : bool
}.

Definition strict_eq (a b : Environment) : bool :=
  match a, b with
  | DEVELOPMENT, DEVELOPMENT | PRODUCTION, PRODUCTION | LOCAL, LOCAL => true
  | _, _ => false
  end.

(** [config] *)
Definition config (e : Env) : t :=
  {| env := NODE_ENV e;
     port := PORT e;
     isDevelopment := strict_eq (NODE_ENV e) DEVELOPMENT;
     isProduction := strict_eq (NODE_ENV e) PRODUCTION;
     isLocal := strict_eq (NODE_ENV e) LOCAL |}.
End Config.

Module Logger.

Inductive transport :=
| Console
| File (filename : string).

(** The options that the constructor passes to [winston.createLogger]
    (the formats are left out). *)
Record options := mkOptions {
  level : string;
  transports : list transport
}.

Definition constructor (config : Config.t) : options :=
  {| level := if Config.isDevelopment config then "debug" else "info";
     transports :=
       (if Config.isLocal config then [Console] else [])
       ++ (if Config.isProduction config then [File "logs/logs.log"] else []) |}.
End Logger.

(* ===================================================================== *)
(** * LRUCache: what was asked and what was written *)
(* ===================================================================== *)

Module LRUCacheLedger.
Import LRUCache.
Section WithValue.
Context {T : Type}.
Implicit Types (c : t T) (e : CacheEntry T) (k key : string) (now : Z).

(** The answers of the [get] calls made since the last [resetStats], the
    newest first, as the callers saw them; [acc] holds those made before
    [xs]. *)
Fixpoint replies c (xs : list (Z * op T)) (acc : list (option T)) : list (option T) :=
  match xs with
  | [] => acc
  | x :: xs' =>
      replies (exec c x) xs'
        match x.2 with
        | OpGet key => (get c x.1 key).1 :: acc
        | OpResetStats => []
        | _ => acc
        end
  end.

(** The number of [set] calls made since the last [resetStats]. *)
Fixpoint writes (xs : list (Z * op T)) (acc : Z) : Z :=
  match xs with
  | [] => acc
  | x :: xs' =>
      writes xs' match x.2 with
                 | OpSet _ _ => acc + 1
                 | OpResetStats => 0
                 | _ => acc
                 end
  end.

(** How many of the answers [r] carried a value, and how many did not. *)
Definition served (r : list (option T)) : Z :=
  Z.of_nat (length (filter is_Some r)).
Definition unserved (r : list (option T)) : Z :=
  Z.of_nat (length (filter (fun o => o = None) r)).

(** The operation [x] does not write the key [k]. *)
Definition no_set k (x : Z * op T) : Prop :=
  match x.2 with
  | OpSet key _ => key ≠ k
  | _ => True
  end.

(** What the caller of the operation [x] gets back: the value of a [get],
    the answer of a [has]; the other operations return nothing. *)
Definition answer c (x : Z * op T) : option (option T + bool) :=
  match x.2 with
  | OpGet key => Some (inl (get c x.1 key).1)
  | OpHas key => Some (inr (has c x.1 key).1)
  | _ => None
  end.

(** What the callers of [xs], run one after the other from [c], get back. *)
Fixpoint answers c (xs : list (Z * op T)) : list (option (option T + bool)) :=
  match xs with
  | [] => []
  | x :: xs' => answer c x :: answers (exec c x) xs'
  end.

(** The operation [x] is not a [set]. *)
Definition no_write (x : Z * op T) : Prop :=
  match x.2 with
  | OpSet _ _ => False
  | _ => True
  end.

(** The entry [p] is not older than [ttl0] at [ts]. *)
Definition fresh_at (ts ttl0 : Z) (p : string * CacheEntry T) : Prop :=
  ¬ (ts - timestamp p.2 > ttl0).

(** [c] without the entries that the sweep at [ts] removes. *)
Definition swept (ts : Z) c : t T :=
  with_cache c (filter (fresh_at ts (ttl c)) (cache c)).
End WithValue.
End LRUCacheLedger.

(* ===================================================================== *)
(** * RateLimiter: traffic *)
(* ===================================================================== *)

Module RateLimiterTraffic.
Import RateLimiter.

(** What reaches the limiter: a request of a client through the
    middleware, a status query, a run of the cleanup timer. *)
Inductive call :=
| Admit (clientId : string)
| Query (req : Request)
| Sweep.

(** One call at the instant [x.1]. *)
Definition exec (rl : t) (x : Z * call) : t :=
  match x.2 with
  | Admit clientId => (allowRequest rl x.1 clientId).2
  | Query req => (getStatus rl x.1 req).2
  | Sweep => cleanup rl x.1
  end.

Definition run (rl : t) (xs : list (Z * call)) : t := foldl exec rl xs.

(** The requests [reqs] (instant and client) served in order: each client
    with the answer it got, and the state left. *)
Fixpoint serve (rl : t) (reqs : list (Z * string)) : list (string * bool) * t :=
  match reqs with
  | [] => ([], rl)
  | r :: reqs' =>
      let '(a, rl1) := allowRequest rl r.1 r.2 in
      let '(l, rl2) := serve rl1 reqs' in
      ((r.2, a) :: l, rl2)
  end.

(** What the middleware does with a request: it hands it on with
    [next()], or answers it with status 429 (the body of the answer is
    left out). *)
Inductive verdict :=
| Next
| TooManyRequests.

(** [middleware()], the function it returns, run at [now]. *)
Definition middleware (rl : t) (now : Z) (req : Request) : verdict * t :=
  let clientId := getClientId req in
  let '(allowed, rl) := allowRequest rl now clientId in
  if negb allowed then (TooManyRequests, rl) else (Next, rl).

(** A bucket within its bounds, last touched no later than [tl]. *)
Definition bucket_ok (rl : t) (tl : Z) (b : TokenBucket) : Prop :=
  (0 <= tokens b)%Q /\ (tokens b <= maxTokens rl)%Q
  /\ 0 <= burstTokens b <= burstCapacity rl
  /\ lastBurstRefill b <= lastRefill b <= tl.

(** Two buckets that differ at most in how their steady tokens are
    written as a fraction. *)
Definition same_bucket (b1 b2 : TokenBucket) : Prop :=
  (tokens b1 == tokens b2)%Q /\ lastRefill b1 = lastRefill b2
  /\ burstTokens b1 = burstTokens b2
  /\ lastBurstRefill b1 = lastBurstRefill b2.

(** Pool sizes and rate are not negative. *)
Definition sane (rl : t) : Prop :=
  (0 <= maxTokens rl)%Q /\ (0 <= refillRate rl)%Q /\ 0 <= burstCapacity rl.

(** A bucket that was within its bounds and has not been touched for a
    minute at [t0]. *)
Definition rested (t0 : Z) (b : TokenBucket) : Prop :=
  (0 <= tokens b)%Q /\ lastBurstRefill b <= lastRefill b
  /\ lastRefill b + 60 * 1000 <= t0.

(** Two stores hold the same for a client: the same bucket, or one holds
    none and the other a rested bucket. *)
Definition alike (t0 : Z) (o1 o2 : option TokenBucket) : Prop :=
  match o1, o2 with
  | Some b1, Some b2 => same_bucket b1 b2
  | None, Some b2 => rested t0 b2
  | None, None => True
  | Some _, None => False
  end.
End RateLimiterTraffic.

(* ===================================================================== *)
(** * UserService: notions used to state its properties *)
(* ===================================================================== *)

Module UserServiceDefs.
Import UserService.

(** The user that the [i]-th [createUser] call after the constructor
    returns for [x]. *)
Definition nth_user (i : nat) (x : CreateUserInput * Clock) : User :=
  {| id := 4 + Z.of_nat i; name := in_name x.1; email := in_email x.1;
     createdAt := Some (created x.2) |}.

(** The [createUser] calls among [cs]. *)
Fixpoint creations (cs : list call) : list (CreateUserInput * Clock) :=
  match cs with
  | [] => []
  | CreateUser input ck :: cs' => (input, ck) :: creations cs'
  | _ :: cs' => creations cs'
  end.

Definition responseTimes (xs : list (Z * Z)) : list Z :=
  (fun x => x.2 - x.1) <$> xs.

Definition total_of (l : list Z) : Z := foldr Z.add 0 l.

(** What the metrics say about the response times [rts] measured since
    the last reset. *)
Definition sums_up (m : PerformanceMetrics) (rts : list Z) : Prop :=
  requestCount m = Z.of_nat (length rts)
  /\ totalResponseTime m = total_of rts
  /\ Forall (fun r => r <= maxResponseTime m) rts
  /\ (maxResponseTime m = 0 \/ maxResponseTime m ∈ rts)
  /\ 0 <= maxResponseTime m
  /\ match minResponseTime m with
     | None => rts = []
     | Some mn => mn ∈ rts /\ Forall (fun r => mn <= r) rts
     end.

(** Every key of the database is below the next id. *)
Definition ids_below (s : t) : Prop :=
  Forall (fun e => e.1 < nextUserId s) (userDatabase s).
End UserServiceDefs.

(* ===================================================================== *)
(** * Facts about [JsMap] *)
(* ===================================================================== *)

Module JsMapFacts.
Section Facts.
Context {V : Type}.
Implicit Types (m : list (string * V)) (k : string) (v : V).

Lemma get_None_keys m k : JsMap.get k m = None <-> k ∉ JsMap.keys m.
Proof.
  unfold JsMap.keys. induction m as [|[k' v'] m IH]; simpl.
  - split; [intros _; apply not_elem_of_nil | done].
  - rewrite not_elem_of_cons. destruct (decide (k' = k)) as [->|Hne].
    + split; [done | intros [? _]; done].
    + rewrite IH. split; [intros ?; split; [by intros -> | done] | by intros [_ ?]].
Qed.

Lemma get_Some_elem m k v : JsMap.get k m = Some v -> (k, v) ∈ m.
Proof.
  induction m as [|[k' v'] m IH]; simpl; [done|].
  destruct (decide (k' = k)) as [->|Hne].
  - intros [= ->]. left.
  - intros H. right. auto.
Qed.

Lemma elem_get_Some m k v :
  NoDup (JsMap.keys m) -> (k, v) ∈ m -> JsMap.get k m = Some v.
Proof.
  unfold JsMap.keys. induction m as [|[k' v'] m IH]; simpl.
  - intros _ H. by apply elem_of_nil in H.
  - rewrite NoDup_cons. intros [Hk' Hnd] Hin.
    apply elem_of_cons in Hin as [[= -> ->]|Hin].
    + by rewrite decide_True.
    + rewrite decide_False; [auto|].
      intros ->. apply Hk'. apply list_elem_of_fmap. by exists (k, v).
Qed.

Lemma has_false m k : JsMap.has k m = false <-> JsMap.get k m = None.
Proof. unfold JsMap.has. destruct (JsMap.get k m); split; congruence. Qed.

Lemma delete_absent m k : JsMap.get k m = None -> JsMap.delete k m = m.
Proof.
  induction m as [|[k' v'] m IH]; simpl; [done|].
  destruct (decide (k' = k)); [done|]. intros H. by rewrite IH.
Qed.

Lemma set_absent m k v : JsMap.get k m = None -> JsMap.set k v m = m ++ [(k, v)].
Proof.
  induction m as [|[k' v'] m IH]; simpl; [done|].
  destruct (decide (k' = k)); [done|]. intros H. by rewrite IH.
Qed.

Lemma get_set_eq m k v : JsMap.get k (JsMap.set k v m) = Some v.
Proof.
  induction m as [|[k' v'] m IH]; simpl.
  - by rewrite decide_True.
  - destruct (decide (k' = k)) as [->|Hne]; simpl.
    + by rewrite decide_True.
    + by rewrite decide_False.
Qed.

Lemma get_set_ne m k k' v : k ≠ k' -> JsMap.get k' (JsMap.set k v m) = JsMap.get k' m.
Proof.
  intros Hne. induction m as [|[k0 v0] m IH]; simpl.
  - by rewrite decide_False.
  - destruct (decide (k0 = k)) as [->|Hne0]; simpl.
    + by rewrite !decide_False.
    + by rewrite IH.
Qed.

Lemma get_delete_ne m k k' : k ≠ k' -> JsMap.get k' (JsMap.delete k m) = JsMap.get k' m.
Proof.
  intros Hne. induction m as [|[k0 v0] m IH]; simpl; [done|].
  destruct (decide (k0 = k)) as [->|Hne0]; simpl.
  - by rewrite decide_False.
  - by rewrite IH.
Qed.

Lemma keys_delete_sublist m k : JsMap.keys (JsMap.delete k m) `sublist_of` JsMap.keys m.
Proof.
  unfold JsMap.keys. induction m as [|[k0 v0] m IH]; simpl; [done|].
  destruct (decide (k0 = k)); simpl.
  - by apply sublist_cons.
  - by apply sublist_skip.
Qed.

Lemma delete_sublist m k : JsMap.delete k m `sublist_of` m.
Proof.
  induction m as [|[k0 v0] m IH]; simpl; [done|].
  destruct (decide (k0 = k)); simpl.
  - by apply sublist_cons.
  - by apply sublist_skip.
Qed.

Lemma NoDup_delete m k : NoDup (JsMap.keys m) -> NoDup (JsMap.keys (JsMap.delete k m)).
Proof. intros H. eapply sublist_NoDup; [done | apply keys_delete_sublist]. Qed.

Lemma get_delete_eq m k : NoDup (JsMap.keys m) -> JsMap.get k (JsMap.delete k m) = None.
Proof.
  unfold JsMap.keys. induction m as [|[k0 v0] m IH]; simpl; [done|].
  rewrite NoDup_cons. intros [Hk0 Hnd].
  destruct (decide (k0 = k)) as [->|Hne]; simpl.
  - by apply get_None_keys.
  - rewrite decide_False; auto.
Qed.

Lemma length_delete m k v :
  JsMap.get k m = Some v -> S (length (JsMap.delete k m)) = length m.
Proof.
  induction m as [|[k0 v0] m IH]; simpl; [done|].
  destruct (decide (k0 = k)); simpl; [done|]. intros H. by rewrite IH.
Qed.

Lemma keys_set_absent m k v :
  JsMap.get k m = None -> JsMap.keys (JsMap.set k v m) = JsMap.keys m ++ [k].
Proof. intros H. rewrite set_absent by done. unfold JsMap.keys. by rewrite fmap_app. Qed.

Lemma first_key_get m k : JsMap.first_key m = Some k -> exists v, JsMap.get k m = Some v.
Proof.
  destruct m as [|[k0 v0] m]; simpl; [done|].
  intros [= ->]. exists v0. by rewrite decide_True.
Qed.

(** Deleting a list of keys that misses the first key leaves it first. *)
Lemma foldl_delete_head m k v (ks : list string) :
  k ∉ ks ->
  foldl (fun m k => JsMap.delete k m) ((k, v) :: m) ks
  = (k, v) :: foldl (fun m k => JsMap.delete k m) m ks.
Proof.
  revert m. induction ks as [|k1 ks IH]; intros m Hk; simpl; [done|].
  apply not_elem_of_cons in Hk as [Hne Hk].
  rewrite decide_False by done. by apply IH.
Qed.

(** Collecting the keys that satisfy [P] and deleting them one by one
    keeps exactly the entries that do not satisfy [P]. *)
Lemma foldl_delete_filter (P : string * V -> Prop) `{!forall x, Decision (P x)} m :
  NoDup (JsMap.keys m) ->
  foldl (fun m k => JsMap.delete k m) m (filter P m).*1
  = filter (fun x => ¬ P x) m.
Proof.
  unfold JsMap.keys. induction m as [|[k v] m IH]; simpl; [done|].
  rewrite NoDup_cons. intros [Hk Hnd].
  rewrite !filter_cons. destruct (decide (P (k, v))) as [HP|HP].
  - rewrite decide_False by tauto. simpl. rewrite decide_True by done. auto.
  - rewrite decide_True by done. rewrite foldl_delete_head; [by rewrite IH|].
    intros Hin. apply Hk. apply list_elem_of_fmap in Hin as [[k' v'] [-> Hin]].
    apply list_elem_of_filter in Hin as [_ Hin].
    apply list_elem_of_fmap. by exists (k', v').
Qed.

Lemma get_filter (P : string * V -> Prop) `{!forall x, Decision (P x)} m k :
  NoDup (JsMap.keys m) ->
  JsMap.get k (filter P m)
  = match JsMap.get k m with
    | Some v => if decide (P (k, v)) then Some v else None
    | None => None
    end.
Proof.
  unfold JsMap.keys. induction m as [|[k0 v0] m IH]; simpl; [done|].
  rewrite NoDup_cons. intros [Hk Hnd]. rewrite filter_cons.
  destruct (decide (k0 = k)) as [->|Hne].
  - destruct (decide (P (k, v0))); simpl.
    + by rewrite decide_True.
    + apply get_None_keys. unfold JsMap.keys. intros Hin. apply Hk.
      apply list_elem_of_fmap in Hin as [[k' v'] [-> Hin]].
      apply list_elem_of_filter in Hin as [_ Hin].
      apply list_elem_of_fmap. by exists (k', v').
  - destruct (decide (P (k0, v0))); simpl; [rewrite decide_False by done|]; auto.
Qed.
Lemma keys_set_present m k v v' :
  JsMap.get k m = Some v' -> JsMap.keys (JsMap.set k v m) = JsMap.keys m.
Proof.
  unfold JsMap.keys. induction m as [|[k0 v0] m IH]; simpl; [done|].
  destruct (decide (k0 = k)); simpl; [done|]. intros H. f_equal. auto.
Qed.

Lemma NoDup_set m k v :
  NoDup (JsMap.keys m) -> NoDup (JsMap.keys (JsMap.set k v m)).
Proof.
  intros Hnd. destruct (JsMap.get k m) as [v'|] eqn:Hk.
  - by erewrite keys_set_present.
  - rewrite keys_set_absent by done.
    apply NoDup_app. split_and!; [done| |apply NoDup_singleton].
    intros x Hx Hx'. apply list_elem_of_singleton in Hx' as ->.
    by apply get_None_keys in Hk.
Qed.

Lemma Forall_delete (P : string * V -> Prop) m k :
  Forall P m -> Forall P (JsMap.delete k m).
Proof.
  intros Hall. apply Forall_forall. intros x Hx.
  eapply Forall_forall; [exact Hall|].
  eapply sublist_subseteq; [apply delete_sublist | done].
Qed.

Lemma Forall_set (P : string * V -> Prop) m k v :
  Forall P m -> P (k, v) -> Forall P (JsMap.set k v m).
Proof.
  intros Hall Hkv. induction m as [|[k0 v0] m IH]; simpl.
  - by repeat constructor.
  - apply Forall_cons in Hall as [H0 Hall].
    destruct (decide (k0 = k)) as [->|Hne]; constructor; auto.
Qed.

Lemma not_elem_delete m k v :
  NoDup (JsMap.keys m) -> (k, v) ∉ JsMap.delete k m.
Proof.
  intros Hnd Hin. apply (elem_get_Some _ _ _ (NoDup_delete m k Hnd)) in Hin.
  by rewrite get_delete_eq in Hin.
Qed.
End Facts.
End JsMapFacts.

(* ===================================================================== *)
(** * LRUCache: properties *)
(* ===================================================================== *)

Module LRUCacheSpec.
Import LRUCache LRUCacheDefs.

Lemma Q_ratio_bounds (h t : Z) :
  0 <= h -> h <= t -> 0 < t ->
  (0 <= inject_Z h / inject_Z t /\ inject_Z h / inject_Z t <= 1)%Q.
Proof.
  intros Hh Hht Ht.
  assert (Ht' : (0 < inject_Z t)%Q)
    by (change 0%Q with (inject_Z 0); by rewrite <- Zlt_Qlt).
  assert (Hh' : (0 <= inject_Z h)%Q)
    by (change 0%Q with (inject_Z 0); by rewrite <- Zle_Qle).
  assert (Hht' : (inject_Z h <= inject_Z t)%Q) by (by rewrite <- Zle_Qle).
  split.
  - apply Qle_shift_div_l; [done|]. lra.
  - apply Qle_shift_div_r; [done|]. lra.
Qed.

Lemma Math_round_bounds (x : Q) :
  (0 <= x -> x <= 10000 -> 0 <= inject_Z (Math_round x) / 100 <= 100)%Q.
Proof.
  intros H0 H1. unfold Math_round.
  assert (0 <= Qfloor (x + (1#2)) <= 10000) as [Ha Hb].
  { split.
    - change 0 with (Qfloor 0). apply Qfloor_resp_le. lra.
    - change 10000 with (Qfloor (10000 + (1#2))). apply Qfloor_resp_le. lra. }
  rewrite Zle_Qle in Ha, Hb.
  change (inject_Z 0) with 0%Q in Ha.
  change (inject_Z 10000) with 10000%Q in Hb.
  split.
  - apply Qle_shift_div_l; [reflexivity|]. lra.
  - apply Qle_shift_div_r; [reflexivity|]. lra.
Qed.

(** Case analysis on a timed operation; the operation's own function stays
    folded. *)
Ltac op_cases x now k v :=
  destruct x as [now [k|k v|k| | |]]; unfold exec; cbn [fst snd].

Section WithValue.
Context {T : Type}.
Implicit Types (c : t T) (e : CacheEntry T) (k key : string) (now : Z).

Lemma isExpired_spec c now e :
  isExpired c now e = true <-> timestamp e + ttl c < now.
Proof. unfold isExpired. rewrite Z.gtb_ltb, Z.ltb_lt. lia. Qed.


Lemma get_result c now k :
  (get c now k).1
  = match JsMap.get k (cache c) with
    | Some e => if isExpired c now e then None else Some (value e)
    | None => None
    end.
Proof.
  unfold get. destruct (JsMap.get k (cache c)) as [e|]; [|done].
  by destruct (isExpired c now e).
Qed.

Lemma has_result c now k :
  (has c now k).1
  = match JsMap.get k (cache c) with
    | Some e => negb (isExpired c now e)
    | None => false
    end.
Proof.
  unfold has. destruct (JsMap.get k (cache c)) as [e|]; [|done].
  by destruct (isExpired c now e).
Qed.

Lemma sweep_filter c now :
  NoDup (JsMap.keys (cache c)) ->
  cache (cleanupStaleEntries c now)
  = filter (fun p => ¬ (now - timestamp p.2 > ttl c)) (cache c).
Proof.
  intros Hnd. unfold cleanupStaleEntries, keysToDelete. simpl.
  by rewrite (JsMapFacts.foldl_delete_filter
                (fun p => now - timestamp p.2 > ttl c)).
Qed.

(** ** Keys are never duplicated *)

Lemma NoDup_set_fresh (m : list (string * CacheEntry T)) k e :
  NoDup (JsMap.keys m) -> JsMap.get k m = None ->
  NoDup (JsMap.keys (JsMap.set k e m)).
Proof.
  intros Hnd Hk. rewrite JsMapFacts.keys_set_absent by done.
  apply NoDup_app. split_and!; [done| |apply NoDup_singleton].
  intros x Hx Hx'. apply list_elem_of_singleton in Hx' as ->.
  by apply JsMapFacts.get_None_keys in Hk.
Qed.

Lemma NoDup_reinsert (m : list (string * CacheEntry T)) k e :
  NoDup (JsMap.keys m) ->
  NoDup (JsMap.keys (JsMap.set k e (JsMap.delete k m))).
Proof.
  intros Hnd. apply NoDup_set_fresh.
  - by apply JsMapFacts.NoDup_delete.
  - by apply JsMapFacts.get_delete_eq.
Qed.

Lemma NoDup_exec c x :
  NoDup (JsMap.keys (cache c)) -> NoDup (JsMap.keys (cache (exec c x))).
Proof.
  intros Hnd. op_cases x now k v.
  - unfold get. destruct (JsMap.get k (cache c)) as [e|]; [|done].
    destruct (isExpired c now e); simpl.
    + by apply JsMapFacts.NoDup_delete.
    + by apply NoDup_reinsert.
  - unfold set. destruct (JsMap.has k (cache c)) eqn:Hhas; simpl.
    + by apply NoDup_reinsert.
    + apply JsMapFacts.has_false in Hhas.
      destruct (JsMap.size (cache c) >=? capacity c);
        [destruct (JsMap.first_key (cache c)) as [fk|] eqn:Hfk;
         [destruct (truthy fk)|]|]; simpl;
        try (by apply NoDup_set_fresh).
      apply NoDup_set_fresh; [by apply JsMapFacts.NoDup_delete|].
      destruct (decide (fk = k)) as [->|Hne].
      * by apply JsMapFacts.get_delete_eq.
      * by rewrite JsMapFacts.get_delete_ne.
  - unfold has. destruct (JsMap.get k (cache c)) as [e|]; [|done].
    destruct (isExpired c now e); simpl; [|done].
    by apply JsMapFacts.NoDup_delete.
  - apply NoDup_nil_2.
  - done.
  - rewrite sweep_filter by done. unfold JsMap.keys.
    eapply sublist_NoDup; [exact Hnd|].
    apply fmap_sublist, sublist_filter.
Qed.

Lemma NoDup_run c xs :
  NoDup (JsMap.keys (cache c)) -> NoDup (JsMap.keys (cache (run c xs))).
Proof.
  revert c. induction xs as [|x xs IH]; intros c Hnd; simpl; [done|].
  apply IH. by apply NoDup_exec.
Qed.

(** ** The configuration never changes *)

Lemma config_exec c x :
  capacity (exec c x) = capacity c /\ ttl (exec c x) = ttl c.
Proof.
  op_cases x now k v; try done.
  - unfold get. destruct (JsMap.get k (cache c)) as [e|]; [|done].
    by destruct (isExpired c now e).
  - unfold set. destruct (JsMap.has k (cache c)); [done|].
    destruct (JsMap.size (cache c) >=? capacity c); [|done].
    destruct (JsMap.first_key (cache c)) as [fk|]; [|done].
    by destruct (truthy fk).
  - unfold has. destruct (JsMap.get k (cache c)) as [e|]; [|done].
    by destruct (isExpired c now e).
Qed.

Lemma config_run c xs :
  capacity (run c xs) = capacity c /\ ttl (run c xs) = ttl c.
Proof.
  revert c. induction xs as [|x xs IH]; intros c; simpl; [done|].
  destruct (IH (exec c x)) as [-> ->]. apply config_exec.
Qed.

(** ** The counters are natural numbers *)

Lemma counters_exec c x : counters_ok (stats c) -> counters_ok (stats (exec c x)).
Proof.
  unfold counters_ok. intros Hok.
  op_cases x now k v; try done.
  - unfold get. destruct (JsMap.get k (cache c)) as [e|]; [|simpl; lia].
    destruct (isExpired c now e); simpl; lia.
  - unfold set. destruct (JsMap.has k (cache c)); [done|].
    destruct (JsMap.size (cache c) >=? capacity c); [|done].
    destruct (JsMap.first_key (cache c)) as [fk|]; [|done].
    destruct (truthy fk); simpl; [lia|done].
  - unfold has. destruct (JsMap.get k (cache c)) as [e|]; [|done].
    by destruct (isExpired c now e).
Qed.

Lemma counters_run c xs : counters_ok (stats c) -> counters_ok (stats (run c xs)).
Proof.
  revert c. induction xs as [|x xs IH]; intros c Hok; simpl; [done|].
  apply IH. by apply counters_exec.
Qed.

(** ** [has] against [get] *)

(** C8.  [has(key)] answers by the expiry test of [get] (it is true
    exactly when [get] returns a value) and deletes an expired entry as
    [get] does; it leaves the three counters as they were; and the store
    it leaves is the old one, or the old one without [key], so every
    other entry keeps its value, its [lastAccessed] and its place in the
    eviction order, and a live [key] keeps them too. *)
Theorem has_probes_like_get c now k :
  ((has c now k).1 = true <-> is_Some (get c now k).1)
  /\ stats (has c now k).2 = stats c
  /\ cache (has c now k).2
     = (if (has c now k).1 then cache c else JsMap.delete k (cache c))
  /\ ((has c now k).1 = false ->
      cache (has c now k).2 = cache (get c now k).2)
  /\ cache (has c now k).2 `sublist_of` cache c
  /\ filter (fun p => p.1 ≠ k) (cache (has c now k).2)
     = filter (fun p => p.1 ≠ k) (cache c).
Proof.
  assert (Hdel : forall m : list (string * CacheEntry T),
             filter (fun p => p.1 ≠ k) (JsMap.delete k m)
             = filter (fun p => p.1 ≠ k) m).
  { induction m as [|[k0 e0] m IH]; simpl; [done|].
    destruct (decide (k0 = k)) as [->|Hne].
    - rewrite filter_cons. simpl. by rewrite decide_False by tauto.
    - rewrite !filter_cons. simpl. rewrite !decide_True by done.
      by rewrite IH. }
  unfold has, get. destruct (JsMap.get k (cache c)) as [e|] eqn:Hget.
  - destruct (isExpired c now e); simpl.
    + split_and!; try done. apply JsMapFacts.delete_sublist.
    + split_and!; done.
  - simpl. rewrite JsMapFacts.delete_absent by done.
    split_and!; done.
Qed.

(** ** Statistics *)

(** C7.  After any sequence of operations on a new cache, [getStats()]
    reports [hits + misses = totalRequests], a hit rate between 0 and 100
    that is 0 when there was no request; and [clear()] leaves the
    counters [hits], [misses] and [evictions] as they were. *)
Theorem stats_invariant (cap ttlSeconds : Z) (xs : list (Z * op T)) :
  let c := run (constructor cap ttlSeconds) xs in
  let s := getStats c in
  s_hits s + s_misses s = s_totalRequests s
  /\ (0 <= s_hitRate s)%Q
  /\ (s_hitRate s <= 100)%Q
  /\ (s_totalRequests s = 0 -> (s_hitRate s == 0)%Q)
  /\ stats (clear c) = stats c.
Proof.
  intros c s.
  assert (Hok : counters_ok (stats c)).
  { apply counters_run. unfold counters_ok. simpl. lia. }
  destruct Hok as (Hh & Hm & _).
  assert (Hrate :
    (0 <= (if (hits (stats c) + misses (stats c) >? 0)%Z
           then inject_Z (hits (stats c))
                / inject_Z (hits (stats c) + misses (stats c)) * 100
           else 0) * 100 <= 10000)%Q).
  { destruct (Z.gtb_spec (hits (stats c) + misses (stats c)) 0) as [Hpos|Hz].
    - destruct (Q_ratio_bounds (hits (stats c))
                  (hits (stats c) + misses (stats c))) as [Ha Hb]; [lia..|].
      split; nra.
    - split; lra. }
  subst s. unfold getStats. simpl. split_and!.
  - done.
  - apply Math_round_bounds; apply Hrate.
  - apply Math_round_bounds; apply Hrate.
  - intros Hz. rewrite Hz. simpl. reflexivity.
  - done.
Qed.

(** ** Expiry *)

Lemma get_after_set c t0 k (v : T) :
  JsMap.get k (cache (set c t0 k v)) = Some (mkEntry v t0 t0).
Proof. unfold set. simpl. apply JsMapFacts.get_set_eq. Qed.



(** ** Capacity and eviction order *)

Lemma Forall_sublist {A} (P : A -> Prop) (l1 l2 : list A) :
  l1 `sublist_of` l2 -> Forall P l2 -> Forall P l1.
Proof.
  intros Hsub Hall. apply Forall_forall. intros x Hx.
  eapply Forall_forall; [exact Hall|]. by eapply sublist_subseteq.
Qed.

Lemma StronglySorted_sublist {A} (R : relation A) (l1 l2 : list A) :
  l1 `sublist_of` l2 -> StronglySorted R l2 -> StronglySorted R l1.
Proof.
  induction 1 as [|x l1 l2 Hsub IH|x l1 l2 Hsub IH]; intros Hs.
  - constructor.
  - apply StronglySorted_inv in Hs as [Hs Hall]. constructor; [auto|].
    by eapply Forall_sublist.
  - apply StronglySorted_inv in Hs as [Hs _]. auto.
Qed.

Lemma recency_sublist (m' m : list (string * CacheEntry T)) tl now :
  m' `sublist_of` m -> tl <= now -> recency_ok m tl -> recency_ok m' now.
Proof.
  intros Hsub Hle [Hs Hall].
  assert (Hages : ages m' `sublist_of` ages m) by by apply fmap_sublist.
  split.
  - by eapply StronglySorted_sublist.
  - eapply Forall_impl; [by eapply Forall_sublist|]. simpl. lia.
Qed.

Lemma recency_snoc (m : list (string * CacheEntry T)) k e now :
  recency_ok m now -> lastAccessed e = now -> recency_ok (m ++ [(k, e)]) now.
Proof.
  intros [Hs Hall] He. unfold recency_ok, ages. rewrite fmap_app. simpl.
  split.
  - apply StronglySorted_app_2; [|exact Hs|repeat constructor].
    intros a b Ha Hb. apply list_elem_of_singleton in Hb as ->.
    rewrite He. by eapply Forall_forall in Hall.
  - apply Forall_app. split; [done|]. constructor; [lia|constructor].
Qed.

Lemma length_reinsert (m : list (string * CacheEntry T)) k e e' :
  NoDup (JsMap.keys m) -> JsMap.get k m = Some e ->
  length (JsMap.set k e' (JsMap.delete k m)) = length m.
Proof.
  intros Hnd Hk. rewrite JsMapFacts.set_absent
    by by apply JsMapFacts.get_delete_eq.
  rewrite length_app. simpl. rewrite <- (JsMapFacts.length_delete m k e Hk).
  lia.
Qed.

Lemma keys_reinsert_ok (m : list (string * CacheEntry T)) k e' :
  NoDup (JsMap.keys m) -> truthy k = true ->
  Forall (fun k => truthy k = true) (JsMap.keys m) ->
  Forall (fun k => truthy k = true)
         (JsMap.keys (JsMap.set k e' (JsMap.delete k m))).
Proof.
  intros Hnd Hk Hall. rewrite JsMapFacts.keys_set_absent
    by by apply JsMapFacts.get_delete_eq.
  apply Forall_app. split; [|by repeat constructor].
  eapply Forall_sublist; [apply JsMapFacts.keys_delete_sublist | done].
Qed.

Lemma truthy_of_get (m : list (string * CacheEntry T)) k e :
  Forall (fun k => truthy k = true) (JsMap.keys m) ->
  JsMap.get k m = Some e -> truthy k = true.
Proof.
  intros Hall Hk. eapply Forall_forall in Hall; [exact Hall|].
  apply JsMapFacts.get_Some_elem in Hk.
  apply list_elem_of_fmap. by exists (k, e).
Qed.

Lemma store_ok_exec c x :
  1 <= capacity c -> set_keys_ok x -> store_ok c -> store_ok (exec c x).
Proof.
  intros Hcap Hx [Hnd Hkeys Hsize].
  pose proof (NoDup_exec c x Hnd) as Hnd'.
  destruct (config_exec c x) as [Hc _].
  split; [done| |]; rewrite ?Hc; clear Hnd' Hc;
    op_cases x now k v;
    unfold set_keys_ok in Hx; cbn [fst snd] in Hx.
  - (* keys, get *)
    unfold get. destruct (JsMap.get k (cache c)) as [e|] eqn:Hk; [|done].
    destruct (isExpired c now e); simpl.
    + eapply Forall_sublist; [apply JsMapFacts.keys_delete_sublist | done].
    + apply keys_reinsert_ok; [done| |done]. by eapply truthy_of_get.
  - (* keys, set *)
    unfold set. destruct (JsMap.has k (cache c)) eqn:Hhas; simpl.
    + by apply keys_reinsert_ok.
    + apply JsMapFacts.has_false in Hhas.
      destruct (JsMap.size (cache c) >=? capacity c);
        [destruct (JsMap.first_key (cache c)) as [fk|] eqn:Hfk;
         [destruct (truthy fk)|]|]; simpl.
      * rewrite JsMapFacts.keys_set_absent.
        -- apply Forall_app. split; [|by repeat constructor].
           eapply Forall_sublist;
             [apply JsMapFacts.keys_delete_sublist | done].
        -- destruct (decide (fk = k)) as [->|Hne].
           ++ by apply JsMapFacts.get_delete_eq.
           ++ by rewrite JsMapFacts.get_delete_ne.
      * rewrite JsMapFacts.keys_set_absent by done.
        apply Forall_app. split; [done | by repeat constructor].
      * rewrite JsMapFacts.keys_set_absent by done.
        apply Forall_app. split; [done | by repeat constructor].
      * rewrite JsMapFacts.keys_set_absent by done.
        apply Forall_app. split; [done | by repeat constructor].
  - (* keys, has *)
    unfold has. destruct (JsMap.get k (cache c)) as [e|]; [|done].
    destruct (isExpired c now e); simpl; [|done].
    eapply Forall_sublist; [apply JsMapFacts.keys_delete_sublist | done].
  - constructor.
  - done.
  - rewrite sweep_filter by done. eapply Forall_sublist; [|exact Hkeys].
    apply fmap_sublist, sublist_filter.
  - (* size, get *)
    unfold get. destruct (JsMap.get k (cache c)) as [e|] eqn:Hk; [|done].
    destruct (isExpired c now e); simpl; unfold JsMap.size in *.
    + pose proof (JsMapFacts.length_delete _ _ _ Hk). lia.
    + by erewrite length_reinsert.
  - (* size, set *)
    unfold set. destruct (JsMap.has k (cache c)) eqn:Hhas; simpl.
    + unfold JsMap.has in Hhas.
      destruct (JsMap.get k (cache c)) as [e|] eqn:Hk; [|done].
      unfold JsMap.size in *. by erewrite length_reinsert.
    + apply JsMapFacts.has_false in Hhas.
      destruct (Z.geb_spec (JsMap.size (cache c)) (capacity c)) as [Hfull|Hroom].
      * destruct (JsMap.first_key (cache c)) as [fk|] eqn:Hfk.
        -- destruct (JsMapFacts.first_key_get _ _ Hfk) as [e0 Hfk'].
           rewrite (truthy_of_get _ _ _ Hkeys Hfk'). simpl.
           rewrite JsMapFacts.set_absent.
           ++ unfold JsMap.size in *. rewrite length_app. simpl.
              pose proof (JsMapFacts.length_delete _ _ _ Hfk'). lia.
           ++ destruct (decide (fk = k)) as [->|Hne].
              ** by apply JsMapFacts.get_delete_eq.
              ** by rewrite JsMapFacts.get_delete_ne.
        -- destruct (cache c) as [|[? ?] ?]; [|done].
           unfold JsMap.size in Hfull. simpl in Hfull. lia.
      * simpl. rewrite JsMapFacts.set_absent by done.
        unfold JsMap.size in *. rewrite length_app. simpl. lia.
  - (* size, has *)
    unfold has. destruct (JsMap.get k (cache c)) as [e|] eqn:Hk; [|done].
    destruct (isExpired c now e); simpl; [|done]. unfold JsMap.size in *.
    pose proof (JsMapFacts.length_delete _ _ _ Hk). lia.
  - simpl. unfold JsMap.size in *. simpl. lia.
  - done.
  - rewrite sweep_filter by done. unfold JsMap.size in *.
    pose proof (sublist_length _ _
      (sublist_filter (fun p => ¬ (now - timestamp p.2 > ttl c)) (cache c))).
    lia.
Qed.

Lemma store_ok_run xs c :
  1 <= capacity c -> Forall set_keys_ok xs -> store_ok c ->
  store_ok (run c xs).
Proof.
  revert c. induction xs as [|x xs IH]; intros c Hcap Hxs Hok; simpl; [done|].
  apply Forall_cons in Hxs as [Hx Hxs]. apply IH; [|done|].
  - by destruct (config_exec c x) as [-> _].
  - by apply store_ok_exec.
Qed.

Lemma recency_exec c now (o : op T) tl :
  NoDup (JsMap.keys (cache c)) -> tl <= now ->
  recency_ok (cache c) tl -> recency_ok (cache (exec c (now, o))) now.
Proof.
  intros Hnd Hle Hrec.
  assert (Hsame : recency_ok (cache c) now)
    by by eapply recency_sublist.
  assert (Hdel : forall k, recency_ok (JsMap.delete k (cache c)) now)
    by (intros k; eapply recency_sublist;
        [apply JsMapFacts.delete_sublist | done..]).
  destruct o as [k|k v|k| | |]; unfold exec; cbn [fst snd].
  - unfold get. destruct (JsMap.get k (cache c)) as [e|] eqn:Hk; [|done].
    destruct (isExpired c now e); simpl; [done|].
    rewrite JsMapFacts.set_absent by by apply JsMapFacts.get_delete_eq.
    by apply recency_snoc.
  - unfold set. destruct (JsMap.has k (cache c)) eqn:Hhas; simpl.
    + rewrite JsMapFacts.set_absent by by apply JsMapFacts.get_delete_eq.
      by apply recency_snoc.
    + apply JsMapFacts.has_false in Hhas.
      destruct (JsMap.size (cache c) >=? capacity c);
        [destruct (JsMap.first_key (cache c)) as [fk|] eqn:Hfk;
         [destruct (truthy fk)|]|]; simpl;
        try (rewrite JsMapFacts.set_absent by done; by apply recency_snoc).
      rewrite JsMapFacts.set_absent; [by apply recency_snoc|].
      destruct (decide (fk = k)) as [->|Hne].
      * by apply JsMapFacts.get_delete_eq.
      * by rewrite JsMapFacts.get_delete_ne.
  - unfold has. destruct (JsMap.get k (cache c)) as [e|]; [|done].
    destruct (isExpired c now e); simpl; [apply Hdel | done].
  - split; constructor.
  - done.
  - rewrite sweep_filter by done.
    eapply recency_sublist; [apply sublist_filter | done..].
Qed.

Lemma recency_run xs c tl :
  NoDup (JsMap.keys (cache c)) -> recency_ok (cache c) tl ->
  StronglySorted Z.le (tl :: xs.*1) ->
  StronglySorted Z.le (ages (cache (run c xs))).
Proof.
  revert c tl. induction xs as [|[now o] xs IH]; intros c tl Hnd Hrec Hs; simpl.
  - apply Hrec.
  - simpl in Hs. apply StronglySorted_inv in Hs as [Hs Hall].
    apply Forall_cons in Hall as [Hle _].
    apply (IH _ now); [by apply NoDup_exec| |done].
    by eapply recency_exec.
Qed.

Lemma sorted_reachable (cap ttlSeconds : Z) (xs : list (Z * op T)) :
  StronglySorted Z.le xs.*1 ->
  StronglySorted Z.le (ages (cache (run (constructor cap ttlSeconds) xs))).
Proof.
  intros Hs. destruct xs as [|x xs]; [constructor|].
  apply (recency_run (x :: xs) _ x.1).
  - apply NoDup_nil_2.
  - split; constructor.
  - simpl in *. constructor; [done|].
    apply StronglySorted_inv in Hs as [_ Hall]. constructor; [lia | done].
Qed.

(** ** Order of use *)

Lemma last_use_snoc c xs x k :
  last_use c (xs ++ [x]) k
  = if touches (run c xs) x k then Some (length xs) else last_use c xs k.
Proof.
  revert c. induction xs as [|x0 xs IH]; intros c; simpl.
  - by destruct (touches c x k).
  - rewrite IH. destruct (touches (run (exec c x0) xs) x k); [done|].
    done.
Qed.

Lemma run_snoc c xs x : run c (xs ++ [x]) = exec (run c xs) x.
Proof. unfold run. by rewrite foldl_app. Qed.

(** What an operation does to the order of the keys: it removes some, or
    it removes some and puts the key it uses last. *)
Lemma keys_exec c x :
  NoDup (JsMap.keys (cache c)) ->
  (JsMap.keys (cache (exec c x)) `sublist_of` JsMap.keys (cache c)
   /\ forall k, touches c x k = false)
  \/ (exists k ks,
        JsMap.keys (cache (exec c x)) = ks ++ [k]
        /\ ks `sublist_of` JsMap.keys (cache c)
        /\ (k ∉ ks)
        /\ forall k', touches c x k' = bool_decide (k' = k)).
Proof.
  intros Hnd.
  assert (Hre : forall k e',
    JsMap.keys (JsMap.set k e' (JsMap.delete k (cache c)))
    = JsMap.keys (JsMap.delete k (cache c)) ++ [k]
    /\ k ∉ JsMap.keys (JsMap.delete k (cache c))).
  { intros k e'. pose proof (JsMapFacts.get_delete_eq (cache c) k Hnd) as Hd.
    split; [by apply JsMapFacts.keys_set_absent|].
    by apply JsMapFacts.get_None_keys. }
  destruct x as [now [k|k v|k| | |]]; unfold exec, touches; cbn [fst snd].
  - rewrite get_result. unfold get.
    destruct (JsMap.get k (cache c)) as [e|] eqn:Hk.
    + destruct (isExpired c now e); simpl.
      * left. split; [apply JsMapFacts.keys_delete_sublist|].
        intros k'. by rewrite andb_false_r.
      * right. destruct (Hre k (mkEntry (value e) (timestamp e) now)) as [-> Hni].
        exists k, (JsMap.keys (JsMap.delete k (cache c))).
        split_and!; [done|apply JsMapFacts.keys_delete_sublist|done|].
        intros k'. by destruct (bool_decide (k' = k)).
    + left. split; [done|]. intros k'. by rewrite andb_false_r.
  - right. unfold set. destruct (JsMap.has k (cache c)) eqn:Hhas; simpl.
    + destruct (Hre k (mkEntry v now now)) as [-> Hni].
      exists k, (JsMap.keys (JsMap.delete k (cache c))).
      split_and!; [done|apply JsMapFacts.keys_delete_sublist|done|done].
    + apply JsMapFacts.has_false in Hhas.
      assert (Hnk : k ∉ JsMap.keys (cache c)) by by apply JsMapFacts.get_None_keys.
      destruct (JsMap.size (cache c) >=? capacity c);
        [destruct (JsMap.first_key (cache c)) as [fk|] eqn:Hfk;
           [destruct (truthy fk)|]|]; simpl.
      * assert (Hg : JsMap.get k (JsMap.delete fk (cache c)) = None).
        { destruct (decide (fk = k)) as [->|Hne].
          - by apply JsMapFacts.get_delete_eq.
          - by rewrite JsMapFacts.get_delete_ne. }
        rewrite JsMapFacts.keys_set_absent by done.
        exists k, (JsMap.keys (JsMap.delete fk (cache c))).
        split_and!; [done|apply JsMapFacts.keys_delete_sublist| |done].
        by apply JsMapFacts.get_None_keys.
      * rewrite JsMapFacts.keys_set_absent by done. by exists k, (JsMap.keys (cache c)).
      * rewrite JsMapFacts.keys_set_absent by done. by exists k, (JsMap.keys (cache c)).
      * rewrite JsMapFacts.keys_set_absent by done. by exists k, (JsMap.keys (cache c)).
  - left. split; [|done]. unfold has.
    destruct (JsMap.get k (cache c)) as [e|]; [|done].
    destruct (isExpired c now e); simpl; [|done].
    apply JsMapFacts.keys_delete_sublist.
  - left. split; [|done]. apply sublist_nil_l.
  - left. by split.
  - left. split; [|done]. rewrite sweep_filter by done.
    apply fmap_sublist, sublist_filter.
Qed.

Lemma use_order_snoc c0 xs x :
  NoDup (JsMap.keys (cache (run c0 xs))) ->
  use_order_ok c0 xs -> use_order_ok c0 (xs ++ [x]).
Proof.
  intros Hnd [Hs Hb]. unfold use_order_ok, ranks in *.
  rewrite run_snoc, length_app. simpl.
  assert (Hbound : forall l, l `sublist_of` JsMap.keys (cache (run c0 xs)) ->
    Forall (fun a => exists i, a = Some i /\ (i < length xs + 1)%nat)
           ((fun k => last_use c0 xs k) <$> l)).
  { intros l Hl. eapply Forall_impl.
    - eapply Forall_sublist; [by apply fmap_sublist | exact Hb].
    - simpl. intros a (i & -> & Hi). exists i. split; [done | lia]. }
  destruct (keys_exec (run c0 xs) x Hnd) as [[Hsub Hno]|(k & ks & Hk & Hsub & Hni & Ht)].
  - assert (Heq : (fun k => last_use c0 (xs ++ [x]) k)
                    <$> JsMap.keys (cache (exec (run c0 xs) x))
                  = (fun k => last_use c0 xs k)
                    <$> JsMap.keys (cache (exec (run c0 xs) x))).
    { apply list_fmap_ext. intros _ k _. by rewrite last_use_snoc, Hno. }
    rewrite Heq. split; [|by apply Hbound].
    eapply StronglySorted_sublist; [by apply fmap_sublist | exact Hs].
  - rewrite Hk, fmap_app. simpl.
    assert (Heq : (fun k => last_use c0 (xs ++ [x]) k) <$> ks
                  = (fun k => last_use c0 xs k) <$> ks).
    { apply list_fmap_ext. intros i k' Hi. rewrite last_use_snoc, Ht.
      rewrite bool_decide_eq_false_2; [done|].
      intros ->. apply Hni. by eapply list_elem_of_lookup_2. }
    rewrite Heq, last_use_snoc, Ht, bool_decide_eq_true_2 by done.
    pose proof (Hbound ks Hsub) as Hbks.
    split.
    + apply StronglySorted_app_2.
      * intros a b Ha Hb'. apply list_elem_of_singleton in Hb' as ->.
        assert (Hold : a ∈ (fun k => last_use c0 xs k)
                          <$> JsMap.keys (cache (run c0 xs))).
        { eapply sublist_subseteq; [|exact Ha]. by apply fmap_sublist. }
        eapply Forall_forall in Hb; [|exact Hold].
        destruct Hb as (i & -> & Hi). by exists i, (length xs).
      * eapply StronglySorted_sublist; [by apply fmap_sublist | exact Hs].
      * repeat constructor.
    + apply Forall_app. split; [done|].
      repeat constructor. exists (length xs). split; [done | lia].
Qed.

Lemma use_order_reachable (cap ttlSeconds : Z) (xs : list (Z * op T)) :
  use_order_ok (constructor cap ttlSeconds) xs.
Proof.
  induction xs as [|x xs IH] using rev_ind.
  - split; constructor.
  - apply use_order_snoc; [|done]. apply NoDup_run, NoDup_nil_2.
Qed.
(** C4 (amended).  For a capacity of at least 1 and keys other than the
    empty string: after every operation, so after every [set], the cache
    holds at most [capacity] entries; and a [set] of an absent key into a
    full cache removes exactly one entry, the least recently used one
    (every other entry was written or read with a hit after the last such
    use of the removed one; and, if the clock never went back, no entry
    has an earlier [lastAccessed]), counts one eviction and leaves the
    cache full. *)
Theorem set_keeps_capacity_evicts_lru (cap ttlSeconds : Z) (xs : list (Z * op T)) :
  1 <= cap -> Forall set_keys_ok xs ->
  let c0 := constructor cap ttlSeconds in
  let c := run c0 xs in
  size c <= capacity c
  /\ forall now k v,
      JsMap.has k (cache c) = false -> size c = capacity c ->
      exists k0 e0 j0,
        JsMap.get k0 (cache c) = Some e0
        /\ last_use c0 xs k0 = Some j0
        /\ (forall k' e', k' ≠ k0 -> JsMap.get k' (cache c) = Some e' ->
               exists j', last_use c0 xs k' = Some j' /\ (j0 < j')%nat)
        /\ (StronglySorted Z.le xs.*1 ->
            forall k' e', JsMap.get k' (cache c) = Some e' ->
                          lastAccessed e0 <= lastAccessed e')
        /\ cache (set c now k v)
           = JsMap.delete k0 (cache c) ++ [(k, mkEntry v now now)]
        /\ stats (set c now k v) = evicted (stats c)
        /\ size (set c now k v) = capacity c.
Proof.
  intros Hcap Hkeys c0 c.
  assert (Hok : store_ok c).
  { apply store_ok_run; [done..|].
    split; simpl; [apply NoDup_nil_2 | constructor | unfold JsMap.size; simpl; lia]. }
  pose proof (use_order_reachable cap ttlSeconds xs) as [Huse Hused].
  fold c0 in Huse, Hused. unfold ranks in Huse, Hused. fold c in Huse, Hused.
  assert (Hsorted : StronglySorted Z.le xs.*1 ->
                    StronglySorted Z.le (ages (cache c)))
    by apply sorted_reachable.
  assert (Hc : capacity c = cap) by apply config_run.
  destruct Hok as [Hnd Hne Hsize]. split; [done|].
  intros now k v Habs Hfull. unfold size in *.
  destruct (cache c) as [|[k0 e0] rest] eqn:Hcache.
  { unfold JsMap.size in Hfull. simpl in Hfull. lia. }
  simpl in Huse, Hused.
  apply StronglySorted_inv in Huse as [_ Hlater].
  apply Forall_cons in Hused as [(j0 & Hj0 & _) _].
  exists k0, e0, j0.
  apply JsMapFacts.has_false in Habs.
  assert (Hk0 : truthy k0 = true) by by apply Forall_cons in Hne as [? _].
  assert (Hkk : k0 <> k).
  { intros ->. simpl in Habs. by rewrite decide_True in Habs. }
  assert (Hrest : JsMap.get k rest = None).
  { simpl in Habs. by rewrite decide_False in Habs. }
  assert (Hset : set c now k v
                 = with_cache (with_stats c (evicted (stats c)))
                              (rest ++ [(k, mkEntry v now now)])).
  { unfold set. rewrite Hcache.
    assert (JsMap.has k ((k0, e0) :: rest) = false) as ->
      by by apply JsMapFacts.has_false.
    assert ((JsMap.size ((k0, e0) :: rest) >=? capacity c) = true) as ->.
    { rewrite Z.geb_leb. apply Z.leb_le. lia. }
    simpl. rewrite Hk0. simpl. rewrite decide_True by done.
    by rewrite JsMapFacts.set_absent. }
  split_and!.
  - simpl. by rewrite decide_True.
  - done.
  - intros k' e' Hne' Hget. apply JsMapFacts.get_Some_elem in Hget.
    apply elem_of_cons in Hget as [[= -> ->]|Hin]; [done|].
    assert (Hin' : last_use c0 xs k' ∈ (fun k => last_use c0 xs k) <$> rest.*1).
    { apply list_elem_of_fmap. exists k'. split; [done|].
      apply list_elem_of_fmap. by exists (k', e'). }
    eapply Forall_forall in Hlater; [|exact Hin'].
    destruct Hlater as (i & j & Hi & Hj & Hij).
    exists j. split; [done|]. congruence.
  - intros Htimes k' e' Hget. apply JsMapFacts.get_Some_elem in Hget.
    specialize (Hsorted Htimes). simpl in Hsorted.
    apply StronglySorted_inv in Hsorted as [_ Hall].
    apply elem_of_cons in Hget as [[= -> ->]|Hin]; [lia|].
    eapply Forall_forall in Hall; [exact Hall|].
    apply list_elem_of_fmap. by exists (k', e').
  - rewrite Hset. simpl. by rewrite decide_True.
  - by rewrite Hset.
  - rewrite Hset, <- Hfull. simpl. unfold JsMap.size.
    rewrite length_app. simpl. lia.
Qed.
End WithValue.

(** ** The cache on concrete inputs *)

(** The scenario of the README: capacity 2, three writes, the oldest key is
    gone and the two newest are served. *)
Example scenario_evict :
  (get demo 3 "a").1 = None
  /\ (get demo 3 "b").1 = Some 2
  /\ (get demo 3 "c").1 = Some 3
  /\ s_evictions (getStats demo) = 1.
Proof. repeat split. Qed.

(** A read refreshes a key, so the other one is evicted. *)
Example scenario_get_refreshes :
  keys (run (constructor 2 1)
          [(0, OpSet "a" 1); (1, OpSet "b" 2); (2, OpGet "a"); (3, OpSet "c" 3)])
  = ["a"; "c"]%string.
Proof. reflexivity. Qed.



(** C4, as stated, fails in two ways.  With capacity 0 the first [set]
    finds the store "full" and empty, evicts nothing and stores the entry.
    With capacity 1 and the oldest key the empty string, the guard
    [if (firstKey)] takes the key for a missing one, so nothing is evicted
    and the store grows to two entries. *)
Lemma set_can_exceed_capacity :
  (let c := set (constructor 0 60) 0 "a" 1 in
   size c = 1 /\ capacity c = 0 /\ evictions (stats c) = 0)
  /\ (let c := set (set (constructor 1 60) 0 "" 1) 1 "a" 2 in
      size c = 2 /\ capacity c = 1 /\ evictions (stats c) = 0).
Proof. repeat split. Qed.

Lemma set_keeps_capacity_evicts_lru_witness :
  let xs := [(0, OpSet "a" 1); (1, OpSet "b" 2); (2, OpGet "a")] in
  let c0 := constructor 2 60 in
  let c := run c0 xs in
  size c <= capacity c
  /\ forall now k v,
      JsMap.has k (cache c) = false -> size c = capacity c ->
      exists k0 e0 j0,
        JsMap.get k0 (cache c) = Some e0
        /\ last_use c0 xs k0 = Some j0
        /\ (forall k' e', k' ≠ k0 -> JsMap.get k' (cache c) = Some e' ->
               exists j', last_use c0 xs k' = Some j' /\ (j0 < j')%nat)
        /\ (StronglySorted Z.le xs.*1 ->
            forall k' e', JsMap.get k' (cache c) = Some e' ->
                          lastAccessed e0 <= lastAccessed e')
        /\ cache (set c now k v)
           = JsMap.delete k0 (cache c) ++ [(k, mkEntry v now now)]
        /\ stats (set c now k v) = evicted (stats c)
        /\ size (set c now k v) = capacity c.
Proof.
  apply (set_keeps_capacity_evicts_lru 2 60
           [(0, OpSet "a" 1); (1, OpSet "b" 2); (2, OpGet "a")]).
  - lia.
  - repeat constructor.
Defined.

End LRUCacheSpec.

(* ===================================================================== *)
(** * RateLimiter: properties *)
(* ===================================================================== *)

Module RateLimiterSpec.
Import RateLimiter RateLimiterDefs.

Lemma store_store rl c b1 b2 : store (store rl c b1) c b2 = store rl c b2.
Proof. unfold store, with_buckets. simpl. by rewrite insert_insert_eq. Qed.

(** [allowRequest] is the refill followed by the decision. *)
Lemma allowRequest_consume rl now c :
  allowRequest rl now c
  = ((consume (refill rl now (bucket_of rl now c))).1,
     store rl c (consume (refill rl now (bucket_of rl now c))).2).
Proof.
  unfold allowRequest, bucket_of, refill, getBucket.
  destruct (buckets rl !! c) as [b|]; simpl.
  - unfold consume.
    destruct (burstTokens (refillBurstTokens rl now (refillTokens rl now b)) >? 0);
      [done|].
    by destruct (Qle_bool 1 (tokens (refillBurstTokens rl now (refillTokens rl now b)))).
  - set (b := {| tokens := maxTokens rl; lastRefill := now;
                 burstTokens := burstCapacity rl; lastBurstRefill := now |}).
    change (refillTokens (store rl c b) now b) with (refillTokens rl now b).
    change (refillBurstTokens (store rl c b) now (refillTokens rl now b))
      with (refillBurstTokens rl now (refillTokens rl now b)).
    unfold consume.
    destruct (burstTokens (refillBurstTokens rl now (refillTokens rl now b)) >? 0);
      [by rewrite store_store|].
    destruct (Qle_bool 1 (tokens (refillBurstTokens rl now (refillTokens rl now b))));
      by rewrite store_store.
Qed.

(** [getStatus] is the same refill followed by the report. *)
Lemma getStatus_refill rl now req :
  let b := refill rl now (bucket_of rl now (getClientId req)) in
  getStatus rl now req
  = ({| remaining := Qfloor (tokens b);
        burstRemaining := burstTokens b;
        resetIn := Qceiling ((maxTokens rl - tokens b) / refillRate rl)%Q |},
     store rl (getClientId req) b).
Proof.
  unfold getStatus, bucket_of, refill, getBucket.
  destruct (buckets rl !! getClientId req) as [b|]; simpl; [done|].
  by rewrite store_store.
Qed.

Lemma bucket_of_store rl now c b : bucket_of (store rl c b) now c = b.
Proof. unfold bucket_of, getBucket, store. simpl. by rewrite lookup_insert_eq. Qed.

(** ** Requests at one instant *)

(** A bucket whose two stamps are [now], seen at [now], is not refilled:
    no time has passed and the burst window is open. *)
Lemma refill_same_instant rl now b :
  lastRefill b = now -> lastBurstRefill b = now -> 0 < burstWindow rl ->
  refill rl now b
  = {| tokens := Qmin (maxTokens rl) (tokens b + inject_Z 0 * refillRate rl)%Q;
       lastRefill := now; burstTokens := burstTokens b;
       lastBurstRefill := now |}.
Proof.
  intros H1 H2 Hw. unfold refill, refillTokens, refillBurstTokens. simpl.
  rewrite H1, H2, Z.sub_diag.
  destruct (Z.geb_spec 0 (burstWindow rl)); [lia|done].
Qed.

Lemma allowRequest_instant (m : gmap string TokenBucket) now c s :
  allowRequest (store (with_buckets constructor m) c (stamped now s)) now c
  = ((instant s).1,
     store (with_buckets constructor m) c (stamped now (instant s).2)).
Proof.
  rewrite allowRequest_consume, bucket_of_store, store_store.
  rewrite refill_same_instant by done.
  unfold consume, instant, stamped. simpl.
  destruct (s.2 >? 0); [done|].
  by destruct (Qle_bool 1 (Qmin 10 (s.1 + inject_Z 0 * (10 / (60 * 1000))))).
Qed.

Lemma admitted_instants (m : gmap string TokenBucket) now c n s :
  (admitted (store (with_buckets constructor m) c (stamped now s)) now c n).1
  = (instants s n).1.
Proof.
  revert s. induction n as [|n IH]; intros s; simpl; [done|].
  rewrite allowRequest_instant.
  specialize (IH (instant s).2).
  destruct (instant s) as [a s1]. simpl in *.
  destruct (admitted _ now c n) as [l rl2].
  destruct (instants s1 n) as [l' s2]. simpl in *. by rewrite IH.
Qed.

(** Once both pools are empty, every request at that instant is refused. *)
Lemma instants_empty n (tk : Q) :
  (tk < 1)%Q -> (instants (tk, 0) n).1 = replicate n false.
Proof.
  revert tk. induction n as [|n IH]; intros tk Htk; simpl; [done|].
  unfold instant. simpl.
  assert (Hmin : (Qmin 10 (tk + inject_Z 0 * (10 / (60 * 1000))) < 1)%Q).
  { eapply Qle_lt_trans; [apply Q.le_min_r|].
    change (inject_Z 0) with 0%Q. lra. }
  destruct (Qle_bool 1 _) eqn:Hle.
  - apply Qle_bool_iff in Hle. lra.
  - specialize (IH _ Hmin).
    destruct (instants _ n) as [l s2]. simpl in *. by rewrite IH.
Qed.

Lemma instants_app s n1 n2 :
  (instants s (n1 + n2)).1
  = (instants s n1).1 ++ (instants (instants s n1).2 n2).1.
Proof.
  revert s. induction n1 as [|n1 IH]; intros s; simpl; [done|].
  destruct (instant s) as [a s1]. specialize (IH s1).
  destruct (instants s1 (n1 + n2)) as [l s2].
  destruct (instants s1 n1) as [l1 s3]. simpl in *. by rewrite IH.
Qed.

Lemma allowRequest_first rl now c :
  buckets rl !! c = None ->
  allowRequest rl now c
  = allowRequest
      (store rl c {| tokens := maxTokens rl; lastRefill := now;
                     burstTokens := burstCapacity rl;
                     lastBurstRefill := now |}) now c.
Proof.
  intros Hnone. rewrite !allowRequest_consume, bucket_of_store, store_store.
  unfold bucket_of, getBucket. by rewrite Hnone.
Qed.

Lemma instants_full n :
  (instants (10%Q, 5) n).1
  = replicate (Nat.min n 10) true ++ replicate (n - 10) false.
Proof.
  destruct (Nat.le_gt_cases n 10) as [Hle|Hgt].
  - do 11 (destruct n as [|n]; [by vm_compute|]). lia.
  - replace n with (10 + (n - 10))%nat at 1 by lia.
    rewrite instants_app. replace (Nat.min n 10) with 10%nat by lia.
    f_equal.
    set (s := (instants (10%Q, 5) 10).2).
    assert (Hs : s.2 = 0 /\ (s.1 < 1)%Q) by (by vm_compute).
    destruct s as [tk bt]. simpl in Hs. destruct Hs as [-> Htk].
    by apply instants_empty.
Qed.

Lemma admitted_instants_state (m : gmap string TokenBucket) now c n s :
  (admitted (store (with_buckets constructor m) c (stamped now s)) now c n).2
  = store (with_buckets constructor m) c (stamped now (instants s n).2).
Proof.
  revert s. induction n as [|n IH]; intros s; simpl; [done|].
  rewrite allowRequest_instant.
  specialize (IH (instant s).2).
  destruct (instant s) as [a s1]. simpl in *.
  destruct (admitted _ now c n) as [l rl2].
  destruct (instants s1 n) as [l' s2]. simpl in *. done.
Qed.

Lemma instants_app_state s n1 n2 :
  (instants s (n1 + n2)).2 = (instants (instants s n1).2 n2).2.
Proof.
  revert s. induction n1 as [|n1 IH]; intros s; simpl; [done|].
  destruct (instant s) as [a s1]. specialize (IH s1).
  destruct (instants s1 (n1 + n2)) as [l s2].
  destruct (instants s1 n1) as [l1 s3]. simpl in *. done.
Qed.

(** With both pools empty nothing is debited any more. *)
Lemma instants_drained n (tk : Q) :
  (tk == 0)%Q ->
  ((instants (tk, 0%Z) n).2.1 == 0)%Q /\ (instants (tk, 0) n).2.2 = 0.
Proof.
  revert tk. induction n as [|n IH]; intros tk Htk; simpl; [done|].
  unfold instant. simpl.
  assert (Hmin : (Qmin 10 (tk + inject_Z 0 * (10 / (60 * 1000))) == 0)%Q).
  { change (inject_Z 0) with 0%Q. rewrite Q.min_r; lra. }
  destruct (Qle_bool 1 _) eqn:Hle.
  - apply Qle_bool_iff in Hle. lra.
  - specialize (IH _ Hmin).
    destruct (instants _ n) as [l s2]. simpl in *. done.
Qed.

(** The pools after [n] requests at one instant on a full bucket: each of
    the first five took a burst token and a steady token, each of the next
    five a steady token, the later ones nothing. *)
Lemma instants_debits n :
  ((instants (10%Q, 5%Z) n).2.1 == inject_Z (10 - Z.of_nat (Nat.min n 10)))%Q
  /\ (instants (10%Q, 5) n).2.2 = 5 - Z.of_nat (Nat.min n 5).
Proof.
  destruct (Nat.le_gt_cases n 10) as [Hle|Hgt].
  - do 11 (destruct n as [|n]; [by vm_compute|]). lia.
  - replace n with (10 + (n - 10))%nat at 1 3 by lia.
    rewrite instants_app_state.
    replace (Nat.min n 10) with 10%nat by lia.
    replace (Nat.min n 5) with 5%nat by lia.
    set (s := (instants (10%Q, 5) 10).2).
    assert (Hs : s.2 = 0 /\ (s.1 == 0)%Q) by (by vm_compute).
    destruct s as [tk bt]. simpl in Hs. destruct Hs as [-> Htk].
    by apply instants_drained.
Qed.

(** C2 (amended).  For a client without a bucket, requests that all read
    the same clock value are admitted exactly [maxTokens] = 10 times, and
    every later one is refused.  Each of the first five takes a burst token
    and a steady token, each of the next five a steady token, the later
    ones nothing: after [n] of them the client's bucket holds
    [10 - min n 10] steady and [5 - min n 5] burst tokens.  The buckets of
    the other clients are not touched. *)
Theorem fresh_bucket_admits_maxTokens
    (m : gmap string TokenBucket) (now : Z) (clientId : string) (n : nat) :
  m !! clientId = None ->
  (admitted (with_buckets constructor m) now clientId n).1
  = replicate (Nat.min n 10) true ++ replicate (n - 10) false
  /\ ((0 < n)%nat ->
      exists b,
        buckets (admitted (with_buckets constructor m) now clientId n).2
          !! clientId = Some b
        /\ (tokens b == inject_Z (10 - Z.of_nat (Nat.min n 10)))%Q
        /\ burstTokens b = 5 - Z.of_nat (Nat.min n 5)
        /\ lastRefill b = now /\ lastBurstRefill b = now)
  /\ (forall c, c ≠ clientId ->
        buckets (admitted (with_buckets constructor m) now clientId n).2 !! c
        = m !! c).
Proof.
  intros Hnone.
  assert (Hfirst : 
    (0 < n)%nat ->
    admitted (with_buckets constructor m) now clientId n
    = admitted (store (with_buckets constructor m) clientId
                  (stamped now (10%Q, 5))) now clientId n).
  { destruct n as [|n]; [lia|]. intros _. simpl.
    by rewrite (allowRequest_first (with_buckets constructor m)). }
  split_and!.
  - rewrite <- instants_full.
    rewrite <- (admitted_instants m now clientId n (10%Q, 5)).
    destruct n as [|n]; [done|]. by rewrite Hfirst by lia.
  - intros Hn. rewrite Hfirst by done. rewrite admitted_instants_state.
    destruct (instants_debits n) as [Htk Hbt].
    eexists. split; [apply lookup_insert_eq|]. done.
  - intros c Hc. destruct n as [|n]; [done|].
    rewrite Hfirst by lia. rewrite admitted_instants_state. simpl.
    by rewrite lookup_insert_ne.
Qed.

Lemma fresh_bucket_admits_maxTokens_witness :
  (admitted (with_buckets constructor ∅) 0 "10.0.0.1" 12).1
  = replicate (Nat.min 12 10) true ++ replicate (12 - 10) false
  /\ ((0 < 12)%nat ->
      exists b,
        buckets (admitted (with_buckets constructor ∅) 0 "10.0.0.1" 12).2
          !! "10.0.0.1"%string = Some b
        /\ (tokens b == inject_Z (10 - Z.of_nat (Nat.min 12 10)))%Q
        /\ burstTokens b = 5 - Z.of_nat (Nat.min 12 5)
        /\ lastRefill b = 0 /\ lastBurstRefill b = 0)
  /\ (forall c, c ≠ "10.0.0.1"%string ->
        buckets (admitted (with_buckets constructor ∅) 0 "10.0.0.1" 12).2 !! c
        = (∅ : gmap string TokenBucket) !! c).
Proof.
  apply (fresh_bucket_admits_maxTokens ∅ 0 "10.0.0.1" 12). reflexivity.
Defined.
(** C2, as stated, fails: of fifteen requests at one instant on a new
    limiter, the eleventh is the first one refused, not the sixteenth. *)
Lemma fresh_bucket_refuses_eleventh :
  (admitted constructor 0 "10.0.0.1" 15).1
  = replicate 10 true ++ replicate 5 false.
Proof. by vm_compute. Qed.

(** ** Status *)

Lemma refill_stamp rl now b : lastRefill (refill rl now b) = now.
Proof.
  unfold refill, refillBurstTokens, refillTokens. simpl.
  by destruct (now - lastBurstRefill b >=? burstWindow rl).
Qed.

Lemma Qceiling_le_iff (x : Q) (z : Z) : Qceiling x <= z <-> (x <= inject_Z z)%Q.
Proof.
  split; intros H.
  - eapply Qle_trans; [apply Qle_ceiling|]. by rewrite <- Zle_Qle.
  - rewrite <- (Qceiling_Z z). by apply Qceiling_resp_le.
Qed.

(** A steady refill [dt] ms after the last one fills the pool exactly when
    [dt] is at least [ceil((maxTokens - tokens) / refillRate)]. *)
Lemma time_to_full rl now b (dt : Z) :
  (0 < refillRate rl)%Q -> lastRefill b = now ->
  (tokens (refillTokens rl (now + dt) b) == maxTokens rl)%Q
  <-> Qceiling ((maxTokens rl - tokens b) / refillRate rl)%Q <= dt.
Proof.
  intros Hrate Hstamp. unfold refillTokens. cbn [tokens]. rewrite Hstamp.
  replace (now + dt - now) with dt by lia.
  rewrite Q.min_l_iff, Qceiling_le_iff.
  split; intros H.
  - apply Qle_shift_div_r; [done|]. lra.
  - assert (H' : ((maxTokens rl - tokens b) / refillRate rl * refillRate rl
                  <= inject_Z dt * refillRate rl)%Q)
      by (apply Qmult_le_compat_r; [done | lra]).
    rewrite Qmult_comm, Qmult_div_r in H' by lra. lra.
Qed.

(** The ceiling of the quotient, up to one unit either way. *)
Lemma ceiling_quotient_near (d r : Q) :
  (0 < r)%Q ->
  (inject_Z (Qceiling (d / r) - 2) * r < d)%Q
  /\ (d <= inject_Z (Qceiling (d / r) + 1) * r)%Q.
Proof.
  intros Hr.
  pose proof (Qle_ceiling (d / r)) as Hup.
  pose proof (Qceiling_lt (d / r)) as Hlo.
  assert (Hd : (d == d / r * r)%Q) by (field; lra).
  set (q := (d / r)%Q) in *.
  unfold Z.sub in *. rewrite !inject_Z_plus in *.
  set (k := inject_Z (Qceiling q)) in *.
  change (inject_Z (- (2))) with (-2 # 1)%Q.
  change (inject_Z (- (1))) with (-1 # 1)%Q in Hlo.
  change (inject_Z 1) with 1%Q.
  assert (H1 : (0 < (q - (k + (-2 # 1))) * r)%Q)
    by (apply Qmult_lt_0_compat; lra).
  assert (H2 : (0 <= (k + 1 - q) * r)%Q)
    by (apply Qmult_le_0_compat; lra).
  split; rewrite Hd; lra.
Qed.

(** C9 (amended).  [getStatus] runs the steady and the burst refill of
    [allowRequest] on the client's bucket, stores the refilled bucket, and
    reports the floor of its steady tokens, its burst tokens, and as
    [resetIn] the time, in milliseconds and to within one, after which a
    steady refill makes the pool full again: between [resetIn - 2] and
    [resetIn + 1] ms of refilling cover what the pool lacks, a refill
    [resetIn + 1] ms later or more fills the pool, and one [resetIn - 2]
    ms later or less does not.  (The model computes the ceiling of the
    exact quotient; the margin of one is what holds whichever way the
    division is rounded.) *)
Theorem status_after_refill rl now req :
  (0 < refillRate rl)%Q ->
  let c := getClientId req in
  let b := refill rl now (bucket_of rl now c) in
  let st := getStatus rl now req in
  st.2 = store rl c b
  /\ allowRequest rl now c = ((consume b).1, store rl c (consume b).2)
  /\ remaining st.1 = Qfloor (tokens b)
  /\ burstRemaining st.1 = burstTokens b
  /\ (inject_Z (resetIn st.1 - 2) * refillRate rl < maxTokens rl - tokens b)%Q
  /\ (maxTokens rl - tokens b <= inject_Z (resetIn st.1 + 1) * refillRate rl)%Q
  /\ (forall dt : Z,
        (resetIn st.1 + 1 <= dt ->
         (tokens (refillTokens rl (now + dt) b) == maxTokens rl)%Q)
        /\ (dt <= resetIn st.1 - 2 ->
            (tokens (refillTokens rl (now + dt) b) < maxTokens rl)%Q)).
Proof.
  intros Hrate c b st. subst st. rewrite getStatus_refill. fold c b.
  cbn [fst snd remaining burstRemaining resetIn].
  destruct (ceiling_quotient_near (maxTokens rl - tokens b) (refillRate rl) Hrate)
    as [Hlo Hup].
  split_and!; try done.
  - apply allowRequest_consume.
  - intros dt. split; intros Hdt.
    + apply (time_to_full rl now b dt Hrate (refill_stamp rl now _)). lia.
    + destruct (Qlt_le_dec (tokens (refillTokens rl (now + dt) b)) (maxTokens rl))
        as [|Hge]; [done|].
      assert (Hfull : (tokens (refillTokens rl (now + dt) b) == maxTokens rl)%Q).
      { apply Qle_antisym; [|done]. unfold refillTokens. simpl. apply Q.le_min_l. }
      apply (time_to_full rl now b dt Hrate (refill_stamp rl now _)) in Hfull.
      lia.
Qed.

Lemma status_after_refill_witness :
  let rl := (admitted constructor 0 "10.0.0.1" 2).2 in
  let c := getClientId probe in
  let b := refill rl 6000 (bucket_of rl 6000 c) in
  let st := getStatus rl 6000 probe in
  st.2 = store rl c b
  /\ allowRequest rl 6000 c = ((consume b).1, store rl c (consume b).2)
  /\ remaining st.1 = Qfloor (tokens b)
  /\ burstRemaining st.1 = burstTokens b
  /\ (inject_Z (resetIn st.1 - 2) * refillRate rl < maxTokens rl - tokens b)%Q
  /\ (maxTokens rl - tokens b <= inject_Z (resetIn st.1 + 1) * refillRate rl)%Q
  /\ (forall dt : Z,
        (resetIn st.1 + 1 <= dt ->
         (tokens (refillTokens rl (6000 + dt) b) == maxTokens rl)%Q)
        /\ (dt <= resetIn st.1 - 2 ->
            (tokens (refillTokens rl (6000 + dt) b) < maxTokens rl)%Q)).
Proof.
  apply (status_after_refill (admitted constructor 0 "10.0.0.1" 2).2 6000 probe).
  reflexivity.
Defined.

(** C9, as stated, fails.  After two requests at time 0 the status reports
    8 steady tokens and [resetIn = 12000]; yet the status 6000 ms later
    reports 9: one more steady token was available after half of
    [resetIn].  [resetIn] is the time to a full pool. *)
Lemma resetIn_is_not_time_to_next_token :
  let rl := (admitted constructor 0 "10.0.0.1" 2).2 in
  let s0 := getStatus rl 0 probe in
  let s1 := getStatus s0.2 6000 probe in
  remaining s0.1 = 8 /\ resetIn s0.1 = 12000 /\ remaining s1.1 = 9.
Proof. by vm_compute. Qed.

(** The README scenario: twelve requests at once, ten admitted; after the
    burst window of 10 s, requests are admitted again. *)
Example scenario_rate_limit :
  let r := admitted constructor 0 "10.0.0.1" 12 in
  r.1 = replicate 10 true ++ [false; false]
  /\ (admitted r.2 10000 "10.0.0.1" 6).1
     = [true; true; true; true; true; false].
Proof. by vm_compute. Qed.

End RateLimiterSpec.

(* ===================================================================== *)
(** * AsyncQueue: properties *)
(* ===================================================================== *)

Module AsyncQueueSpec.
Import AsyncQueue AsyncQueueDefs.

(** ** The waiting tasks under [JsMap] updates *)

Lemma qtasks_delete (m : list (string * list QueueTask)) i ts :
  JsMap.get i m = Some ts -> qtasks m ≡ₚ ts ++ qtasks (JsMap.delete i m).
Proof.
  unfold qtasks. induction m as [|[k0 v0] m IH]; simpl; [done|].
  destruct (decide (k0 = i)) as [->|Hne].
  - by intros [= ->].
  - intros H. simpl. rewrite (IH H).
    by rewrite !(assoc (++)), (comm (++) v0 ts).
Qed.

Lemma qtasks_delete_absent (m : list (string * list QueueTask)) i :
  JsMap.get i m = None -> qtasks (JsMap.delete i m) = qtasks m.
Proof. intros H. by rewrite JsMapFacts.delete_absent. Qed.

Lemma qtasks_set (m : list (string * list QueueTask)) i ts :
  qtasks (JsMap.set i ts m) ≡ₚ ts ++ qtasks (JsMap.delete i m).
Proof.
  unfold qtasks. induction m as [|[k0 v0] m IH]; simpl.
  - done.
  - destruct (decide (k0 = i)) as [->|Hne]; simpl; [done|].
    rewrite IH. by rewrite !(assoc (++)), (comm (++) v0 ts).
Qed.

Lemma qtasks_push (m : list (string * list QueueTask)) i t0 :
  qtasks (JsMap.set i (default [] (JsMap.get i m) ++ [t0]) m) ≡ₚ t0 :: qtasks m.
Proof.
  rewrite qtasks_set. destruct (JsMap.get i m) as [ts|] eqn:Hi; simpl.
  - rewrite (qtasks_delete m i ts Hi).
    rewrite <- app_assoc. simpl. symmetry. apply Permutation_middle.
  - by rewrite qtasks_delete_absent.
Qed.

Lemma elem_of_qtasks (m : list (string * list QueueTask)) e t0 :
  e ∈ m -> t0 ∈ e.2 -> t0 ∈ qtasks m.
Proof.
  unfold qtasks. induction m as [|e0 m IH]; intros He Ht0.
  - by apply elem_of_nil in He.
  - simpl. apply elem_of_app. apply elem_of_cons in He as [->|He]; auto.
Qed.

(** ** [processNext] never finds a task to start *)

Lemma next_entry_None (proc : gset string) (m : list (string * list QueueTask)) :
  Forall (fun e => e.1 ∈ proc) m -> next_entry proc m = None.
Proof.
  induction 1 as [|[i ts] m Hi Hall IH]; simpl; [done|].
  simpl in Hi. by rewrite decide_True.
Qed.

(** Every id that has a queue entry is marked as being processed, so the
    loop of [processNext] skips every entry. *)
Lemma processNext_idle w :
  Forall (fun e => e.1 ∈ processing (aq w)) (queue (aq w)) -> processNext w = w.
Proof.
  intros H. unfold processNext.
  destruct (activeCount (aq w) >=? concurrencyLimit (aq w)); [done|].
  by rewrite next_entry_None.
Qed.

(** ** Suspended calls *)

Lemma take_Some p l t0 l' :
  take p l = Some (t0, l') -> promise t0 = p /\ l ≡ₚ t0 :: l'.
Proof.
  revert t0 l'. induction l as [|t1 l IH]; intros t0 l'; simpl; [done|].
  destruct (decide (promise t1 = p)) as [Hp|Hp].
  - by intros [= -> ->].
  - destruct (take p l) as [[t2 l2]|]; [|done].
    intros [= <- <-]. destruct (IH t2 l2 eq_refl) as [? Hperm].
    split; [done|]. rewrite Hperm. apply perm_swap.
Qed.

Lemma take_sublist p l t0 l' : take p l = Some (t0, l') -> l' `sublist_of` l.
Proof.
  revert t0 l'. induction l as [|t1 l IH]; intros t0 l'; simpl; [done|].
  destruct (decide (promise t1 = p)) as [Hp|Hp].
  - intros [= -> ->]. by apply sublist_cons.
  - destruct (take p l) as [[t2 l2]|]; [|done].
    intros [= <- <-]. apply sublist_skip. by eapply IH.
Qed.

Lemma take_None p l : take p l = None -> p ∉ promise <$> l.
Proof.
  induction l as [|t1 l IH]; simpl; [intros _; apply not_elem_of_nil|].
  destruct (decide (promise t1 = p)) as [Hp|Hp]; [done|].
  destruct (take p l) as [[t2 l2]|]; [done|].
  intros _. apply not_elem_of_cons. split; [done | by apply IH].
Qed.

Lemma take_elem p l t0 :
  NoDup (promise <$> l) -> t0 ∈ l -> promise t0 = p ->
  exists l', take p l = Some (t0, l').
Proof.
  induction l as [|t1 l IH]; simpl; intros Hnd Hin Hp.
  - by apply elem_of_nil in Hin.
  - apply NoDup_cons in Hnd as [Hnotin Hnd].
    apply elem_of_cons in Hin as [->|Hin].
    + rewrite decide_True by done. by eexists.
    + rewrite decide_False.
      * destruct (IH Hnd Hin Hp) as [l' ->]. by eexists.
      * intros Heq. apply Hnotin. rewrite Heq, <- Hp.
        apply list_elem_of_fmap. by exists t0.
Qed.

(** ** The invariant *)

Lemma fst_batch (o : outcome) (ps : list nat) :
  ((fun p => (p, o)) <$> ps).*1 = ps.
Proof.
  induction ps as [|p ps IH]; [done|]. rewrite !fmap_cons. simpl. by rewrite IH.
Qed.

Lemma Inv_constructor (limit : Z) : Inv (constructor limit).
Proof.
  split; simpl; try (by constructor); try done.
Qed.

(** The promise facts after a step that adds the new promise. *)
Lemma promises_grow w (out' : list nat) :
  Inv w -> out' ≡ₚ nextPromise w :: outstanding w ->
  Forall (fun p => (p < S (nextPromise w))%nat) out'
  /\ NoDup out'
  /\ Forall (fun p => (p < S (nextPromise w))%nat /\ p ∉ out')
            (settled_promises w).
Proof.
  intros HI Hperm.
  assert (Hnew : nextPromise w ∉ outstanding w).
  { intros Hin. pose proof (inv_fresh w HI) as Hf.
    eapply Forall_forall in Hf; [|exact Hin]. simpl in Hf. lia. }
  split_and!.
  - rewrite Hperm. constructor; [lia|].
    eapply Forall_impl; [apply (inv_fresh w HI)|]. simpl. lia.
  - rewrite Hperm. constructor; [done | apply (inv_nodup w HI)].
  - eapply Forall_impl; [apply (inv_settled w HI)|]. simpl.
    intros p [Hlt Hout]. split; [lia|]. rewrite Hperm.
    apply not_elem_of_cons. split; [lia | done].
Qed.

(** The promise facts after a step that drops the promises [ps] and
    settles some of them. *)
Lemma promises_shrink w (out' ps ps' : list nat) :
  Inv w -> outstanding w ≡ₚ ps ++ out' -> ps' ⊆ ps ->
  Forall (fun p => (p < nextPromise w)%nat) out'
  /\ NoDup out'
  /\ Forall (fun p => (p < nextPromise w)%nat /\ p ∉ out')
            (settled_promises w ++ ps').
Proof.
  intros HI Hperm Hsub.
  pose proof (inv_fresh w HI) as Hf. pose proof (inv_nodup w HI) as Hnd.
  rewrite Hperm in Hf, Hnd.
  apply Forall_app in Hf as [Hfps Hf'].
  apply NoDup_app in Hnd as (_ & Hdisj & Hnd').
  split_and!; [done..|].
  apply Forall_app. split.
  - eapply Forall_impl; [apply (inv_settled w HI)|]. simpl.
    intros p [Hlt Hout]. split; [done|]. intros Hin. apply Hout.
    rewrite Hperm. apply elem_of_app. by right.
  - apply Forall_forall. intros p Hp. apply Hsub in Hp. split.
    + by eapply Forall_forall in Hfps.
    + by apply Hdisj.
Qed.

Lemma outstanding_push w i task p :
  (promise <$> running w)
    ++ (promise <$> qtasks (queue (push_waiter (aq w) i task p)))
  ≡ₚ p :: outstanding w.
Proof.
  unfold push_waiter, outstanding. simpl. rewrite qtasks_push.
  rewrite fmap_cons. simpl. symmetry. apply Permutation_middle.
Qed.

Lemma Inv_enqueue w i task : Inv w -> Inv (enqueue w i task).2.
Proof.
  intros HI. unfold enqueue. simpl.
  destruct (decide (i ∈ processing (aq w))) as [Hin|Hnotin]; simpl.
  - (* a fetch for [i] is marked as in flight: wait *)
    destruct (promises_grow w _ HI (outstanding_push w i task (nextPromise w)))
      as (Hf & Hnd & Hs).
    split; simpl; try apply HI; try done.
    + apply JsMapFacts.NoDup_set, HI.
    + apply JsMapFacts.Forall_set; [apply HI|]. simpl.
      by destruct (default [] (JsMap.get i (queue (aq w)))).
    + apply JsMapFacts.Forall_set; [apply HI | done].
  - destruct (activeCount (aq w) <? concurrencyLimit (aq w)); simpl.
    + (* a free slot: call the task *)
      assert (Hperm : (promise <$> running w ++ [mkTask i task (nextPromise w)])
                        ++ (promise <$> qtasks (queue (aq w)))
                      ≡ₚ nextPromise w :: outstanding w).
      { unfold outstanding. rewrite fmap_app. simpl.
        rewrite <- app_assoc. simpl. symmetry. apply Permutation_middle. }
      destruct (promises_grow w _ HI Hperm) as (Hf & Hnd & Hs).
      split; simpl; try apply HI; try done.
      * eapply Forall_impl; [apply (inv_queued w HI)|]. set_solver.
      * apply Forall_app. split.
        -- eapply Forall_impl; [apply (inv_running w HI)|]. set_solver.
        -- repeat constructor. simpl. set_solver.
      * rewrite fmap_app. simpl. apply NoDup_app.
        split_and!; [apply HI| |apply NoDup_singleton].
        intros x Hx Hx'. apply list_elem_of_singleton in Hx' as ->.
        apply list_elem_of_fmap in Hx as [t1 [-> Ht1]].
        pose proof (inv_running w HI) as Hr.
        by eapply Forall_forall in Hr.
      * rewrite length_app. simpl. rewrite (inv_count w HI). lia.
    + (* every slot is taken: wait *)
      set (q := {| queue := queue (aq w);
                   processing := {[i]} ∪ processing (aq w);
                   concurrencyLimit := concurrencyLimit (aq w);
                   activeCount := activeCount (aq w) |}).
      assert (Hperm : (promise <$> running w)
                        ++ (promise <$> qtasks
                              (queue (push_waiter q i task (nextPromise w))))
                      ≡ₚ nextPromise w :: outstanding w)
        by apply (outstanding_push (with_aq w q)).
      destruct (promises_grow w _ HI Hperm) as (Hf & Hnd & Hs).
      split; simpl; try apply HI; try done.
      * apply JsMapFacts.NoDup_set, HI.
      * apply JsMapFacts.Forall_set; [apply HI|]. simpl.
        by destruct (default [] (JsMap.get i (queue (aq w)))).
      * apply JsMapFacts.Forall_set; [|simpl; set_solver].
        eapply Forall_impl; [apply (inv_queued w HI)|]. set_solver.
      * eapply Forall_impl; [apply (inv_running w HI)|]. set_solver.
Qed.

Lemma processTask_resume_resumed w t0 o :
  Forall (fun e => e.2 ≠ []) (queue (aq w)) ->
  processTask_resume w t0 o = processNext (resumed w t0 o).
Proof.
  intros Hne. unfold processTask_resume, resumed, settle_all. simpl.
  destruct (JsMap.get (id t0) (queue (aq w))) as [ws|] eqn:Hget; simpl.
  - assert (ws ≠ []) as Hws.
    { apply JsMapFacts.get_Some_elem in Hget.
      by eapply Forall_forall in Hne; [|exact Hget]. }
    destruct ws as [|t1 ws]; [done|]. simpl.
    by rewrite <- app_assoc.
  - by rewrite JsMapFacts.delete_absent.
Qed.

Lemma keys_ne_of_get_None (m : list (string * list QueueTask)) i :
  JsMap.get i m = None -> Forall (fun e => e.1 ≠ i) m.
Proof.
  intros H. apply JsMapFacts.get_None_keys in H.
  apply Forall_forall. intros [k ts] Hin Heq. simpl in Heq. subst.
  apply H. apply list_elem_of_fmap. by exists (i, ts).
Qed.

Lemma Inv_resumed w t0 others o :
  Inv w -> take (promise t0) (running w) = Some (t0, others) ->
  Inv (resumed {| aq := aq w; running := others; calls := calls w;
                  settled := settled w; nextPromise := nextPromise w |} t0 o).
Proof.
  intros HI Htake.
  destruct (take_Some _ _ _ _ Htake) as [_ Hrun].
  pose proof (inv_runids w HI) as Hids. rewrite Hrun in Hids.
  simpl in Hids. apply NoDup_cons in Hids as [Hid0 Hids].
  pose proof (inv_running w HI) as Hproc. rewrite Hrun in Hproc.
  apply Forall_cons in Hproc as [_ Hproc].
  set (ws := default [] (JsMap.get (id t0) (queue (aq w)))).
  assert (Hq : qtasks (queue (aq w))
               ≡ₚ ws ++ qtasks (JsMap.delete (id t0) (queue (aq w)))).
  { subst ws. destruct (JsMap.get (id t0) (queue (aq w))) as [ts|] eqn:Hget.
    - by apply qtasks_delete.
    - simpl. by rewrite qtasks_delete_absent. }
  assert (Hperm : outstanding w
            ≡ₚ (promise t0 :: (promise <$> ws))
               ++ ((promise <$> others)
                   ++ (promise <$> qtasks (JsMap.delete (id t0) (queue (aq w)))))).
  { unfold outstanding. rewrite Hrun, Hq, fmap_cons, fmap_app. simpl.
    constructor. rewrite !(assoc (++)).
    by rewrite (comm (++) (promise <$> others) (promise <$> ws)). }
  destruct (promises_shrink w _ _ (promise t0 :: (promise <$> ws)) HI Hperm)
    as (Hf & Hnd & Hs); [done|].
  split; simpl.
  - apply JsMapFacts.NoDup_delete, HI.
  - apply JsMapFacts.Forall_delete, HI.
  - assert (Hne : Forall (fun e => e.1 ≠ id t0)
                         (JsMap.delete (id t0) (queue (aq w)))).
    { apply keys_ne_of_get_None, JsMapFacts.get_delete_eq, HI. }
    pose proof (JsMapFacts.Forall_delete _ _ (id t0) (inv_queued w HI)) as Hin.
    apply Forall_forall. intros e He.
    eapply Forall_forall in Hne; [|exact He].
    eapply Forall_forall in Hin; [|exact He]. simpl in *. set_solver.
  - apply Forall_forall. intros t1 Ht1.
    eapply Forall_forall in Hproc; [|exact Ht1]. simpl in Hproc.
    assert (id t1 ≠ id t0).
    { intros Heq. apply Hid0. rewrite <- Heq.
      apply list_elem_of_fmap. by exists t1. }
    set_solver.
  - done.
  - rewrite (inv_count w HI), Hrun. simpl. lia.
  - done.
  - done.
  - unfold settled_promises in *. simpl.
    rewrite fmap_app, fmap_cons. simpl.
    by rewrite fst_batch.
Qed.

Lemma Inv_step w ev : Inv w -> Inv (step w ev).
Proof.
  intros HI. destruct ev as [i task|p o|]; simpl.
  - by apply Inv_enqueue.
  - destruct (take p (running w)) as [[t0 others]|] eqn:Htake; [|done].
    destruct (take_Some _ _ _ _ Htake) as [<- _].
    rewrite processTask_resume_resumed by apply HI.
    pose proof (Inv_resumed w t0 others o HI Htake) as HI'.
    rewrite processNext_idle; [done | apply HI'].
  - assert (Hperm : outstanding w
              ≡ₚ (promise <$> qtasks (queue (aq w))) ++ (promise <$> running w))
      by (unfold outstanding; apply (comm (++))).
    destruct (promises_shrink w _ _ [] HI Hperm) as (Hf & Hnd & Hs);
      [apply list_subseteq_nil|].
    rewrite app_nil_r in Hs.
    assert (Hout : outstanding (with_aq w (clear (aq w))) = promise <$> running w)
      by (unfold outstanding; simpl; apply app_nil_r).
    split; simpl; try apply HI; try (by constructor); rewrite Hout; done.
Qed.

Lemma Inv_run evs w : Inv w -> Inv (run w evs).
Proof.
  revert w. induction evs as [|ev evs IH]; intros w HI; simpl; [done|].
  apply IH. by apply Inv_step.
Qed.

(** A step as the invariant lets it be read: [processNext] has nothing to
    start. *)
Lemma step_settle w p o t0 others :
  Inv w -> take p (running w) = Some (t0, others) ->
  step w (Settle p o)
  = resumed {| aq := aq w; running := others; calls := calls w;
               settled := settled w; nextPromise := nextPromise w |} t0 o.
Proof.
  intros HI Htake. simpl. rewrite Htake.
  destruct (take_Some _ _ _ _ Htake) as [<- _].
  rewrite processTask_resume_resumed by apply HI.
  apply processNext_idle. apply (Inv_resumed w t0 others o HI Htake).
Qed.

(** ** The concurrency bound *)

Lemma limit_step w ev :
  Inv w -> concurrencyLimit (aq (step w ev)) = concurrencyLimit (aq w).
Proof.
  intros HI. destruct ev as [i task|p o|].
  - simpl. unfold enqueue. simpl.
    destruct (decide (i ∈ processing (aq w))); [done|]. simpl.
    by destruct (activeCount (aq w) <? concurrencyLimit (aq w)).
  - destruct (take p (running w)) as [[t0 others]|] eqn:Htake.
    + by rewrite (step_settle w p o t0 others HI Htake).
    + simpl. by rewrite Htake.
  - done.
Qed.

Lemma bound_step w ev :
  Inv w -> activeCount (aq w) <= concurrencyLimit (aq w) ->
  activeCount (aq (step w ev)) <= concurrencyLimit (aq (step w ev)).
Proof.
  intros HI Hle. destruct ev as [i task|p o|].
  - simpl. unfold enqueue. simpl.
    destruct (decide (i ∈ processing (aq w))); [done|]. simpl.
    destruct (Z.ltb_spec (activeCount (aq w)) (concurrencyLimit (aq w)));
      simpl; lia.
  - destruct (take p (running w)) as [[t0 others]|] eqn:Htake.
    + rewrite (step_settle w p o t0 others HI Htake). simpl. lia.
    + simpl. by rewrite Htake.
  - done.
Qed.

Lemma bound_run evs w :
  Inv w -> activeCount (aq w) <= concurrencyLimit (aq w) ->
  activeCount (aq (run w evs)) <= concurrencyLimit (aq (run w evs))
  /\ concurrencyLimit (aq (run w evs)) = concurrencyLimit (aq w).
Proof.
  revert w. induction evs as [|ev evs IH]; intros w HI Hle; simpl; [done|].
  destruct (IH (step w ev)) as [H1 H2].
  - by apply Inv_step.
  - by apply bound_step.
  - split; [done|]. by rewrite H2, limit_step.
Qed.

(** C6.  Whatever calls of [enqueue] and [clear] and whatever fetch
    completions happen on a queue with limit [K], the fetches in flight
    (the suspended [processTask] calls) are as many as [activeCount] says
    and never more than [K]. *)
Theorem active_fetches_within_limit (K : Z) (evs : list event) :
  0 <= K ->
  let w := run (constructor K) evs in
  activeCount (aq w) = Z.of_nat (length (running w))
  /\ Z.of_nat (length (running w)) <= K.
Proof.
  intros HK w.
  pose proof (Inv_run evs _ (Inv_constructor K)) as HI. fold w in HI.
  destruct (bound_run evs _ (Inv_constructor K)) as [Hle Hlim]; [simpl; lia|].
  fold w in Hle, Hlim. simpl in Hlim.
  split; [apply HI|]. rewrite <- (inv_count w HI). lia.
Qed.

Lemma active_fetches_within_limit_witness :
  let w := run (constructor 2)
               [Enqueue "a" 0; Enqueue "b" 1; Enqueue "c" 2;
                Settle 0 (Fulfilled "A"); Enqueue "d" 3] in
  activeCount (aq w) = Z.of_nat (length (running w))
  /\ Z.of_nat (length (running w)) <= 2.
Proof.
  apply (active_fetches_within_limit 2
           [Enqueue "a" 0; Enqueue "b" 1; Enqueue "c" 2;
            Settle 0 (Fulfilled "A"); Enqueue "d" 3]).
  lia.
Defined.

(** ** Promises over a step *)

Lemma first_outcome_None p (l : list (nat * outcome)) :
  first_outcome p l = None <-> p ∉ l.*1.
Proof.
  induction l as [|[q o] l IH]; simpl.
  - split; [intros _; apply not_elem_of_nil | done].
  - rewrite not_elem_of_cons. destruct (decide (q = p)) as [->|Hne].
    + split; [done | by intros [? _]].
    + rewrite IH. split; [by intros ?; split | by intros [_ ?]].
Qed.

Lemma settlement_None w p : settlement w p = None <-> p ∉ settled_promises w.
Proof. apply first_outcome_None. Qed.

(** A promise settled for the first time in a batch of calls that all
    pass [o] has the outcome [o]. *)
Lemma first_outcome_batch p o (l : list (nat * outcome)) (ps : list nat) :
  p ∉ l.*1 -> p ∈ ps ->
  first_outcome p (l ++ map (fun q => (q, o)) ps) = Some o.
Proof.
  intros Hl Hps. induction l as [|[q o'] l IH]; simpl.
  - induction ps as [|q ps IH]; [by apply elem_of_nil in Hps|]. simpl.
    destruct (decide (q = p)) as [->|Hne]; [done|].
    apply elem_of_cons in Hps as [->|Hps]; [done | auto].
  - simpl in Hl. apply not_elem_of_cons in Hl as [Hne Hl].
    rewrite decide_False by done. auto.
Qed.

(** A step adds at most the new promise to the outstanding ones, and
    settles only promises that were outstanding. *)
Lemma step_promises w ev :
  Inv w ->
  exists new gone,
    new ⊆ [nextPromise w]
    /\ outstanding (step w ev) ++ gone ≡ₚ new ++ outstanding w
    /\ (exists fin, fin ⊆ gone
         /\ settled_promises (step w ev) = settled_promises w ++ fin)
    /\ (nextPromise w <= nextPromise (step w ev))%nat.
Proof.
  intros HI. destruct ev as [i task|p o|].
  - exists [nextPromise w], []. split; [done|]. rewrite app_nil_r.
    assert (H : outstanding (enqueue w i task).2 ≡ₚ nextPromise w :: outstanding w
                /\ settled (enqueue w i task).2 = settled w
                /\ nextPromise (enqueue w i task).2 = S (nextPromise w)).
    { unfold enqueue. simpl.
      destruct (decide (i ∈ processing (aq w))); simpl.
      - split; [|done]. exact (outstanding_push w i task (nextPromise w)).
      - destruct (activeCount (aq w) <? concurrencyLimit (aq w)); simpl.
        + split; [|done]. unfold outstanding. simpl. rewrite fmap_app. simpl.
          rewrite <- app_assoc. simpl. symmetry. apply Permutation_middle.
        + split; [|done].
          exact (outstanding_push
                   (with_aq w {| queue := queue (aq w);
                                 processing := {[i]} ∪ processing (aq w);
                                 concurrencyLimit := concurrencyLimit (aq w);
                                 activeCount := activeCount (aq w) |})
                   i task (nextPromise w)). }
    destruct H as (H1 & H2 & H3). simpl. split_and!; [done| |lia].
    exists []. split; [done|]. unfold settled_promises.
    by rewrite H2, app_nil_r.
  - destruct (take p (running w)) as [[t0 others]|] eqn:Htake.
    + rewrite (step_settle w p o t0 others HI Htake).
      destruct (take_Some _ _ _ _ Htake) as [_ Hrun].
      set (ws := default [] (JsMap.get (id t0) (queue (aq w)))).
      exists [], (promise t0 :: (promise <$> ws)).
      split; [apply list_subseteq_nil|].
      split_and!; [|exists (promise t0 :: (promise <$> ws))|done].
      * assert (Hq : qtasks (queue (aq w))
                     ≡ₚ ws ++ qtasks (JsMap.delete (id t0) (queue (aq w)))).
        { subst ws.
          destruct (JsMap.get (id t0) (queue (aq w))) as [ts|] eqn:Hget.
          - by apply qtasks_delete.
          - simpl. by rewrite qtasks_delete_absent. }
        unfold outstanding. simpl. rewrite Hrun, Hq, fmap_cons, fmap_app.
        rewrite <- Permutation_middle. constructor.
        rewrite <- !(assoc (++)). f_equiv. apply (comm (++)).
      * split; [done|]. unfold settled_promises. simpl.
        rewrite fmap_app, fmap_cons. simpl. by rewrite fst_batch.
    + exists [], []. simpl. rewrite Htake.
      split_and!; [apply list_subseteq_nil|by rewrite app_nil_r| |done].
      exists []. by rewrite app_nil_r.
  - exists [], (promise <$> qtasks (queue (aq w))).
    split_and!; [apply list_subseteq_nil| | |done].
    + unfold outstanding. simpl. by rewrite app_nil_r.
    + exists []. split; [apply list_subseteq_nil|].
      unfold settled_promises. simpl. by rewrite app_nil_r.
Qed.

Lemma abandoned_step w ev p : Inv w -> abandoned w p -> abandoned (step w ev) p.
Proof.
  intros HI (Hlt & Hout & Hset).
  destruct (step_promises w ev HI)
    as (new & gone & Hnew & Hperm & (fin & Hdone & Hsettled) & Hnext).
  assert (Hp : p ∉ (new ++ outstanding w)).
  { intros Hin. apply elem_of_app in Hin as [Hin|Hin]; [|done].
    apply Hnew in Hin. apply list_elem_of_singleton in Hin. lia. }
  rewrite <- Hperm in Hp. split_and!.
  - simpl in *. lia.
  - intros Hin. apply Hp. apply elem_of_app. by left.
  - rewrite Hsettled. intros Hin. apply elem_of_app in Hin as [Hin|Hin]; [done|].
    apply Hp. apply elem_of_app. right. by apply Hdone.
Qed.

Lemma abandoned_run evs w p : Inv w -> abandoned w p -> abandoned (run w evs) p.
Proof.
  revert w. induction evs as [|ev evs IH]; intros w HI Hab; simpl; [done|].
  apply IH; [by apply Inv_step | by apply abandoned_step].
Qed.

(** ** [clear] *)

(** C10.  [clear()] empties the queue and nothing else: the processing set
    and [activeCount] (and the fetches in flight) stay, and no [resolve] or
    [reject] is called.  A waiter that was in the queue is unsettled, and
    stays unsettled whatever happens afterwards. *)
Theorem clear_abandons_waiters (K : Z) (pre post : list event) (p : nat) :
  let w := run (constructor K) pre in
  p ∈ promise <$> qtasks (queue (aq w)) ->
  let w' := step w Clear in
  queue (aq w') = []
  /\ processing (aq w') = processing (aq w)
  /\ activeCount (aq w') = activeCount (aq w)
  /\ running w' = running w
  /\ settled w' = settled w
  /\ settlement w p = None
  /\ settlement (run w' post) p = None.
Proof.
  intros w Hp w'.
  pose proof (Inv_run pre _ (Inv_constructor K)) as HI. fold w in HI.
  assert (Hout : p ∈ outstanding w) by (apply elem_of_app; by right).
  assert (Hrun : p ∉ promise <$> running w).
  { pose proof (inv_nodup w HI) as Hnd.
    apply NoDup_app in Hnd as (_ & Hdisj & _). intros Hin. by apply (Hdisj p). }
  assert (Hlt : (p < nextPromise w)%nat).
  { pose proof (inv_fresh w HI) as Hf. by eapply Forall_forall in Hf. }
  assert (Hset : p ∉ settled_promises w).
  { intros Hin. pose proof (inv_settled w HI) as Hs.
    eapply Forall_forall in Hs; [|exact Hin]. by destruct Hs. }
  split_and!; try done.
  - by apply settlement_None.
  - apply settlement_None.
    apply (abandoned_run post w' p); [by apply Inv_step|].
    split_and!; [done| |done].
    unfold outstanding. simpl. by rewrite app_nil_r.
Qed.

Lemma clear_abandons_waiters_witness :
  let w := run (constructor 1) [Enqueue "a" 0; Enqueue "a" 1; Enqueue "b" 2] in
  let w' := step w Clear in
  queue (aq w') = []
  /\ processing (aq w') = processing (aq w)
  /\ activeCount (aq w') = activeCount (aq w)
  /\ running w' = running w
  /\ settled w' = settled w
  /\ settlement w 1%nat = None
  /\ settlement
       (run w' [Settle 0 (Fulfilled "A"); Enqueue "b" 3; Enqueue "a" 4;
                Settle 4 (Rejected "E")]) 1%nat = None.
Proof.
  apply (clear_abandons_waiters 1
           [Enqueue "a" 0; Enqueue "a" 1; Enqueue "b" 2]
           [Settle 0 (Fulfilled "A"); Enqueue "b" 3; Enqueue "a" 4;
            Settle 4 (Rejected "E")] 1%nat).
  vm_compute. set_solver.
Defined.

(** ** A key that waits without a fetch in flight *)

Lemma callCount_app w w' i c :
  calls w' = calls w ++ [c] -> c.1 ≠ i -> callCount w' i = callCount w i.
Proof.
  intros Hc Hne. unfold callCount. rewrite Hc, filter_app, length_app.
  rewrite filter_cons, decide_False by done. simpl. lia.
Qed.

Lemma stuck_step w ev k p :
  Inv w -> stuck w k -> waits_under w k p ->
  stuck (step w ev) k /\ waits_under (step w ev) k p
  /\ callCount (step w ev) k = callCount w k.
Proof.
  intros HI [Hk Hrun] (Hset & Hprun & Hlt & Hq).
  destruct ev as [i task|p' o|].
  - (* enqueue *)
    assert (Hpush : forall q : t,
      queue q = queue (aq w) ->
      Forall (fun e => Forall (fun t0 => promise t0 = p -> e.1 = k) e.2)
             (queue (push_waiter q i task (nextPromise w)))).
    { intros q Hqq. unfold push_waiter. simpl. rewrite Hqq.
      apply JsMapFacts.Forall_set; [done|]. simpl.
      apply Forall_app. split.
      - destruct (JsMap.get i (queue (aq w))) as [ts|] eqn:Hget; [|constructor].
        apply JsMapFacts.get_Some_elem in Hget.
        by eapply Forall_forall in Hq; [|exact Hget].
      - repeat constructor. simpl. lia. }
    simpl. unfold enqueue. simpl.
    destruct (decide (i ∈ processing (aq w))) as [Hi|Hi]; simpl.
    + split_and!; try done.
      split_and!; try done; cbn [aq with_aq nextPromise]; [lia | by apply Hpush].
    + assert (i ≠ k) by (by intros ->).
      destruct (activeCount (aq w) <? concurrencyLimit (aq w)); simpl.
      * split_and!.
        -- split; simpl; [set_solver|].
           apply Forall_app. split; [done | by repeat constructor].
        -- split_and!; simpl; try done; [|lia].
           rewrite fmap_app. simpl. intros Hin.
           apply elem_of_app in Hin as [Hin|Hin]; [done|].
           apply list_elem_of_singleton in Hin. lia.
        -- by eapply callCount_app.
      * split_and!; try done.
        -- split; simpl; [set_solver | done].
        -- split_and!; try done; cbn [aq with_aq nextPromise];
             [lia | by apply Hpush].
  - (* a fetch settles *)
    destruct (take p' (running w)) as [[t0 others]|] eqn:Htake;
      [|by simpl; rewrite Htake].
    rewrite (step_settle w p' o t0 others HI Htake).
    destruct (take_Some _ _ _ _ Htake) as [Hp' Hperm].
    rewrite Hperm in Hrun, Hprun.
    apply Forall_cons in Hrun as [Ht0 Hothers].
    rewrite fmap_cons in Hprun. apply not_elem_of_cons in Hprun as [Hpt0 Hpothers].
    split_and!; [| |done].
    + split; simpl; [set_solver | done].
    + split_and!; simpl; try done.
      * unfold settled_promises in *. simpl. rewrite fmap_app, fmap_cons. simpl.
        rewrite fst_batch. intros Hin.
        apply elem_of_app in Hin as [Hin|Hin]; [done|].
        apply elem_of_cons in Hin as [Hin|Hin]; [done|].
        apply list_elem_of_fmap in Hin as [t1 [Hpt1 Ht1]].
        destruct (JsMap.get (id t0) (queue (aq w))) as [ts|] eqn:Hget;
          [|by apply elem_of_nil in Ht1].
        apply JsMapFacts.get_Some_elem in Hget.
        eapply Forall_forall in Hq; [|exact Hget]. simpl in Hq, Ht1.
        eapply Forall_forall in Hq; [|exact Ht1]. by apply Ht0, Hq.
      * by apply JsMapFacts.Forall_delete.
  - (* clear *)
    by split_and!.
Qed.

Lemma stuck_run evs w k p :
  Inv w -> stuck w k -> waits_under w k p ->
  callCount (run w evs) k = callCount w k /\ settlement (run w evs) p = None.
Proof.
  revert w. induction evs as [|ev evs IH]; intros w HI Hst Hw; simpl.
  - split; [done|]. apply settlement_None. apply Hw.
  - destruct (stuck_step w ev k p HI Hst Hw) as (Hst' & Hw' & Hc).
    destruct (IH (step w ev)) as [H1 H2]; try done; [by apply Inv_step|].
    split; [congruence | done].
Qed.

(** A call of [enqueue] that finds every slot taken marks its id as being
    processed and parks its task: from then on the id is stuck. *)
Lemma saturated_enqueue_is_stuck w k task :
  Inv w -> k ∉ processing (aq w) ->
  concurrencyLimit (aq w) <= activeCount (aq w) ->
  stuck (enqueue w k task).2 k
  /\ waits_under (enqueue w k task).2 k (enqueue w k task).1.
Proof.
  intros HI Hk Hsat. unfold enqueue. simpl.
  rewrite decide_False by done. simpl.
  destruct (Z.ltb_spec (activeCount (aq w)) (concurrencyLimit (aq w))); [lia|].
  simpl. split.
  - split; simpl; [set_solver|].
    eapply Forall_impl; [apply (inv_running w HI)|]. simpl.
    intros t0 Ht0 Heq. by rewrite Heq in Ht0.
  - pose proof (inv_fresh w HI) as Hf. unfold outstanding in Hf.
    apply Forall_app in Hf as [Hfr Hfq].
    split_and!; simpl.
    + intros Hin. pose proof (inv_settled w HI) as Hs.
      eapply Forall_forall in Hs; [|exact Hin]. simpl in Hs. lia.
    + intros Hin. eapply Forall_forall in Hfr; [|exact Hin]. simpl in Hfr. lia.
    + lia.
    + apply JsMapFacts.Forall_set; simpl.
      * apply Forall_forall. intros e He. apply Forall_forall. intros t0 Ht0 Hp.
        exfalso. eapply Forall_forall in Hfq.
        -- simpl in Hfq. rewrite <- Hp in Hfq. apply (Nat.lt_irrefl _ Hfq).
        -- apply list_elem_of_fmap. exists t0. split; [done|].
           by eapply elem_of_qtasks.
      * apply Forall_forall. by intros.
Qed.

(** C5, on the failing input.  Limit 1; a fetch for "a" takes the slot; a
    fetch for "k" arrives and is queued; the fetch for "a" completes.  The
    slot is free now and "k" has a waiting task, but [processNext] passes
    over it because [enqueue] had already put "k" in the processing set:
    whatever happens later, the task of "k" is never called and its
    promise never settles. *)
Theorem queued_when_saturated_never_runs (post : list event) :
  let w := run (constructor 1)
               [Enqueue "a" 0; Enqueue "k" 1; Settle 0 (Fulfilled "A")] in
  activeCount (aq w) = 0
  /\ running w = []
  /\ JsMap.get "k" (queue (aq w)) = Some [mkTask "k" 1 1]
  /\ isProcessing (aq w) "k" = true
  /\ settlement w 0%nat = Some (Fulfilled "A")
  /\ callCount (run w post) "k" = 0%nat
  /\ settlement (run w post) 1%nat = None.
Proof.
  intros w.
  set (w0 := run (constructor 1) [Enqueue "a" 0]).
  assert (HI0 : Inv w0) by apply Inv_run, Inv_constructor.
  assert (Hk : "k" ∉ processing (aq w0))
    by (apply (bool_decide_eq_false_1 ("k" ∈ processing (aq w0)));
        by vm_compute).
  destruct (saturated_enqueue_is_stuck w0 "k" 1 HI0 Hk) as [Hst Hw];
    [by vm_compute|].
  pose proof (Inv_enqueue w0 "k" 1 HI0) as HI1.
  destruct (stuck_step _ (Settle 0 (Fulfilled "A")) "k" _ HI1 Hst Hw)
    as (Hst' & Hw' & Hc).
  pose proof (Inv_step _ (Settle 0 (Fulfilled "A")) HI1) as HI2.
  destruct (stuck_run post _ "k" _ HI2 Hst' Hw') as [H1 H2].
  split_and!.
  - by vm_compute.
  - by vm_compute.
  - by vm_compute.
  - by vm_compute.
  - by vm_compute.
  - etransitivity; [exact H1 | by vm_compute].
  - exact H2.
Qed.

(** The dedup scenario of the README: limit 10, five callers for one key
    at once; one call of the fetch function, five equal results. *)
Example scenario_dedup :
  let w := run (constructor 10)
               [Enqueue "k" 7; Enqueue "k" 7; Enqueue "k" 7; Enqueue "k" 7;
                Enqueue "k" 7; Settle 0 (Fulfilled "v")] in
  calls w = [("k"%string, 7%nat)]
  /\ settlement w <$> [0; 1; 2; 3; 4]%nat = replicate 5 (Some (Fulfilled "v")).
Proof. by vm_compute. Qed.

(** ** Single flight *)

Lemma enqueue_promise w i task : (enqueue w i task).1 = nextPromise w.
Proof.
  unfold enqueue. simpl. destruct (decide (i ∈ processing (aq w))); [done|].
  simpl. by destruct (activeCount (aq w) <? concurrencyLimit (aq w)).
Qed.

Lemma in_flight_step w ev t0 :
  Inv w -> t0 ∈ running w -> leaves_in_flight (promise t0) ev ->
  t0 ∈ running (step w ev)
  /\ callCount (step w ev) (id t0) = callCount w (id t0)
  /\ waiting (step w ev) (id t0) = waiting w (id t0) ++ callers (id t0) w [ev].
Proof.
  intros HI Ht0 Hev.
  assert (Hk : id t0 ∈ processing (aq w)).
  { pose proof (inv_running w HI) as Hr. by eapply Forall_forall in Hr. }
  destruct ev as [i task|p o|]; [| |done].
  - (* enqueue *)
    simpl. rewrite app_nil_r. unfold enqueue, waiting. simpl.
    destruct (decide (i = id t0)) as [->|Hne].
    + rewrite decide_True by done. simpl.
      rewrite JsMapFacts.get_set_eq. simpl. by rewrite fmap_app.
    + rewrite app_nil_r.
      destruct (decide (i ∈ processing (aq w))); simpl.
      * by rewrite JsMapFacts.get_set_ne.
      * destruct (activeCount (aq w) <? concurrencyLimit (aq w)); simpl.
        -- split_and!; [apply elem_of_app; by left| |done].
           by eapply callCount_app.
        -- by rewrite JsMapFacts.get_set_ne.
  - (* another fetch settles *)
    simpl in Hev. rewrite app_nil_r.
    destruct (take p (running w)) as [[t1 others]|] eqn:Htake;
      [|by simpl; rewrite Htake].
    rewrite (step_settle w p o t1 others HI Htake).
    destruct (take_Some _ _ _ _ Htake) as [Hp Hperm].
    assert (Hin : t0 ∈ others).
    { rewrite Hperm in Ht0. apply elem_of_cons in Ht0 as [->|?]; [done|done]. }
    assert (Hid : id t1 ≠ id t0).
    { pose proof (inv_runids w HI) as Hids. rewrite Hperm in Hids.
      simpl in Hids. apply NoDup_cons in Hids as [Hnot _].
      intros Heq. apply Hnot. rewrite Heq.
      apply list_elem_of_fmap. by exists t0. }
    unfold waiting. simpl. by rewrite JsMapFacts.get_delete_ne.
Qed.

Lemma callers_app k w evs1 evs2 :
  callers k w (evs1 ++ evs2)
  = callers k w evs1 ++ callers k (run w evs1) evs2.
Proof.
  revert w. induction evs1 as [|ev evs1 IH]; intros w; simpl; [done|].
  by rewrite IH, (assoc (++)).
Qed.

Lemma in_flight_run evs w t0 :
  Inv w -> t0 ∈ running w -> Forall (leaves_in_flight (promise t0)) evs ->
  t0 ∈ running (run w evs)
  /\ callCount (run w evs) (id t0) = callCount w (id t0)
  /\ waiting (run w evs) (id t0) = waiting w (id t0) ++ callers (id t0) w evs.
Proof.
  revert w. induction evs as [|ev evs IH]; intros w HI Ht0 Hevs.
  - simpl. by rewrite app_nil_r.
  - apply Forall_cons in Hevs as [Hev Hevs].
    destruct (in_flight_step w ev t0 HI Ht0 Hev) as (H1 & H2 & H3).
    destruct (IH (step w ev)) as (H4 & H5 & H6); [by apply Inv_step|done..|].
    change (run w (ev :: evs)) with (run (step w ev) evs).
    split_and!; [done|congruence|].
    rewrite H6, H3. change (ev :: evs) with ([ev] ++ evs).
    by rewrite callers_app, (assoc (++)).
Qed.

(** Single flight, where the key is not marked as being processed.  Let
    [k] carry no mark and a slot be free.  A call of
    [enqueue] for [k] then calls its fetch function at once; while that
    fetch is in flight, any number of further callers for [k] may arrive,
    interleaved with calls and completions for other keys; when the fetch
    completes with [o], the call counter of [k] has grown by exactly one,
    and the first caller and every later caller hold a promise settled
    with that same [o]. *)
Theorem single_flight (K : Z) (pre mid : list event)
    (k : string) (task : nat) (o : outcome) :
  let w0 := run (constructor K) pre in
  let p0 := (enqueue w0 k task).1 in
  k ∉ processing (aq w0) ->
  activeCount (aq w0) < concurrencyLimit (aq w0) ->
  Forall (leaves_in_flight p0) mid ->
  let w1 := step w0 (Enqueue k task) in
  let w3 := step (run w1 mid) (Settle p0 o) in
  callCount w3 k = S (callCount w0 k)
  /\ calls w1 = calls w0 ++ [(k, task)]
  /\ Forall (fun p => settlement w3 p = Some o) (p0 :: callers k w1 mid).
Proof.
  intros w0 p0 Hk Hfree Hmid w1 w3.
  pose proof (Inv_run pre _ (Inv_constructor K)) as HI0. fold w0 in HI0.
  pose proof (Inv_step w0 (Enqueue k task) HI0) as HI1. fold w1 in HI1.
  set (t0 := mkTask k task p0).
  (* the first call starts the fetch *)
  assert (Hw1 : running w1 = running w0 ++ [t0]
                /\ calls w1 = calls w0 ++ [(k, task)]
                /\ queue (aq w1) = queue (aq w0)).
  { subst w1 t0. rewrite (enqueue_promise w0 k task : p0 = nextPromise w0).
    simpl. unfold enqueue. simpl. rewrite decide_False by done. simpl.
    destruct (Z.ltb_spec (activeCount (aq w0)) (concurrencyLimit (aq w0)));
      [done | lia]. }
  destruct Hw1 as (Hrun1 & Hcalls1 & Hq1).
  assert (Ht0 : t0 ∈ running w1).
  { rewrite Hrun1. apply elem_of_app. right. by apply list_elem_of_singleton. }
  assert (Hwait1 : waiting w1 k = []).
  { unfold waiting. rewrite Hq1.
    assert (JsMap.get k (queue (aq w0)) = None) as ->; [|done].
    apply JsMapFacts.get_None_keys. intros Hin.
    apply list_elem_of_fmap in Hin as [e [-> He]].
    pose proof (inv_queued w0 HI0) as Hqd.
    by eapply Forall_forall in Hqd; [|exact He]. }
  (* it stays in flight, and the later callers queue up behind it *)
  destruct (in_flight_run mid w1 t0 HI1 Ht0 Hmid) as (Ht2 & Hc2 & Hwait2).
  change (id t0) with k in Hc2, Hwait2. rewrite Hwait1 in Hwait2.
  simpl in Hwait2.
  set (w2 := run w1 mid) in *.
  pose proof (Inv_run mid _ HI1) as HI2. fold w2 in HI2.
  (* its completion settles them all *)
  assert (Hnd : NoDup (promise <$> running w2)).
  { pose proof (inv_nodup w2 HI2) as Hnd. by apply NoDup_app in Hnd as [? _]. }
  destruct (take_elem p0 (running w2) t0 Hnd Ht2 eq_refl) as [others Htake].
  assert (Hw3 : w3 = resumed {| aq := aq w2; running := others;
                                calls := calls w2; settled := settled w2;
                                nextPromise := nextPromise w2 |} t0 o)
    by apply (step_settle w2 p0 o t0 others HI2 Htake).
  split_and!.
  - rewrite Hw3. unfold callCount in *. simpl. rewrite Hc2, Hcalls1.
    rewrite filter_app, length_app, filter_cons, decide_True by done.
    simpl. lia.
  - done.
  - apply Forall_forall. intros p Hp. rewrite Hw3. unfold settlement. simpl.
    change (id t0) with k. change (promise t0) with p0.
    fold (waiting w2 k). rewrite Hwait2.
    apply (first_outcome_batch p o (settled w2) (p0 :: callers k w1 mid));
      [|done].
    fold (settled_promises w2). intros Hin.
    pose proof (inv_settled w2 HI2) as Hs.
    eapply Forall_forall in Hs; [|exact Hin]. destruct Hs as [_ Hout].
    apply Hout. unfold outstanding.
    apply elem_of_cons in Hp as [->|Hp].
    + apply elem_of_app. left. apply list_elem_of_fmap. by exists t0.
    + apply elem_of_app. right. rewrite <- Hwait2 in Hp. unfold waiting in Hp.
      apply list_elem_of_fmap in Hp as [t1 [-> Ht1]].
      apply list_elem_of_fmap. exists t1. split; [done|].
      destruct (JsMap.get k (queue (aq w2))) as [ts|] eqn:Hget;
        [|by apply elem_of_nil in Ht1].
      apply JsMapFacts.get_Some_elem in Hget.
      by eapply elem_of_qtasks.
Qed.

Lemma single_flight_witness :
  let mid := [Enqueue "k" 7; Enqueue "j" 8; Enqueue "k" 7;
              Settle 2 (Rejected "boom"); Enqueue "k" 7]%nat in
  let w0 := run (constructor 2) [Enqueue "i" 5; Settle 0 (Fulfilled "I")] in
  let p0 := (enqueue w0 "k" 7%nat).1 in
  let w1 := step w0 (Enqueue "k" 7%nat) in
  let w3 := step (run w1 mid) (Settle p0 (Fulfilled "v")) in
  callCount w3 "k" = S (callCount w0 "k")
  /\ calls w1 = calls w0 ++ [("k"%string, 7%nat)]
  /\ Forall (fun p => settlement w3 p = Some (Fulfilled "v"))
            (p0 :: callers "k" w1 mid).
Proof.
  apply (single_flight 2 [Enqueue "i" 5; Settle 0 (Fulfilled "I")]%nat
           [Enqueue "k" 7; Enqueue "j" 8; Enqueue "k" 7;
            Settle 2 (Rejected "boom"); Enqueue "k" 7]%nat
           "k" 7%nat (Fulfilled "v")).
  - apply (bool_decide_eq_false_1 _). by vm_compute.
  - by vm_compute.
  - vm_compute. repeat constructor; lia.
Defined.

End AsyncQueueSpec.

(* ===================================================================== *)
(** * LRUCache: further properties *)
(* ===================================================================== *)

Module LRUCacheLaws.
Import LRUCache LRUCacheDefs LRUCacheSpec LRUCacheLedger.
Section WithValue.
Context {T : Type}.
Implicit Types (c : t T) (e : CacheEntry T) (k key : string) (now : Z).

Lemma get_counts c now k :
  stats (get c now k).2
  = match (get c now k).1 with
    | Some _ => hit (stats c)
    | None => miss (stats c)
    end.
Proof.
  unfold get. destruct (JsMap.get k (cache c)) as [e|]; [|done].
  by destruct (isExpired c now e).
Qed.

Lemma set_counts c now k (v : T) :
  stats (set c now k v) = stats c \/ stats (set c now k v) = evicted (stats c).
Proof.
  unfold set. destruct (JsMap.has k (cache c)); [by left|].
  destruct (JsMap.size (cache c) >=? capacity c); [|by left].
  destruct (JsMap.first_key (cache c)) as [fk|]; [|by left].
  destruct (truthy fk); [by right | by left].
Qed.

Lemma has_keeps_stats c now k : stats (has c now k).2 = stats c.
Proof.
  unfold has. destruct (JsMap.get k (cache c)) as [e|]; [|done].
  by destruct (isExpired c now e).
Qed.

Lemma counters_ledger_run xs c (acc : list (option T)) (w : Z) :
  hits (stats c) = served acc -> misses (stats c) = unserved acc ->
  0 <= evictions (stats c) <= w ->
  hits (stats (run c xs)) = served (replies c xs acc)
  /\ misses (stats (run c xs)) = unserved (replies c xs acc)
  /\ 0 <= evictions (stats (run c xs)) <= writes xs w.
Proof.
  revert c acc w. induction xs as [|x xs IH]; intros c acc w Hh Hm He; [done|].
  simpl. unfold served, unserved in *.
  destruct x as [now [k|k v|k| | |]]; apply IH; clear IH; unfold exec; cbn [fst snd];
    rewrite ?has_keeps_stats; try done.
  - rewrite get_counts. destruct (get c now k).1.
    + rewrite filter_cons_True by done. simpl in *. lia.
    + by rewrite filter_cons_False by (by intros [? ?]).
  - rewrite get_counts. destruct (get c now k).1.
    + by rewrite filter_cons_False by done.
    + rewrite filter_cons_True by done. simpl in *. lia.
  - rewrite get_counts. by destruct (get c now k).1.
  - by destruct (set_counts c now k v) as [-> | ->].
  - by destruct (set_counts c now k v) as [-> | ->].
  - destruct (set_counts c now k v) as [-> | ->]; simpl; lia.
Qed.

(** X1.  On a cache driven by any sequence of operations, [getStats]
    reports as [hits] the number of [get] calls since the last
    [resetStats] that returned a value, as [misses] the number of those
    that returned nothing, and as [totalRequests] the number of those
    calls; [has], [set], [clear] and the sweep count as neither.
    [evictions] is at most the number of [set] calls since the last
    [resetStats]. *)
Theorem counters_count_the_gets (cap ttlSeconds : Z) (xs : list (Z * op T)) :
  let c0 : t T := constructor cap ttlSeconds in
  let r := replies c0 xs [] in
  let s := getStats (run c0 xs) in
  s_hits s = served r
  /\ s_misses s = unserved r
  /\ s_totalRequests s = Z.of_nat (length r)
  /\ 0 <= s_evictions s <= writes xs 0.
Proof.
  intros c0 r s.
  destruct (counters_ledger_run xs c0 [] 0) as (Hh & Hm & He); [done|done|simpl; lia|].
  subst s. unfold getStats. simpl. fold r in Hh, Hm. rewrite Hh, Hm.
  split_and!; try done; [|lia|lia].
  unfold served, unserved. clear.
  induction r as [|[v|] r IH]; [done| |].
  - rewrite filter_cons_True by done.
    rewrite (filter_cons_False (fun o => o = None)) by done. simpl in *. lia.
  - rewrite filter_cons_False by (by intros [? ?]).
    rewrite (filter_cons_True (fun o => o = None)) by done. simpl in *. lia.
Qed.

(** ** What reads and sweeps leave alone *)

Lemma entry_kept c x k (v : T) (t0 : Z) :
  NoDup (JsMap.keys (cache c)) -> no_set k x ->
  (JsMap.get k (cache c) = None
   \/ exists la, JsMap.get k (cache c) = Some (mkEntry v t0 la)) ->
  JsMap.get k (cache (exec c x)) = None
  \/ exists la, JsMap.get k (cache (exec c x)) = Some (mkEntry v t0 la).
Proof.
  intros Hnd Hx Hk. op_cases x now k' v'; unfold no_set in Hx; cbn [snd] in Hx.
  - unfold get. destruct (JsMap.get k' (cache c)) as [e|] eqn:Hk'; [|done].
    destruct (decide (k' = k)) as [->|Hne].
    + destruct (isExpired c now e); simpl.
      * left. by apply JsMapFacts.get_delete_eq.
      * right. rewrite JsMapFacts.get_set_eq.
        destruct Hk as [Hk|[la Hk]]; [congruence|].
        rewrite Hk in Hk'. injection Hk' as <-. by eexists.
    + destruct (isExpired c now e); simpl.
      * by rewrite JsMapFacts.get_delete_ne.
      * by rewrite JsMapFacts.get_set_ne, JsMapFacts.get_delete_ne.
  - unfold set. destruct (JsMap.has k' (cache c)); simpl.
    + by rewrite JsMapFacts.get_set_ne, JsMapFacts.get_delete_ne.
    + destruct (JsMap.size (cache c) >=? capacity c);
        [destruct (JsMap.first_key (cache c)) as [fk|];
           [destruct (truthy fk)|]|]; simpl;
        rewrite JsMapFacts.get_set_ne by done; try done.
      destruct (decide (fk = k)) as [->|Hne].
      * left. by apply JsMapFacts.get_delete_eq.
      * by rewrite JsMapFacts.get_delete_ne.
  - unfold has. destruct (JsMap.get k' (cache c)) as [e|] eqn:Hk'; [|done].
    destruct (isExpired c now e); simpl; [|done].
    destruct (decide (k' = k)) as [->|Hne].
    + left. by apply JsMapFacts.get_delete_eq.
    + by rewrite JsMapFacts.get_delete_ne.
  - by left.
  - done.
  - rewrite sweep_filter, JsMapFacts.get_filter by done.
    destruct Hk as [->|[la ->]]; [by left|].
    case_decide; [right; by eexists | by left].
Qed.

Lemma entry_kept_run xs c k (v : T) (t0 : Z) :
  NoDup (JsMap.keys (cache c)) -> Forall (no_set k) xs ->
  (JsMap.get k (cache c) = None
   \/ exists la, JsMap.get k (cache c) = Some (mkEntry v t0 la)) ->
  JsMap.get k (cache (run c xs)) = None
  \/ exists la, JsMap.get k (cache (run c xs)) = Some (mkEntry v t0 la).
Proof.
  revert c. induction xs as [|x xs IH]; intros c Hnd Hxs Hk; [done|].
  apply Forall_cons in Hxs as [Hx Hxs]. simpl. apply IH; [|done|].
  - by apply NoDup_exec.
  - by apply entry_kept.
Qed.

(** X2.  After [set(k, v)] at [t0], as long as [k] is not written again,
    no sequence of [get], [has], [clear], [resetStats] and sweeps (on any
    keys, at any instants) changes what [k] holds or moves its deadline:
    a later [get(k)] returns [v] or nothing, never another value, and
    after [t0 + ttl] it returns nothing and [has(k)] is false, however
    often [k] was read in between.  Reading does not renew the entry. *)
Theorem reads_keep_value_and_deadline (cap ttlSeconds : Z)
    (pre xs : list (Z * op T)) k (v : T) (t0 t : Z) :
  Forall (no_set k) xs ->
  let c := run (set (run (constructor cap ttlSeconds) pre) t0 k v) xs in
  ((get c t k).1 = None \/ (get c t k).1 = Some v)
  /\ (t0 + ttlSeconds * 1000 < t -> (get c t k).1 = None /\ (has c t k).1 = false).
Proof.
  intros Hxs c. unfold c. clear c.
  set (c1 := set (run (constructor cap ttlSeconds) pre) t0 k v).
  set (c := run c1 xs).
  assert (Hnd : NoDup (JsMap.keys (cache c1))).
  { apply (NoDup_exec _ (t0, OpSet k v)), NoDup_run, NoDup_nil_2. }
  assert (Httl : ttl c = ttlSeconds * 1000).
  { transitivity (ttl c1); [apply (config_run c1 xs)|].
    transitivity (ttl (run (constructor cap ttlSeconds) pre));
      [apply (config_exec _ (t0, OpSet k v))|].
    apply (config_run (constructor cap ttlSeconds) pre). }
  destruct (entry_kept_run xs c1 k v t0 Hnd Hxs) as [Hk|[la Hk]].
  { right. exists t0. apply get_after_set. }
  - fold c in Hk. rewrite get_result, has_result, Hk. split; [by left | done].
  - fold c in Hk. rewrite get_result, has_result, Hk. split.
    + destruct (isExpired c t _); [by left | by right].
    + intros Ht.
      assert (isExpired c t (mkEntry v t0 la) = true) as ->; [|done].
      apply isExpired_spec. simpl. lia.
Qed.

Lemma NoDup_filter_keys (P : string * CacheEntry T -> Prop)
    `{!forall x, Decision (P x)} (m : list (string * CacheEntry T)) :
  NoDup (JsMap.keys m) -> NoDup (JsMap.keys (filter P m)).
Proof.
  intros Hnd. unfold JsMap.keys. eapply sublist_NoDup; [exact Hnd|].
  apply fmap_sublist, sublist_filter.
Qed.

Lemma filter_delete (P : string * CacheEntry T -> Prop)
    `{!forall x, Decision (P x)} (m : list (string * CacheEntry T)) k :
  NoDup (JsMap.keys m) ->
  filter P (JsMap.delete k m) = JsMap.delete k (filter P m).
Proof.
  unfold JsMap.keys. induction m as [|[k0 e0] m IH]; [done|].
  simpl. rewrite NoDup_cons. intros [Hk0 Hnd].
  destruct (decide (k0 = k)) as [->|Hne].
  - rewrite filter_cons. destruct (decide (P (k, e0))); simpl.
    + by rewrite decide_True.
    + rewrite JsMapFacts.delete_absent; [done|].
      apply JsMapFacts.get_None_keys. intros Hin. apply Hk0.
      unfold JsMap.keys in Hin. apply list_elem_of_fmap in Hin as [p [-> Hp]].
      apply list_elem_of_fmap. exists p. split; [done|].
      by apply list_elem_of_filter in Hp as [_ ?].
  - rewrite !filter_cons. destruct (decide (P (k0, e0))); simpl.
    + rewrite decide_False by done. by rewrite IH.
    + by apply IH.
Qed.

Lemma filter_reinsert (P : string * CacheEntry T -> Prop)
    `{!forall x, Decision (P x)} (m : list (string * CacheEntry T)) k e :
  NoDup (JsMap.keys m) -> P (k, e) ->
  filter P (JsMap.set k e (JsMap.delete k m))
  = JsMap.set k e (JsMap.delete k (filter P m)).
Proof.
  intros Hnd HP.
  rewrite JsMapFacts.set_absent by (by apply JsMapFacts.get_delete_eq).
  rewrite JsMapFacts.set_absent
    by (by apply JsMapFacts.get_delete_eq, NoDup_filter_keys).
  rewrite filter_app, filter_delete by done.
  by rewrite filter_cons_True, filter_nil by done.
Qed.

(** One operation that is not a [set], made at [ts] or later, answers the
    same on the swept store and on the unswept one, and leaves stores that
    again differ by the sweep only. *)
Lemma swept_exec ts c (x : Z * op T) :
  NoDup (JsMap.keys (cache c)) -> ts <= x.1 -> no_write x ->
  answer (swept ts c) x = answer c x
  /\ exec (swept ts c) x = swept ts (exec c x).
Proof.
  intros Hnd Hts Hx. unfold answer, no_write in *.
  destruct x as [now [k|k v|k| | |]]; unfold exec; cbn [fst snd] in *;
    try done.
  - (* get *)
    unfold get, swept. cbn [cache ttl stats capacity with_cache with_stats].
    rewrite JsMapFacts.get_filter by done.
    destruct (JsMap.get k (cache c)) as [e|] eqn:Hk; [|done].
    unfold isExpired. cbn [ttl with_cache].
    destruct (decide (fresh_at ts (ttl c) (k, e))) as [Hf|Hf].
    + destruct (Z.gtb_spec (now - timestamp e) (ttl c)); cbn [fst snd].
      * split; [done|]. unfold with_stats, with_cache. simpl.
        by rewrite filter_delete.
      * split; [done|]. unfold with_stats, with_cache. simpl.
        by rewrite filter_reinsert.
    + unfold fresh_at in Hf. simpl in Hf.
      destruct (Z.gtb_spec (now - timestamp e) (ttl c)); [|lia].
      cbn [fst snd]. split; [done|]. unfold with_stats, with_cache. simpl.
      rewrite filter_delete by done.
      rewrite (JsMapFacts.delete_absent (filter _ _)); [done|].
      rewrite JsMapFacts.get_filter, Hk by done.
      by rewrite decide_False.
  - (* has *)
    unfold has, swept. cbn [cache ttl stats capacity with_cache with_stats].
    rewrite JsMapFacts.get_filter by done.
    destruct (JsMap.get k (cache c)) as [e|] eqn:Hk; [|done].
    unfold isExpired. cbn [ttl with_cache].
    destruct (decide (fresh_at ts (ttl c) (k, e))) as [Hf|Hf].
    + destruct (Z.gtb_spec (now - timestamp e) (ttl c)); cbn [fst snd].
      * split; [done|]. unfold with_cache. simpl. by rewrite filter_delete.
      * done.
    + unfold fresh_at in Hf. simpl in Hf.
      destruct (Z.gtb_spec (now - timestamp e) (ttl c)); [|lia].
      cbn [fst snd]. split; [done|]. unfold with_cache. simpl.
      rewrite filter_delete by done.
      rewrite (JsMapFacts.delete_absent (filter _ _)); [done|].
      rewrite JsMapFacts.get_filter, Hk by done.
      by rewrite decide_False.
  - (* sweep *)
    split; [done|]. unfold swept, cleanupStaleEntries, keysToDelete.
    cbn [cache ttl with_cache]. unfold with_cache. simpl. f_equal.
    rewrite !(JsMapFacts.foldl_delete_filter
                (fun p => now - timestamp p.2 > ttl c))
      by (done || by apply NoDup_filter_keys).
    rewrite !list_filter_filter. apply list_filter_iff.
    intros p. tauto.
Qed.

Lemma swept_run ts (ys : list (Z * op T)) c :
  NoDup (JsMap.keys (cache c)) ->
  Forall (fun y => ts <= y.1 /\ no_write y) ys ->
  answers (swept ts c) ys = answers c ys
  /\ run (swept ts c) ys = swept ts (run c ys).
Proof.
  revert c. induction ys as [|y ys IH]; intros c Hnd Hys; [done|].
  apply Forall_cons in Hys as [[Hts Hy] Hys].
  destruct (swept_exec ts c y Hnd Hts Hy) as [Ha He].
  destruct (IH (exec c y)) as [IHa IHr]; [by apply NoDup_exec | done |].
  simpl. rewrite Ha, He. split; [by rewrite IHa | done].
Qed.

Lemma sweep_swept ts c :
  NoDup (JsMap.keys (cache c)) -> cleanupStaleEntries c ts = swept ts c.
Proof.
  intros Hnd. unfold swept, cleanupStaleEntries, keysToDelete.
  by rewrite (JsMapFacts.foldl_delete_filter
                (fun p => ts - timestamp p.2 > ttl c)).
Qed.

(** X3.  The background sweep, run at [ts] on any reachable cache,
    removes exactly the entries older than the TTL at [ts], keeps the
    others in their order, and leaves the counters alone.  As long as no
    [set] follows, it cannot be observed: any operations other than [set]
    ([get], [has], [clear], [resetStats], further sweeps, on any keys),
    made at [ts] or later, return the same answers and leave the same
    counters whether the sweep ran or not, and leave stores that differ
    only by the entries the sweep removes.  (A later [set] can tell: see
    [sweep_changes_what_set_evicts].) *)
Theorem sweep_is_invisible (cap ttlSeconds : Z) (xs ys : list (Z * op T))
    (ts : Z) :
  Forall (fun y => ts <= y.1 /\ no_write y) ys ->
  let c := run (constructor cap ttlSeconds) xs in
  let c' := cleanupStaleEntries c ts in
  cache c' = filter (fun p => ¬ (ts - timestamp p.2 > ttl c)) (cache c)
  /\ stats c' = stats c
  /\ answers c' ys = answers c ys
  /\ stats (run c' ys) = stats (run c ys)
  /\ cache (run c' ys)
     = filter (fun p => ¬ (ts - timestamp p.2 > ttl c)) (cache (run c ys)).
Proof.
  intros Hys c c'.
  assert (Hnd : NoDup (JsMap.keys (cache c))) by apply NoDup_run, NoDup_nil_2.
  destruct (swept_run ts ys c Hnd Hys) as [Ha Hr].
  subst c'. rewrite (sweep_swept ts c Hnd), Ha, Hr.
  split_and!; try done.
  unfold swept. cbn [cache with_cache].
  by destruct (config_run c ys) as [_ ->].
Qed.
(** X4.  A [set(k, v)] on a reachable cache that already holds [k], or
    that holds fewer than [capacity] entries, evicts nothing: the counters
    stay as they are, every other key keeps its entry, [k] holds [v]
    stamped with the instant of the call, and the size stays (when [k]
    was there) or grows by one. *)
Theorem set_without_eviction (cap ttlSeconds : Z) (xs : list (Z * op T))
    (now : Z) k (v : T) :
  let c := run (constructor cap ttlSeconds) xs in
  JsMap.has k (cache c) = true \/ size c < capacity c ->
  let c' := set c now k v in
  stats c' = stats c
  /\ (forall k', k' ≠ k -> JsMap.get k' (cache c') = JsMap.get k' (cache c))
  /\ JsMap.get k (cache c') = Some (mkEntry v now now)
  /\ size c' = (if JsMap.has k (cache c) then size c else size c + 1).
Proof.
  intros c Hcase c'.
  assert (Hnd : NoDup (JsMap.keys (cache c))) by apply NoDup_run, NoDup_nil_2.
  split_and!; [| |apply get_after_set|]; subst c'; unfold set, size in *.
  - destruct (JsMap.has k (cache c)); [done|].
    destruct Hcase as [?|Hroom]; [done|].
    destruct (Z.geb_spec (JsMap.size (cache c)) (capacity c)); [lia|done].
  - intros k' Hne. destruct (JsMap.has k (cache c)); simpl.
    + by rewrite JsMapFacts.get_set_ne, JsMapFacts.get_delete_ne.
    + destruct Hcase as [?|Hroom]; [done|].
      destruct (Z.geb_spec (JsMap.size (cache c)) (capacity c)); [lia|].
      simpl. by rewrite JsMapFacts.get_set_ne.
  - destruct (JsMap.has k (cache c)) eqn:Hhas; simpl.
    + unfold JsMap.has in Hhas.
      destruct (JsMap.get k (cache c)) as [e|] eqn:Hk; [|done].
      unfold JsMap.size. by erewrite length_reinsert.
    + destruct Hcase as [?|Hroom]; [done|].
      destruct (Z.geb_spec (JsMap.size (cache c)) (capacity c)); [lia|].
      simpl. apply JsMapFacts.has_false in Hhas.
      rewrite JsMapFacts.set_absent by done. unfold JsMap.size.
      rewrite length_app. simpl. lia.
Qed.

Lemma filter_all_true {A} (P : A -> Prop) `{!forall x, Decision (P x)} (l : list A) :
  Forall P l -> filter P l = l.
Proof.
  induction 1 as [|x l Hx Hl IH]; [done|].
  by rewrite filter_cons_True, IH by done.
Qed.

Lemma keys_delete_filter (m : list (string * CacheEntry T)) k :
  NoDup (JsMap.keys m) ->
  JsMap.keys (JsMap.delete k m) = filter (fun k' => k' ≠ k) (JsMap.keys m).
Proof.
  unfold JsMap.keys. induction m as [|[k0 e0] m IH]; [done|].
  simpl. rewrite NoDup_cons. intros [Hk0 Hnd].
  destruct (decide (k0 = k)) as [->|Hne].
  - rewrite filter_cons_False by tauto.
    rewrite filter_all_true; [done|].
    apply Forall_forall. by intros k' Hk' ->.
  - rewrite filter_cons_True by done. simpl. f_equal. auto.
Qed.

(** X5.  On any reachable cache, [keys()] lists every stored key once,
    [size()] is its length, and its order is the order of use: a [get]
    that returns a value, and a [set] that evicts nothing, move their key
    to the end of the list and leave the order of the other keys as it
    was. *)
Theorem keys_in_order_of_use (cap ttlSeconds : Z) (xs : list (Z * op T)) :
  let c := run (constructor cap ttlSeconds) xs in
  NoDup (keys c)
  /\ size c = Z.of_nat (length (keys c))
  /\ (forall k, k ∈ keys c <-> JsMap.has k (cache c) = true)
  /\ (forall now k v, (get c now k).1 = Some v ->
        keys (get c now k).2 = filter (fun k' => k' ≠ k) (keys c) ++ [k])
  /\ (forall now k v,
        JsMap.has k (cache c) = true \/ size c < capacity c ->
        keys (set c now k v) = filter (fun k' => k' ≠ k) (keys c) ++ [k]).
Proof.
  intros c.
  assert (Hnd : NoDup (JsMap.keys (cache c))) by apply NoDup_run, NoDup_nil_2.
  assert (Hre : forall k e',
    JsMap.keys (JsMap.set k e' (JsMap.delete k (cache c)))
    = filter (fun k' => k' ≠ k) (JsMap.keys (cache c)) ++ [k]).
  { intros k e'. rewrite JsMapFacts.keys_set_absent
      by by apply JsMapFacts.get_delete_eq.
    by rewrite keys_delete_filter. }
  unfold keys, size. split_and!.
  - done.
  - unfold JsMap.size, JsMap.keys. by rewrite length_fmap.
  - intros k. unfold JsMap.has.
    destruct (JsMap.get k (cache c)) as [e|] eqn:Hk.
    + split; [done|]. intros _. apply JsMapFacts.get_Some_elem in Hk.
      apply list_elem_of_fmap. by exists (k, e).
    + apply JsMapFacts.get_None_keys in Hk. split; [done|done].
  - intros now k v. rewrite get_result. unfold get.
    destruct (JsMap.get k (cache c)) as [e|]; [|done].
    destruct (isExpired c now e); [done|]. intros _. simpl. apply Hre.
  - intros now k v Hcase. unfold set.
    destruct (JsMap.has k (cache c)) eqn:Hhas; simpl; [apply Hre|].
    destruct Hcase as [?|Hroom]; [done|].
    destruct (Z.geb_spec (JsMap.size (cache c)) (capacity c)); [lia|]. simpl.
    apply JsMapFacts.has_false in Hhas.
    rewrite JsMapFacts.keys_set_absent by done. f_equal.
    symmetry. apply filter_all_true. apply Forall_forall. intros k' Hk' ->.
    by apply JsMapFacts.get_None_keys in Hhas.
Qed.
End WithValue.

Lemma reads_keep_value_and_deadline_witness :
  let c := run (set (run (constructor 2 1) [(0, OpSet "a" 1)]) 5 "k" 7)
               [(6, OpGet "k"); (7, OpSet "b" 2); (8, OpHas "k");
                (9, OpSweep)] in
  ((get c 10 "k").1 = None \/ (get c 10 "k").1 = Some 7)
  /\ (5 + 1 * 1000 < 10 -> (get c 10 "k").1 = None /\ (has c 10 "k").1 = false).
Proof.
  apply (reads_keep_value_and_deadline 2 1 [(0, OpSet "a" 1)]
           [(6, OpGet "k"); (7, OpSet "b" 2); (8, OpHas "k"); (9, OpSweep)]
           "k" 7 5 10).
  repeat constructor. simpl. discriminate.
Defined.

Lemma sweep_is_invisible_witness :
  let c := run (constructor 2 1) [(0, OpSet "a" 1); (500, OpSet "b" 2)] in
  let c' := cleanupStaleEntries c 1200 in
  let ys := [(1300, OpGet "a"); (1300, OpHas "b"); (1400, OpGet "b");
             (1600, OpSweep); (1700, OpHas "b")] in
  cache c' = filter (fun p => ¬ (1200 - timestamp p.2 > ttl c)) (cache c)
  /\ stats c' = stats c
  /\ answers c' ys = answers c ys
  /\ stats (run c' ys) = stats (run c ys)
  /\ cache (run c' ys)
     = filter (fun p => ¬ (1200 - timestamp p.2 > ttl c)) (cache (run c ys)).
Proof.
  apply (sweep_is_invisible 2 1 [(0, OpSet "a" 1); (500, OpSet "b" 2)]
           [(1300, OpGet "a"); (1300, OpHas "b"); (1400, OpGet "b");
            (1600, OpSweep); (1700, OpHas "b")] 1200).
  repeat constructor; simpl; lia.
Defined.

(** A later [set] can tell: it evicts or not by the size of the store.
    Capacity 2, TTL 1 s; a is set at 0, b at 500, a is read at 600; at
    1100 a is stale.  With the sweep at 1100 the set of c finds room and b
    stays; without it the set evicts the oldest key, which is b. *)
Example sweep_changes_what_set_evicts :
  let c := run (constructor 2 1)
               [(0, OpSet "a" 1); (500, OpSet "b" 2); (600, OpGet "a")] in
  (get (set (cleanupStaleEntries c 1100) 1100 "c" 3) 1100 "b").1 = Some 2
  /\ (get (set c 1100 "c" 3) 1100 "b").1 = None.
Proof. by vm_compute. Qed.
Lemma set_without_eviction_witness :
  let c := run (constructor 2 1) [(0, OpSet "a" 1)] in
  let c' := set c 5 "b" 2 in
  stats c' = stats c
  /\ (forall k', k' ≠ "b"%string ->
        JsMap.get k' (cache c') = JsMap.get k' (cache c))
  /\ JsMap.get "b" (cache c') = Some (mkEntry 2 5 5)
  /\ size c' = (if JsMap.has "b" (cache c) then size c else size c + 1).
Proof.
  apply (set_without_eviction 2 1 [(0, OpSet "a" 1)] 5 "b" 2).
  right. reflexivity.
Defined.
End LRUCacheLaws.

(* ===================================================================== *)
(** * RateLimiter: further properties *)
(* ===================================================================== *)

Module RateLimiterLaws.
Import RateLimiter RateLimiterDefs RateLimiterSpec RateLimiterTraffic.

Lemma truthy_nonempty s : truthy s = true <-> s ≠ ""%string.
Proof. destruct s; simpl; split; congruence. Qed.

(** X6.  [getClientId] never returns the empty string, and it returns
    the first of the forwarded-for header, the real-ip header and the
    socket address that is present and not empty; an empty header counts
    as absent.  With none of the three it returns "unknown". *)
Theorem client_id_is_first_nonempty (req : Request) :
  getClientId req ≠ ""%string
  /\ (forall s, x_forwarded_for req = Some s -> s ≠ ""%string ->
        getClientId req = s)
  /\ (forall s, or_else (x_forwarded_for req) None = None ->
        x_real_ip req = Some s -> s ≠ ""%string -> getClientId req = s)
  /\ (forall s, or_else (x_forwarded_for req) None = None ->
        or_else (x_real_ip req) None = None ->
        remoteAddress req = Some s -> s ≠ ""%string -> getClientId req = s)
  /\ (or_else (x_forwarded_for req) None = None ->
      or_else (x_real_ip req) None = None ->
      or_else (remoteAddress req) None = None ->
      getClientId req = "unknown"%string).
Proof.
  unfold getClientId, or_else.
  destruct req as [[a|] [b|] [d|]]; simpl;
    repeat match goal with
           | |- context [truthy ?s] => destruct s; simpl
           end;
    split_and!; try done; intros; simplify_eq; try done.
Qed.

(** ** The status and the next answer *)

Lemma floor_ge_one (x : Q) : 1 <= Qfloor x <-> (1 <= x)%Q.
Proof.
  split; intros H.
  - eapply Qle_trans; [|apply Qfloor_le].
    change 1%Q with (inject_Z 1). by rewrite <- Zle_Qle.
  - change 1 with (Qfloor 1). by apply Qfloor_resp_le.
Qed.

Lemma consume_answer b :
  (consume b).1 = true <-> 0 < burstTokens b \/ (1 <= tokens b)%Q.
Proof.
  unfold consume. destruct (Z.gtb_spec (burstTokens b) 0) as [Hb|Hb]; simpl.
  - split; [by left | done].
  - destruct (Qle_bool 1 (tokens b)) eqn:Hq; simpl.
    + apply Qle_bool_iff in Hq. split; [by right | done].
    + split; [done|]. intros [?|Hle]; [lia|].
      apply Qle_bool_iff in Hle. congruence.
Qed.

Lemma Qmin_proper (a x y : Q) : (x == y)%Q -> (Qmin a x == Qmin a y)%Q.
Proof.
  intros H. destruct (Q.min_spec a x) as [[? ->]|[? ->]];
    destruct (Q.min_spec a y) as [[? ->]|[? ->]]; lra.
Qed.

Lemma Qmax_proper (a x y : Q) : (x == y)%Q -> (Qmax a x == Qmax a y)%Q.
Proof.
  intros H. destruct (Q.max_spec a x) as [[? ->]|[? ->]];
    destruct (Q.max_spec a y) as [[? ->]|[? ->]]; lra.
Qed.

Lemma Qle_bool_proper (x y : Q) : (x == y)%Q -> Qle_bool 1 x = Qle_bool 1 y.
Proof.
  intros H. destruct (Qle_bool 1 x) eqn:Hx, (Qle_bool 1 y) eqn:Hy; try done.
  - apply Qle_bool_iff in Hx. assert (Qle_bool 1 y = true) by (apply Qle_bool_iff; lra).
    congruence.
  - apply Qle_bool_iff in Hy. assert (Qle_bool 1 x = true) by (apply Qle_bool_iff; lra).
    congruence.
Qed.

Lemma refill_proper rl now b1 b2 :
  same_bucket b1 b2 -> same_bucket (refill rl now b1) (refill rl now b2).
Proof.
  intros (Ht & Hr & Hb & Hl). unfold refill, refillBurstTokens, refillTokens.
  simpl. rewrite Hr, Hl, Hb.
  destruct (now - lastBurstRefill b2 >=? burstWindow rl); unfold same_bucket; simpl;
    (split_and!; [|done..]); apply Qmin_proper; lra.
Qed.

Lemma consume_proper b1 b2 :
  same_bucket b1 b2 ->
  (consume b1).1 = (consume b2).1 /\ same_bucket (consume b1).2 (consume b2).2.
Proof.
  intros (Ht & Hr & Hb & Hl). unfold consume. rewrite Hb.
  destruct (burstTokens b2 >? 0); simpl.
  - split; [done|]. unfold same_bucket. simpl.
    split_and!; [|congruence..]. apply Qmax_proper. lra.
  - rewrite (Qle_bool_proper _ _ Ht).
    destruct (Qle_bool 1 (tokens b2)); simpl.
    + split; [done|]. unfold same_bucket. simpl. split_and!; [lra|congruence..].
    + done.
Qed.

(** A refill at the instant of the last one changes nothing but the way
    the tokens are written. *)
Lemma refill_again rl now b :
  same_bucket (refill rl now (refill rl now b)) (refill rl now b).
Proof.
  unfold refill at 1. unfold refillTokens at 1.
  rewrite refill_stamp, Z.sub_diag. unfold refillBurstTokens at 1. cbn [lastBurstRefill tokens lastRefill burstTokens].
  assert (Htok : (Qmin (maxTokens rl)
                    (tokens (refill rl now b) + inject_Z 0 * refillRate rl)
                  == tokens (refill rl now b))%Q).
  { assert (tokens (refill rl now b) <= maxTokens rl)%Q.
    { unfold refill, refillBurstTokens, refillTokens. simpl.
      destruct (now - lastBurstRefill b >=? burstWindow rl); simpl; apply Q.le_min_l. }
    change (inject_Z 0) with 0%Q.
    rewrite Q.min_r; lra. }
  assert (Hstay :
    (now - lastBurstRefill (refill rl now b) >=? burstWindow rl) = true ->
    burstTokens (refill rl now b) = burstCapacity rl
    /\ lastBurstRefill (refill rl now b) = now).
  { unfold refill, refillBurstTokens, refillTokens. simpl.
    destruct (Z.geb_spec (now - lastBurstRefill b) (burstWindow rl)); simpl; [done|].
    intros Hge. apply Z.geb_le in Hge. lia. }
  destruct (now - lastBurstRefill (refill rl now b) >=? burstWindow rl) eqn:Hw;
    unfold same_bucket; simpl.
  - destruct (Hstay eq_refl) as [-> ->]. by rewrite refill_stamp.
  - by rewrite refill_stamp.
Qed.

(** X7.  The status of a client tells what [allowRequest] would answer
    at that instant: the request is admitted exactly when the status shows
    a burst token or at least one steady token.  And asking for the
    status does not change that answer. *)
Theorem status_tells_next_answer rl now req :
  let c := getClientId req in
  let st := getStatus rl now req in
  ((allowRequest rl now c).1 = true
   <-> 0 < burstRemaining st.1 \/ 1 <= remaining st.1)
  /\ (allowRequest st.2 now c).1 = (allowRequest rl now c).1.
Proof.
  intros c st. subst st. rewrite getStatus_refill. fold c.
  cbn [fst snd remaining burstRemaining].
  set (b := refill rl now (bucket_of rl now c)).
  split.
  - rewrite allowRequest_consume. fold b. cbn [fst].
    by rewrite consume_answer, floor_ge_one.
  - rewrite (allowRequest_consume (store rl c b)), bucket_of_store.
    rewrite (allowRequest_consume rl). fold b. cbn [fst].
    change (refill (store rl c b) now b) with (refill rl now b).
    apply consume_proper, refill_again.
Qed.

(** ** Buckets stay within their bounds *)

Lemma sane_constructor (m : gmap string TokenBucket) :
  sane (with_buckets constructor m).
Proof. unfold sane. simpl. split_and!; [done|done|lia]. Qed.

Lemma exec_buckets rl x : exec rl x = with_buckets rl (buckets (exec rl x)).
Proof.
  destruct x as [now [c|req|]]; unfold exec; cbn [fst snd].
  - by rewrite allowRequest_consume.
  - by rewrite getStatus_refill.
  - done.
Qed.

Lemma run_buckets xs rl : run rl xs = with_buckets rl (buckets (run rl xs)).
Proof.
  revert rl. induction xs as [|x xs IH]; intros rl; simpl.
  - by destruct rl.
  - rewrite IH. by rewrite (exec_buckets rl x).
Qed.

Lemma ok_later rl tl now b : tl <= now -> bucket_ok rl tl b -> bucket_ok rl now b.
Proof. unfold bucket_ok. intros ? (?&?&?&?). split_and!; try done; lia. Qed.

Lemma ok_refill rl tl now b :
  sane rl -> tl <= now -> bucket_ok rl tl b -> bucket_ok rl now (refill rl now b).
Proof.
  intros (Hm & Hr & Hc) Hle (H0 & H1 & Hb & Hs).
  unfold bucket_ok, refill, refillBurstTokens, refillTokens. simpl.
  assert (Hdt : (0 <= inject_Z (now - lastRefill b))%Q).
  { change 0%Q with (inject_Z 0). rewrite <- Zle_Qle. lia. }
  assert (Hadd : (0 <= inject_Z (now - lastRefill b) * refillRate rl)%Q)
    by by apply Qmult_le_0_compat.
  assert (Hmin : (0 <= Qmin (maxTokens rl)
                         (tokens b + inject_Z (now - lastRefill b) * refillRate rl))%Q).
  { apply Q.min_glb; lra. }
  destruct (now - lastBurstRefill b >=? burstWindow rl); simpl;
    split_and!; try done; try apply Q.le_min_l; lia.
Qed.

Lemma ok_consume rl now b : bucket_ok rl now b -> bucket_ok rl now (consume b).2.
Proof.
  intros (H0 & H1 & Hb & Hs). unfold consume.
  destruct (Z.gtb_spec (burstTokens b) 0); simpl.
  - unfold bucket_ok. simpl. split_and!; try done; try lia.
    + apply Q.le_max_l.
    + apply Q.max_lub; lra.
  - destruct (Qle_bool 1 (tokens b)) eqn:Hq; simpl; [|done].
    apply Qle_bool_iff in Hq. unfold bucket_ok. simpl.
    split_and!; try done; try lia; lra.
Qed.

Lemma ok_bucket_of rl tl now c :
  sane rl -> tl <= now ->
  map_Forall (fun _ b => bucket_ok rl tl b) (buckets rl) ->
  bucket_ok rl now (bucket_of rl now c).
Proof.
  intros (Hm & Hr & Hc) Hle Hall. unfold bucket_of, getBucket.
  destruct (buckets rl !! c) as [b|] eqn:Hb; simpl.
  - eapply ok_later; [done|]. by eapply Hall.
  - unfold bucket_ok. simpl. split_and!; try done; try lia. lra.
Qed.

Lemma ok_exec rl tl now (x : call) :
  sane rl -> tl <= now ->
  map_Forall (fun _ b => bucket_ok rl tl b) (buckets rl) ->
  map_Forall (fun _ b => bucket_ok rl now b) (buckets (exec rl (now, x))).
Proof.
  intros Hs Hle Hall.
  assert (Hall' : map_Forall (fun _ b => bucket_ok rl now b) (buckets rl)).
  { intros c b Hb. eapply ok_later; [done|]. by eapply Hall. }
  destruct x as [c|req|]; unfold exec; cbn [fst snd].
  - rewrite allowRequest_consume. simpl. apply map_Forall_insert_2; [|done].
    apply ok_consume. eapply ok_refill; [done|reflexivity|].
    by eapply ok_bucket_of.
  - rewrite getStatus_refill. simpl. apply map_Forall_insert_2; [|done].
    eapply ok_refill; [done|reflexivity|]. by eapply ok_bucket_of.
  - simpl. intros c b Hb. apply map_lookup_filter_Some in Hb as [Hb _].
    by eapply Hall'.
Qed.

Lemma ok_run xs rl tl :
  sane rl -> map_Forall (fun _ b => bucket_ok rl tl b) (buckets rl) ->
  StronglySorted Z.le (tl :: xs.*1) ->
  exists tl', map_Forall (fun _ b => bucket_ok rl tl' b) (buckets (run rl xs)).
Proof.
  revert rl tl. induction xs as [|[now x] xs IH]; intros rl tl Hs Hall Hsorted.
  - by exists tl.
  - simpl in Hsorted. apply StronglySorted_inv in Hsorted as [Hsorted Hle].
    apply Forall_cons in Hle as [Hle _].
    pose proof (ok_exec rl tl now x Hs Hle Hall) as Hall'.
    simpl. rewrite (exec_buckets rl (now, x)) in *.
    destruct (IH (with_buckets rl (buckets (exec rl (now, x)))) now)
      as [tl' Htl']; try done.
    by exists tl'.
Qed.

(** X8.  However the limiter is driven (requests, status queries,
    cleanups, for any clients), as long as the clock does not go back,
    every bucket it holds has between 0 and 10 steady tokens and between
    0 and 5 burst tokens. *)
Theorem buckets_stay_in_bounds (xs : list (Z * call)) (c : string) (b : TokenBucket) :
  StronglySorted Z.le xs.*1 ->
  buckets (run constructor xs) !! c = Some b ->
  (0 <= tokens b)%Q /\ (tokens b <= 10)%Q
  /\ 0 <= burstTokens b <= 5.
Proof.
  intros Hsorted Hb.
  destruct xs as [|[now x] xs]; [done|].
  destruct (ok_run ((now, x) :: xs) constructor now) as [tl' Hall].
  - apply (sane_constructor ∅).
  - done.
  - simpl in *. constructor; [done|].
    apply StronglySorted_inv in Hsorted as [_ Hall]. constructor; [lia|done].
  - destruct (Hall c b Hb) as (H0 & H1 & H2 & H3 & _). done.
Qed.

(** ** One client at a time *)

Lemma allowRequest_lookup (rl : t) (m : gmap string TokenBucket) now c :
  allowRequest (with_buckets rl m) now c
  = ((consume (refill rl now (bucket_of (with_buckets rl m) now c))).1,
     with_buckets rl
       (<[c := (consume (refill rl now (bucket_of (with_buckets rl m) now c))).2]> m)).
Proof. by rewrite allowRequest_consume. Qed.

Lemma bucket_of_lookup (rl : t) (m1 m2 : gmap string TokenBucket) now c :
  m1 !! c = m2 !! c ->
  bucket_of (with_buckets rl m1) now c = bucket_of (with_buckets rl m2) now c.
Proof.
  intros H. unfold bucket_of, getBucket. simpl. rewrite H.
  by destruct (m2 !! c).
Qed.

Lemma serve_alone (rl : t) reqs (m1 m2 : gmap string TokenBucket) c :
  m1 !! c = m2 !! c ->
  filter (fun a => a.1 = c) (serve (with_buckets rl m1) reqs).1
  = (serve (with_buckets rl m2) (filter (fun r => r.2 = c) reqs)).1.
Proof.
  revert m1 m2. induction reqs as [|[now c'] reqs IH]; intros m1 m2 Hm; [done|].
  simpl. rewrite allowRequest_lookup.
  destruct (decide (c' = c)) as [->|Hne].
  - rewrite filter_cons_True by done. simpl. rewrite allowRequest_lookup.
    rewrite (bucket_of_lookup rl m1 m2 now c Hm).
    set (b := consume (refill rl now (bucket_of (with_buckets rl m2) now c))).
    specialize (IH (<[c := b.2]> m1) (<[c := b.2]> m2)).
    destruct (serve (with_buckets rl (<[c := b.2]> m1)) reqs) as [l1 r1].
    destruct (serve (with_buckets rl (<[c := b.2]> m2)) _) as [l2 r2].
    simpl in *. rewrite filter_cons_True by done. f_equal.
    apply IH. by rewrite !lookup_insert_eq.
  - rewrite filter_cons_False by done.
    set (b := consume (refill rl now (bucket_of (with_buckets rl m1) now c'))).
    specialize (IH (<[c' := b.2]> m1) m2).
    destruct (serve (with_buckets rl (<[c' := b.2]> m1)) reqs) as [l1 r1].
    simpl in *. rewrite filter_cons_False by done.
    apply IH. by rewrite lookup_insert_ne.
Qed.

(** X9.  Clients do not interfere: the answers a client gets on a
    stream of requests are the answers it would get if the requests of
    all other clients were not there. *)
Theorem clients_do_not_interfere (xs : list (Z * call)) (reqs : list (Z * string))
    (c : string) :
  let rl := run constructor xs in
  filter (fun a => a.1 = c) (serve rl reqs).1
  = (serve rl (filter (fun r => r.2 = c) reqs)).1.
Proof.
  intros rl. rewrite (run_buckets xs constructor : rl = _).
  by apply serve_alone.
Qed.

(** X10.  The burst pool alone admits: a request of a client without a
    bucket, or of one whose burst window started 10 s ago or earlier, is
    admitted whatever the state of its steady pool, also when that is
    empty. *)
Theorem admitted_when_burst_window_is_over
    (m : gmap string TokenBucket) (now : Z) (c : string) :
  (m !! c = None \/ exists b, m !! c = Some b /\ lastBurstRefill b + 10 * 1000 <= now) ->
  (allowRequest (with_buckets constructor m) now c).1 = true.
Proof.
  intros Hc. rewrite allowRequest_consume. cbn [fst].
  apply consume_answer. left.
  unfold refill, refillBurstTokens, refillTokens, bucket_of, getBucket. simpl.
  destruct Hc as [->|(b & -> & Hb)]; simpl.
  - destruct (now - now >=? 10 * 1000); simpl; lia.
  - destruct (Z.geb_spec (now - lastBurstRefill b) (10 * 1000)); simpl; lia.
Qed.

(** ** Rested buckets and the cleanup *)

Lemma same_bucket_refl b : same_bucket b b.
Proof. unfold same_bucket. split_and!; try done. Qed.

Lemma refill_rested (m : gmap string TokenBucket) t0 now b :
  t0 <= now -> rested t0 b ->
  same_bucket
    (refill constructor now
       {| tokens := 10; lastRefill := now; burstTokens := 5;
          lastBurstRefill := now |})
    (refill constructor now b).
Proof.
  intros Hle (H0 & Hs & Hr).
  unfold refill, refillBurstTokens, refillTokens. simpl.
  rewrite Z.sub_diag.
  destruct (Z.geb_spec 0 (10 * 1000)) as [|_]; [lia|].
  destruct (Z.geb_spec (now - lastBurstRefill b) (10 * 1000)) as [_|]; [|lia].
  unfold same_bucket. simpl. split_and!; try done.
  assert (Hdt : (inject_Z (60 * 1000) <= inject_Z (now - lastRefill b))%Q).
  { rewrite <- Zle_Qle. lia. }
  change (inject_Z (60 * 1000)) with (60000 # 1)%Q in Hdt.
  change (inject_Z 0) with 0%Q.
  rewrite !Q.min_l.
  - reflexivity.
  - set (dt := inject_Z (now - lastRefill b)) in *.
    assert (Hrate : (10 / (60 * 1000) == 1 # 6000)%Q) by reflexivity.
    rewrite Hrate. lra.
  - assert (Hrate : (10 / (60 * 1000) == 1 # 6000)%Q) by reflexivity.
    rewrite Hrate. lra.
Qed.

Lemma refill_alike (m1 m2 : gmap string TokenBucket) t0 now c :
  t0 <= now -> alike t0 (m1 !! c) (m2 !! c) ->
  same_bucket
    (refill constructor now (bucket_of (with_buckets constructor m1) now c))
    (refill constructor now (bucket_of (with_buckets constructor m2) now c)).
Proof.
  intros Hle Hc. unfold bucket_of, getBucket. cbn [buckets with_buckets].
  destruct (m1 !! c) as [b1|], (m2 !! c) as [b2|]; simpl in Hc; cbn [fst].
  - by apply refill_proper.
  - done.
  - by eapply (refill_rested m1).
  - apply same_bucket_refl.
Qed.

Lemma serve_alike (m1 m2 : gmap string TokenBucket) t0 reqs :
  (forall c, alike t0 (m1 !! c) (m2 !! c)) ->
  Forall (fun r => t0 <= r.1) reqs ->
  (serve (with_buckets constructor m1) reqs).1
  = (serve (with_buckets constructor m2) reqs).1.
Proof.
  revert m1 m2. induction reqs as [|[now c] reqs IH]; intros m1 m2 Hm Hreqs;
    [done|].
  apply Forall_cons in Hreqs as [Hnow Hreqs]. simpl in Hnow.
  simpl. rewrite !allowRequest_lookup.
  change (refill (with_buckets constructor ?m) ?n ?b)
    with (refill constructor n b).
  pose proof (refill_alike m1 m2 t0 now c Hnow (Hm c)) as Hb.
  apply consume_proper in Hb as [Ha Hb].
  set (b1 := consume (refill constructor now
                        (bucket_of (with_buckets constructor m1) now c))) in *.
  set (b2 := consume (refill constructor now
                        (bucket_of (with_buckets constructor m2) now c))) in *.
  specialize (IH (<[c := b1.2]> m1) (<[c := b2.2]> m2)).
  destruct (serve (with_buckets constructor (<[c := b1.2]> m1)) reqs) as [l1 r1].
  destruct (serve (with_buckets constructor (<[c := b2.2]> m2)) reqs) as [l2 r2].
  simpl in *. rewrite Ha. f_equal. apply IH; [|done].
  intros c'. destruct (decide (c' = c)) as [->|Hne].
  - by rewrite !lookup_insert_eq.
  - rewrite !lookup_insert_ne by done. apply Hm.
Qed.

Lemma reachable_ok xs c b :
  StronglySorted Z.le xs.*1 ->
  buckets (run constructor xs) !! c = Some b ->
  exists tl, bucket_ok constructor tl b.
Proof.
  intros Hsorted Hb.
  destruct xs as [|[now x] xs]; [done|].
  destruct (ok_run ((now, x) :: xs) constructor now) as [tl' Hall].
  - apply (sane_constructor ∅).
  - done.
  - simpl in *. constructor; [done|].
    apply StronglySorted_inv in Hsorted as [_ Hall]. constructor; [lia|done].
  - exists tl'. by apply (Hall c b).
Qed.

(** X11.  The cleanup cannot be observed: after any history with a
    clock that does not go back, the requests that arrive at the time of a
    cleanup or later get the same answers whether the cleanup ran or not.
    A bucket it drops has been idle for more than five minutes, and is by
    then as full as the new bucket that replaces it. *)
Theorem cleanup_is_invisible (xs : list (Z * call)) (tc : Z)
    (reqs : list (Z * string)) :
  StronglySorted Z.le xs.*1 ->
  Forall (fun r => tc <= r.1) reqs ->
  (serve (cleanup (run constructor xs) tc) reqs).1
  = (serve (run constructor xs) reqs).1.
Proof.
  intros Hsorted Hreqs.
  pose proof (reachable_ok xs) as Hok. specialize (fun c b => Hok c b Hsorted).
  pose proof (run_buckets xs constructor) as Hrun.
  set (m := buckets (run constructor xs)) in *. rewrite Hrun. clear Hrun.
  unfold cleanup.
  change (with_buckets (with_buckets constructor m) ?m') with
    (with_buckets constructor m').
  apply (serve_alike _ _ tc); [|done].
  intros c. cbn [buckets with_buckets]. unfold alike.
  destruct (m !! c) as [b|] eqn:Hb.
  - destruct (Hok c b Hb) as (tl & H0 & _ & _ & Hs & _).
    destruct (decide (tc - lastRefill b > 5 * 60 * 1000)) as [Hold|Hyoung].
    + assert (filter (fun kb : string * TokenBucket =>
                ~ (tc - lastRefill kb.2 > 5 * 60 * 1000)) m !! c = None) as ->.
      { apply map_lookup_filter_None. right. intros b' Hb'. simplify_eq.
        simpl. tauto. }
      unfold rested. split_and!; try done; lia.
    + assert (filter (fun kb : string * TokenBucket =>
                ~ (tc - lastRefill kb.2 > 5 * 60 * 1000)) m !! c = Some b) as ->.
      { by apply map_lookup_filter_Some. }
      apply same_bucket_refl.
  - assert (filter (fun kb : string * TokenBucket =>
              ~ (tc - lastRefill kb.2 > 5 * 60 * 1000)) m !! c = None) as ->; [|done].
    apply map_lookup_filter_None. by left.
Qed.

Lemma admitted_serve rl now c n :
  (admitted rl now c n).1 = (serve rl (replicate n (now, c))).1.*2.
Proof.
  revert rl. induction n as [|n IH]; intros rl; simpl; [done|].
  destruct (allowRequest rl now c) as [a rl1]. specialize (IH rl1).
  destruct (admitted rl1 now c n) as [l rl2].
  destruct (serve rl1 (replicate n (now, c))) as [l' rl3].
  simpl in *. by rewrite IH.
Qed.

(** X12.  A client whose bucket was last refilled a minute ago or
    earlier has its full allowance back, whatever it had used: of [n]
    requests arriving at one instant, exactly the first ten are
    admitted. *)
Theorem rested_client_gets_full_allowance (xs : list (Z * call)) (c : string)
    (b : TokenBucket) (now : Z) (n : nat) :
  StronglySorted Z.le xs.*1 ->
  buckets (run constructor xs) !! c = Some b ->
  lastRefill b + 60 * 1000 <= now ->
  (admitted (run constructor xs) now c n).1
  = replicate (Nat.min n 10) true ++ replicate (n - 10) false.
Proof.
  intros Hsorted Hb Hnow.
  destruct (reachable_ok xs c b Hsorted Hb) as (tl & H0 & _ & _ & Hs & _).
  pose proof (run_buckets xs constructor) as Hrun.
  set (m := buckets (run constructor xs)) in *. rewrite Hrun. clear Hrun.
  rewrite admitted_serve.
  rewrite <- (serve_alike (delete c m) m now).
  - rewrite <- admitted_serve, <- instants_full.
    rewrite <- (admitted_instants (delete c m) now c n (10%Q, 5)).
    destruct n as [|n]; [done|]. simpl.
    rewrite allowRequest_first; [done|]. apply lookup_delete_eq.
  - intros c'. destruct (decide (c' = c)) as [->|Hne].
    + rewrite lookup_delete_eq, Hb. simpl. unfold rested. split_and!; done.
    + rewrite lookup_delete_ne by done. unfold alike.
      destruct (m !! c'); [apply same_bucket_refl | done].
  - apply Forall_replicate. simpl. lia.
Qed.

(** X13.  The middleware trusts the forwarded-for header: a request
    whose header names an address that has no bucket is handed on,
    whatever the state of the bucket of the socket address it came
    from. *)
Theorem new_forwarded_address_is_never_limited
    (xs : list (Z * call)) (now : Z) (req : Request) (s : string) :
  x_forwarded_for req = Some s ->
  s ≠ ""%string ->
  buckets (run constructor xs) !! s = None ->
  (middleware (run constructor xs) now req).1 = Next.
Proof.
  intros Hf Hs Hnone. unfold middleware.
  assert (getClientId req = s) as ->.
  { unfold getClientId, or_else. rewrite Hf.
    by rewrite (proj2 (truthy_nonempty s) Hs). }
  rewrite (run_buckets xs constructor) in Hnone |- *.
  set (m := buckets (run constructor xs)) in *. simpl in Hnone.
  rewrite allowRequest_consume.
  assert ((consume (refill (with_buckets constructor m) now
                      (bucket_of (with_buckets constructor m) now s))).1 = true)
    as ->; [|done].
  apply consume_answer. left.
  unfold refill, refillBurstTokens, refillTokens, bucket_of, getBucket. simpl.
  rewrite Hnone. simpl.
  destruct (now - now >=? 10 * 1000); simpl; lia.
Qed.

Lemma buckets_stay_in_bounds_witness :
  let b := {| tokens := 9; lastRefill := 6000; burstTokens := 3;
              lastBurstRefill := 0 |} in
  (0 <= tokens b)%Q /\ (tokens b <= 10)%Q
  /\ 0 <= burstTokens b <= 5.
Proof.
  apply (buckets_stay_in_bounds [(0, Admit "a"); (6000, Admit "a")] "a"
           {| tokens := 9; lastRefill := 6000; burstTokens := 3;
              lastBurstRefill := 0 |}).
  - repeat constructor. simpl. lia.
  - vm_compute. reflexivity.
Defined.

Lemma admitted_when_burst_window_is_over_witness :
  (allowRequest
     (with_buckets constructor
        {[ "a"%string := {| tokens := 0; lastRefill := 9000; burstTokens := 0;
                            lastBurstRefill := 0 |} ]})
     10000 "a").1 = true.
Proof.
  apply (admitted_when_burst_window_is_over
           {[ "a"%string := {| tokens := 0; lastRefill := 9000;
                               burstTokens := 0; lastBurstRefill := 0 |} ]}
           10000 "a").
  right. eexists. split; [vm_compute; reflexivity | simpl; lia].
Defined.

Lemma cleanup_is_invisible_witness :
  (serve (cleanup (run constructor [(0, Admit "a"); (1000, Admit "b")]) 400000)
         [(400000, "a"%string); (400001, "b"%string)]).1
  = (serve (run constructor [(0, Admit "a"); (1000, Admit "b")])
           [(400000, "a"%string); (400001, "b"%string)]).1.
Proof.
  apply (cleanup_is_invisible [(0, Admit "a"); (1000, Admit "b")] 400000
           [(400000, "a"%string); (400001, "b"%string)]).
  - repeat constructor. simpl. lia.
  - repeat constructor; simpl; lia.
Defined.

Lemma rested_client_gets_full_allowance_witness :
  (admitted (run constructor [(0, Admit "a"); (0, Admit "a")]) 60000 "a" 12).1
  = replicate (Nat.min 12 10) true ++ replicate (12 - 10) false.
Proof.
  apply (rested_client_gets_full_allowance [(0, Admit "a"); (0, Admit "a")] "a"
           {| tokens := 480000 # 60000; lastRefill := 0; burstTokens := 3;
              lastBurstRefill := 0 |} 60000 12).
  - repeat constructor. simpl. lia.
  - vm_compute. reflexivity.
  - simpl. lia.
Defined.

Lemma new_forwarded_address_is_never_limited_witness :
  (middleware (run constructor (replicate 12 (0, Admit "10.0.0.1"))) 0
     {| x_forwarded_for := Some "1.2.3.4"%string; x_real_ip := None;
        remoteAddress := Some "10.0.0.1"%string |}).1 = Next.
Proof.
  apply (new_forwarded_address_is_never_limited
           (replicate 12 (0, Admit "10.0.0.1")) 0
           {| x_forwarded_for := Some "1.2.3.4"%string; x_real_ip := None;
              remoteAddress := Some "10.0.0.1"%string |} "1.2.3.4").
  - reflexivity.
  - discriminate.
  - vm_compute. reflexivity.
Defined.
End RateLimiterLaws.

(* ===================================================================== *)
(** * AsyncQueue: further properties *)
(* ===================================================================== *)

Module AsyncQueueLaws.
Import AsyncQueue AsyncQueueDefs AsyncQueueSpec.

(** ** The promise ledger *)

Lemma enqueue_promises w i task :
  outstanding (enqueue w i task).2 ≡ₚ nextPromise w :: outstanding w
  /\ settled (enqueue w i task).2 = settled w
  /\ nextPromise (enqueue w i task).2 = S (nextPromise w).
Proof.
  unfold enqueue. simpl.
  destruct (decide (i ∈ processing (aq w))); simpl.
  - split; [|done]. exact (outstanding_push w i task (nextPromise w)).
  - destruct (activeCount (aq w) <? concurrencyLimit (aq w)); simpl.
    + split; [|done]. unfold outstanding. simpl. rewrite fmap_app. simpl.
      rewrite <- app_assoc. simpl. symmetry. apply Permutation_middle.
    + split; [|done].
      exact (outstanding_push
               (with_aq w {| queue := queue (aq w);
                             processing := {[i]} ∪ processing (aq w);
                             concurrencyLimit := concurrencyLimit (aq w);
                             activeCount := activeCount (aq w) |})
               i task (nextPromise w)).
Qed.

Lemma settle_promises w p o t0 others :
  Inv w -> take p (running w) = Some (t0, others) ->
  outstanding w
  ≡ₚ (p :: waiting w (id t0)) ++ outstanding (step w (Settle p o))
  /\ settled (step w (Settle p o))
     = settled w ++ map (fun q => (q, o)) (p :: waiting w (id t0))
  /\ nextPromise (step w (Settle p o)) = nextPromise w.
Proof.
  intros HI Htake. rewrite (step_settle w p o t0 others HI Htake).
  destruct (take_Some _ _ _ _ Htake) as [Hp Hrun]. subst p.
  unfold waiting.
  set (ws := default [] (JsMap.get (id t0) (queue (aq w)))).
  split_and!; [|done..].
  assert (Hq : qtasks (queue (aq w))
               ≡ₚ ws ++ qtasks (JsMap.delete (id t0) (queue (aq w)))).
  { subst ws.
    destruct (JsMap.get (id t0) (queue (aq w))) as [ts|] eqn:Hget.
    - by apply qtasks_delete.
    - simpl. by rewrite qtasks_delete_absent. }
  unfold outstanding. simpl. rewrite Hrun, Hq, fmap_cons, fmap_app.
  constructor.
  apply Permutation_app_swap_app.
Qed.

Lemma promise_ledger_step w ev lost :
  Inv w ->
  settled_promises w ++ outstanding w ++ lost ≡ₚ seq 0 (nextPromise w) ->
  exists lost',
    settled_promises (step w ev) ++ outstanding (step w ev) ++ lost'
    ≡ₚ seq 0 (nextPromise (step w ev))
    /\ (ev ≠ Clear -> lost' = lost).
Proof.
  intros HI Hled. destruct ev as [i task|p o|].
  - exists lost. split; [|done].
    destruct (enqueue_promises w i task) as (Hout & Hset & Hnext).
    simpl. unfold settled_promises. rewrite Hset, Hout, Hnext.
    rewrite seq_S. simpl. fold (settled_promises w). rewrite <- Hled.
    rewrite <- Permutation_middle, <- Permutation_cons_append. done.
  - exists lost. split; [|done].
    destruct (take p (running w)) as [[t0 others]|] eqn:Htake.
    + destruct (settle_promises w p o t0 others HI Htake) as (Hout & Hset & Hnext).
      unfold settled_promises at 1. rewrite Hset, Hnext, fmap_app, fst_batch.
      fold (settled_promises w). rewrite <- Hled, Hout.
      by rewrite <- !(assoc (++)).
    + simpl. by rewrite Htake.
  - exists ((promise <$> qtasks (queue (aq w))) ++ lost). split; [|done].
    simpl. rewrite <- Hled. unfold outstanding. simpl.
    unfold settled_promises. simpl.
    by rewrite app_nil_r, <- !(assoc (++)).
Qed.

Lemma promise_ledger_run evs w lost :
  Inv w ->
  settled_promises w ++ outstanding w ++ lost ≡ₚ seq 0 (nextPromise w) ->
  exists lost',
    settled_promises (run w evs) ++ outstanding (run w evs) ++ lost'
    ≡ₚ seq 0 (nextPromise (run w evs))
    /\ (Clear ∉ evs -> lost' = lost).
Proof.
  revert w lost. induction evs as [|ev evs IH]; intros w lost HI Hled.
  - by exists lost.
  - destruct (promise_ledger_step w ev lost HI Hled) as (lost1 & Hled1 & Hsame1).
    destruct (IH (step w ev) lost1 (Inv_step w ev HI) Hled1)
      as (lost2 & Hled2 & Hsame2).
    exists lost2. split; [done|]. intros Hclear.
    rewrite Hsame2, Hsame1; [done| |].
    + intros ->. apply Hclear. by left.
    + intros Hin. apply Hclear. by right.
Qed.

(** X14.  Promises are accounted for.  After any sequence of calls of
    [enqueue] and [clear] and of fetch completions, the promises that
    [enqueue] has returned so far are, each exactly once, either settled,
    or still held by a suspended [processTask] call or a waiting task, or
    lost; so no promise is settled twice, and none is both settled and
    still held.  Without a call of [clear] none is lost. *)
Theorem promises_are_accounted_for (K : Z) (evs : list event) :
  exists lost : list nat,
    settled_promises (run (constructor K) evs)
      ++ outstanding (run (constructor K) evs) ++ lost
    ≡ₚ seq 0 (nextPromise (run (constructor K) evs))
    /\ (Clear ∉ evs -> lost = []).
Proof.
  apply promise_ledger_run; [apply Inv_constructor | done].
Qed.

(** ** Starvation *)

Lemma stuck_enqueue_waits w k task :
  Inv w -> k ∈ processing (aq w) ->
  waits_under (enqueue w k task).2 k (enqueue w k task).1.
Proof.
  intros HI Hk. unfold enqueue. simpl. rewrite decide_True by done. simpl.
  pose proof (inv_fresh w HI) as Hf. unfold outstanding in Hf.
  apply Forall_app in Hf as [Hfr Hfq].
  split_and!; simpl.
  - intros Hin. pose proof (inv_settled w HI) as Hs.
    eapply Forall_forall in Hs; [|exact Hin]. simpl in Hs. lia.
  - intros Hin. eapply Forall_forall in Hfr; [|exact Hin]. simpl in Hfr. lia.
  - lia.
  - apply JsMapFacts.Forall_set; simpl.
    + apply Forall_forall. intros e He. apply Forall_forall. intros t0 Ht0 Hp.
      exfalso. eapply Forall_forall in Hfq.
      * simpl in Hfq. rewrite <- Hp in Hfq. apply (Nat.lt_irrefl _ Hfq).
      * apply list_elem_of_fmap. exists t0. split; [done|].
        by eapply elem_of_qtasks.
    + apply Forall_forall. by intros.
Qed.

Lemma stuck_callers evs w k p :
  Inv w -> stuck w k -> waits_under w k p ->
  Forall (fun q => settlement (run w evs) q = None) (callers k w evs).
Proof.
  revert w p. induction evs as [|ev evs IH]; intros w p HI Hst Hw; simpl.
  - constructor.
  - destruct (stuck_step w ev k p HI Hst Hw) as (Hst' & Hw' & _).
    pose proof (Inv_step w ev HI) as HI'.
    apply Forall_app. split; [|by eapply IH].
    destruct ev as [i task|p' o|]; try by constructor.
    destruct (decide (i = k)) as [->|Hne]; [|by constructor].
    constructor; [|constructor].
    eapply (stuck_run evs (step w (Enqueue k task)) k); [done..|].
    apply stuck_enqueue_waits; [done | apply Hst].
Qed.

Lemma callers_length k w task n :
  length (callers k w (replicate n (Enqueue k task))) = n.
Proof.
  revert w. induction n as [|n IH]; intros w; simpl; [done|].
  rewrite decide_True by done. simpl. by rewrite IH.
Qed.

(** C1, on the failing input.  Limit 1; a fetch for "a" takes the slot; a
    call for "k" arrives, is marked and parked; the fetch for "a"
    completes.  Now the slot is free and nothing is in flight, yet "k" is
    still marked: of any number of callers for "k" that arrive then, none
    has its fetch function called, and whatever happens later none of
    their promises is settled.  The call counter stays 0 where single
    flight asks for 1. *)
Theorem stale_mark_defeats_single_flight (n : nat) (post : list event) :
  let w := run (constructor 1)
               [Enqueue "a" 0; Enqueue "k" 1; Settle 0 (Fulfilled "A")] in
  let arrivals := replicate (S n) (Enqueue "k" 2%nat) in
  activeCount (aq w) = 0
  /\ concurrencyLimit (aq w) = 1
  /\ running w = []
  /\ length (callers "k" w arrivals) = S n
  /\ calls (run w arrivals) = calls w
  /\ callCount (run w (arrivals ++ post)) "k" = 0%nat
  /\ Forall (fun p => settlement (run w (arrivals ++ post)) p = None)
            (callers "k" w arrivals).
Proof.
  intros w arrivals.
  set (w0 := run (constructor 1) [Enqueue "a" 0]).
  assert (HI0 : Inv w0) by apply Inv_run, Inv_constructor.
  assert (Hk : "k" ∉ processing (aq w0))
    by (apply (bool_decide_eq_false_1 ("k" ∈ processing (aq w0)));
        by vm_compute).
  destruct (saturated_enqueue_is_stuck w0 "k" 1 HI0 Hk) as [Hst Hw];
    [by vm_compute|].
  pose proof (Inv_enqueue w0 "k" 1 HI0) as HI1.
  destruct (stuck_step _ (Settle 0 (Fulfilled "A")) "k" _ HI1 Hst Hw)
    as (Hst' & Hw' & Hc).
  pose proof (Inv_step _ (Settle 0 (Fulfilled "A")) HI1) as HI2.
  change (step (enqueue w0 "k" 1).2 (Settle 0 (Fulfilled "A"))) with w
    in Hst', Hw', HI2.
  destruct (stuck_run (arrivals ++ post) w "k" _ HI2 Hst' Hw') as [H1 _].
  pose proof (stuck_callers (arrivals ++ post) w "k" _ HI2 Hst' Hw') as H2.
  rewrite callers_app in H2. apply Forall_app in H2 as [H2 _].
  assert (Hcalls : forall m w1, Inv w1 -> stuck w1 "k" ->
            calls (run w1 (replicate m (Enqueue "k" 2%nat))) = calls w1).
  { clear. induction m as [|m IH]; intros w1 HI [Hin Hr]; [done|].
    simpl. rewrite IH.
    - unfold enqueue. simpl. by rewrite decide_True.
    - by apply (Inv_step w1 (Enqueue "k" 2%nat)).
    - split.
      + simpl. unfold enqueue. simpl. by rewrite decide_True.
      + simpl. unfold enqueue. simpl. by rewrite decide_True. }
  split_and!.
  - by vm_compute.
  - by vm_compute.
  - by vm_compute.
  - apply callers_length.
  - by apply Hcalls.
  - etransitivity; [exact H1 | by vm_compute].
  - exact H2.
Qed.

(** The mark also survives [clear()], which removes the queued task but
    not the mark: with nothing outstanding for "k" at all and the slot
    free, callers for "k" are still parked for ever. *)
Example stale_mark_survives_clear :
  let w := run (constructor 1)
               [Enqueue "a" 0; Enqueue "k" 1; Clear; Settle 0 (Fulfilled "A")] in
  let w' := run w [Enqueue "k" 2; Enqueue "k" 2]%nat in
  activeCount (aq w) = 0 /\ running w = [] /\ queue (aq w) = []
  /\ isProcessing (aq w) "k" = true
  /\ calls w' = calls w
  /\ settlement w' 2%nat = None /\ settlement w' 3%nat = None.
Proof. by vm_compute. Qed.
(** X15.  Starvation, in general.  In any reachable state in which all
    slots are taken, a call of [enqueue] for a key that is not being
    processed does not call the fetch function, and from then on, whatever
    happens (completions, further calls for the key or for others,
    [clear]), no fetch function is ever called for that key, and neither
    the promise of that call nor the promise of any later caller for the
    key is ever settled. *)
Theorem saturated_enqueue_starves_its_key (K : Z) (pre post : list event)
    (k : string) (task : nat) :
  let w0 := run (constructor K) pre in
  let w1 := step w0 (Enqueue k task) in
  k ∉ processing (aq w0) ->
  concurrencyLimit (aq w0) <= activeCount (aq w0) ->
  calls w1 = calls w0
  /\ callCount (run w1 post) k = callCount w0 k
  /\ Forall (fun p => settlement (run w1 post) p = None)
            ((enqueue w0 k task).1 :: callers k w1 post).
Proof.
  intros w0 w1 Hk Hsat.
  pose proof (Inv_run pre _ (Inv_constructor K)) as HI0. fold w0 in HI0.
  pose proof (Inv_step w0 (Enqueue k task) HI0) as HI1. fold w1 in HI1.
  destruct (saturated_enqueue_is_stuck w0 k task HI0 Hk Hsat) as [Hst Hw].
  destruct (stuck_run post w1 k _ HI1 Hst Hw) as [Hc Hs].
  assert (Hcalls : calls w1 = calls w0).
  { subst w1. simpl. unfold enqueue. simpl. rewrite decide_False by done.
    simpl.
    by destruct (Z.ltb_spec (activeCount (aq w0)) (concurrencyLimit (aq w0)));
      [lia|]. }
  split_and!; [done| |].
  - rewrite Hc. unfold callCount. by rewrite Hcalls.
  - constructor; [done|]. by eapply stuck_callers.
Qed.

(** ** Completion *)

Lemma running_bound evs K :
  0 <= K ->
  activeCount (aq (run (constructor K) evs)) <= K
  /\ concurrencyLimit (aq (run (constructor K) evs)) = K.
Proof.
  intros HK.
  destruct (bound_run evs _ (Inv_constructor K)) as [Hle Hlim]; [simpl; lia|].
  simpl in Hlim. split; [lia | done].
Qed.

(** X16.  When the fetch of a suspended [processTask] call completes,
    its caller and then the waiters of its key, in the order they
    arrived, are settled with the outcome, and no other promise is; the
    key is no longer marked as being processed and has no queue entry,
    [activeCount] drops by one, and the next [enqueue] for the key calls
    its fetch function at once. *)
Theorem completion_releases_key_and_slot (K : Z) (evs : list event)
    (t0 : QueueTask) (o : outcome) (task : nat) :
  let w := run (constructor K) evs in
  let w' := step w (Settle (promise t0) o) in
  0 <= K ->
  t0 ∈ running w ->
  settled w' = settled w ++ map (fun q => (q, o)) (promise t0 :: waiting w (id t0))
  /\ isProcessing (aq w') (id t0) = false
  /\ JsMap.get (id t0) (queue (aq w')) = None
  /\ activeCount (aq w') = activeCount (aq w) - 1
  /\ calls (step w' (Enqueue (id t0) task)) = calls w' ++ [(id t0, task)].
Proof.
  intros w w' HK Ht0.
  pose proof (Inv_run evs _ (Inv_constructor K)) as HI. fold w in HI.
  assert (Hnd : NoDup (promise <$> running w)).
  { pose proof (inv_nodup w HI) as Hnd. by apply NoDup_app in Hnd as [? _]. }
  destruct (take_elem (promise t0) (running w) t0 Hnd Ht0 eq_refl)
    as [others Htake].
  destruct (settle_promises w _ o t0 others HI Htake) as (_ & Hset & _).
  fold w' in Hset.
  assert (Hw' : w' = resumed {| aq := aq w; running := others;
                                calls := calls w; settled := settled w;
                                nextPromise := nextPromise w |} t0 o)
    by apply (step_settle w _ o t0 others HI Htake).
  destruct (running_bound evs K HK) as [Hle Hlim]. fold w in Hle, Hlim.
  assert (Hfree : id t0 ∉ processing (aq w')).
  { rewrite Hw'. simpl. intros Hin. apply elem_of_difference in Hin as [_ Hn].
    apply Hn. by apply elem_of_singleton. }
  split_and!; [done| | | |].
  - unfold isProcessing. by apply bool_decide_eq_false_2.
  - rewrite Hw'. simpl. apply JsMapFacts.get_delete_eq, HI.
  - by rewrite Hw'.
  - simpl. unfold enqueue. simpl. rewrite decide_False by done. simpl.
    destruct (Z.ltb_spec (activeCount (aq w')) (concurrencyLimit (aq w')))
      as [_|Hge]; [done|].
    rewrite Hw' in Hge. simpl in Hge. lia.
Qed.

(** X17.  In every reachable state [processNext] changes nothing, and
    a fetch function is only ever called by [enqueue] itself, for a key
    that is not being processed and with a slot free: no completion and
    no [clear] starts a fetch that was queued. *)
Theorem only_enqueue_starts_a_fetch (K : Z) (evs : list event) (ev : event) :
  let w := run (constructor K) evs in
  processNext w = w
  /\ (calls (step w ev) = calls w
      \/ exists i task,
           ev = Enqueue i task
           /\ isProcessing (aq w) i = false
           /\ activeCount (aq w) < concurrencyLimit (aq w)
           /\ calls (step w ev) = calls w ++ [(i, task)]).
Proof.
  intros w.
  pose proof (Inv_run evs _ (Inv_constructor K)) as HI. fold w in HI.
  split; [apply processNext_idle, HI|].
  destruct ev as [i task|p o|].
  - simpl. unfold enqueue. simpl.
    destruct (decide (i ∈ processing (aq w))) as [Hin|Hnotin]; simpl;
      [by left|].
    destruct (Z.ltb_spec (activeCount (aq w)) (concurrencyLimit (aq w)));
      simpl; [|by left].
    right. exists i, task. split_and!; try done.
    unfold isProcessing. by apply bool_decide_eq_false_2.
  - left. destruct (take p (running w)) as [[t0 others]|] eqn:Htake.
    + by rewrite (step_settle w p o t0 others HI Htake).
    + simpl. by rewrite Htake.
  - by left.
Qed.

(** ** Statistics *)

Lemma queueSize_qtasks (m : list (string * list QueueTask)) (n : Z) :
  foldl (fun totalQueued e => totalQueued + Z.of_nat (length e.2)) n m
  = n + Z.of_nat (length (qtasks m)).
Proof.
  unfold qtasks. revert n. induction m as [|e m IH]; intros n.
  - simpl. lia.
  - cbn [foldl]. rewrite IH, fmap_cons. cbn [concat]. rewrite length_app. lia.
Qed.

(** X18.  In every reachable state [getStats] counts what is there:
    [queueSize] is the number of waiting tasks, [activeCount] the number
    of suspended [processTask] calls, together the number of promises
    not yet settled or lost; [activeCount] is at most [processingCount];
    and [isProcessing] holds of every key that has a fetch in flight or a
    queue entry. *)
Theorem stats_count_what_is_there (K : Z) (evs : list event) :
  let w := run (constructor K) evs in
  let st := getStats (aq w) in
  queueSize st = Z.of_nat (length (qtasks (queue (aq w))))
  /\ s_activeCount st = Z.of_nat (length (running w))
  /\ queueSize st + s_activeCount st = Z.of_nat (length (outstanding w))
  /\ s_activeCount st <= processingCount st
  /\ (forall i, i ∈ id <$> running w \/ i ∈ JsMap.keys (queue (aq w)) ->
        isProcessing (aq w) i = true).
Proof.
  intros w st.
  pose proof (Inv_run evs _ (Inv_constructor K)) as HI. fold w in HI.
  assert (Hq : queueSize st = Z.of_nat (length (qtasks (queue (aq w)))))
    by (subst st; unfold getStats; simpl; by rewrite queueSize_qtasks).
  assert (Ha : s_activeCount st = Z.of_nat (length (running w)))
    by apply HI.
  assert (Hsub : list_to_set (id <$> running w) ⊆ processing (aq w)).
  { intros i Hi. apply elem_of_list_to_set in Hi.
    apply list_elem_of_fmap in Hi as [t0 [-> Ht0]].
    pose proof (inv_running w HI) as Hr. by eapply Forall_forall in Hr. }
  assert (Hp : s_activeCount st <= processingCount st).
  { rewrite Ha. subst st. unfold getStats. simpl.
    apply subseteq_size in Hsub.
    rewrite size_list_to_set in Hsub by apply HI.
    rewrite length_fmap in Hsub. lia. }
  split_and!; try done.
  - rewrite Hq, Ha. unfold outstanding. rewrite length_app, !length_fmap. lia.
  - intros i [Hi|Hi]; unfold isProcessing; apply bool_decide_eq_true_2.
    + apply Hsub. by apply elem_of_list_to_set.
    + apply list_elem_of_fmap in Hi as [e [-> He]].
      pose proof (inv_queued w HI) as Hqd. by eapply Forall_forall in Hqd.
Qed.

(** X19.  Under the conditions of the single-flight property (no call
    for the key outstanding, a slot free, the fetch stays in flight while
    further callers arrive), the completion of the fetch settles the first
    caller and then the later callers for the key in the order of their
    calls of [enqueue], and makes no other [resolve] or [reject]. *)
Theorem callers_settle_in_arrival_order (K : Z) (pre mid : list event)
    (k : string) (task : nat) (o : outcome) :
  let w0 := run (constructor K) pre in
  let p0 := (enqueue w0 k task).1 in
  let w1 := step w0 (Enqueue k task) in
  let w2 := run w1 mid in
  k ∉ processing (aq w0) ->
  activeCount (aq w0) < concurrencyLimit (aq w0) ->
  Forall (leaves_in_flight p0) mid ->
  settled (step w2 (Settle p0 o))
  = settled w2 ++ map (fun p => (p, o)) (p0 :: callers k w1 mid).
Proof.
  intros w0 p0 w1 w2 Hk Hfree Hmid.
  pose proof (Inv_run pre _ (Inv_constructor K)) as HI0. fold w0 in HI0.
  pose proof (Inv_step w0 (Enqueue k task) HI0) as HI1. fold w1 in HI1.
  set (t0 := mkTask k task p0).
  assert (Hw1 : running w1 = running w0 ++ [t0]
                /\ queue (aq w1) = queue (aq w0)).
  { subst w1 t0. rewrite (enqueue_promise w0 k task : p0 = nextPromise w0).
    simpl. unfold enqueue. simpl. rewrite decide_False by done. simpl.
    destruct (Z.ltb_spec (activeCount (aq w0)) (concurrencyLimit (aq w0)));
      [done | lia]. }
  destruct Hw1 as (Hrun1 & Hq1).
  assert (Ht0 : t0 ∈ running w1).
  { rewrite Hrun1. apply elem_of_app. right. by apply list_elem_of_singleton. }
  assert (Hwait1 : waiting w1 k = []).
  { unfold waiting. rewrite Hq1.
    assert (JsMap.get k (queue (aq w0)) = None) as ->; [|done].
    apply JsMapFacts.get_None_keys. intros Hin.
    apply list_elem_of_fmap in Hin as [e [-> He]].
    pose proof (inv_queued w0 HI0) as Hqd.
    by eapply Forall_forall in Hqd; [|exact He]. }
  destruct (in_flight_run mid w1 t0 HI1 Ht0 Hmid) as (Ht2 & _ & Hwait2).
  change (id t0) with k in Hwait2. rewrite Hwait1 in Hwait2.
  simpl in Hwait2. fold w2 in Ht2, Hwait2.
  pose proof (Inv_run mid _ HI1) as HI2. fold w2 in HI2.
  assert (Hnd : NoDup (promise <$> running w2)).
  { pose proof (inv_nodup w2 HI2) as Hnd. by apply NoDup_app in Hnd as [? _]. }
  destruct (take_elem p0 (running w2) t0 Hnd Ht2 eq_refl) as [others Htake].
  destruct (settle_promises w2 p0 o t0 others HI2 Htake) as (_ & Hset & _).
  rewrite Hset. change (id t0) with k. by rewrite Hwait2.
Qed.

Lemma saturated_enqueue_starves_its_key_witness :
  let w0 := run (constructor 1) [Enqueue "a" 0] in
  let w1 := step w0 (Enqueue "k" 1%nat) in
  let post := [Settle 0 (Fulfilled "A"); Enqueue "k" 2; Enqueue "b" 3;
               Settle 3 (Rejected "boom")]%nat in
  calls w1 = calls w0
  /\ callCount (run w1 post) "k" = callCount w0 "k"
  /\ Forall (fun p => settlement (run w1 post) p = None)
            ((enqueue w0 "k" 1%nat).1 :: callers "k" w1 post).
Proof.
  apply (saturated_enqueue_starves_its_key 1 [Enqueue "a" 0]%nat
           [Settle 0 (Fulfilled "A"); Enqueue "k" 2; Enqueue "b" 3;
            Settle 3 (Rejected "boom")]%nat "k" 1%nat).
  - apply (bool_decide_eq_false_1 _). by vm_compute.
  - by vm_compute.
Defined.

Lemma completion_releases_key_and_slot_witness :
  let t0 := mkTask "k" 7 0 in
  let w := run (constructor 2) [Enqueue "k" 7; Enqueue "k" 8; Enqueue "j" 9]%nat in
  let w' := step w (Settle (promise t0) (Fulfilled "v")) in
  settled w' = settled w ++ map (fun q => (q, Fulfilled "v"))
                                (promise t0 :: waiting w (id t0))
  /\ isProcessing (aq w') (id t0) = false
  /\ JsMap.get (id t0) (queue (aq w')) = None
  /\ activeCount (aq w') = activeCount (aq w) - 1
  /\ calls (step w' (Enqueue (id t0) 5%nat)) = calls w' ++ [(id t0, 5%nat)].
Proof.
  apply (completion_releases_key_and_slot 2
           [Enqueue "k" 7; Enqueue "k" 8; Enqueue "j" 9]%nat
           (mkTask "k" 7 0) (Fulfilled "v") 5%nat).
  - lia.
  - vm_compute. constructor.
Defined.

Lemma callers_settle_in_arrival_order_witness :
  let mid := [Enqueue "k" 7; Enqueue "j" 8; Enqueue "k" 7;
              Settle 2 (Rejected "boom"); Enqueue "k" 7]%nat in
  let w0 := run (constructor 2) [Enqueue "i" 5; Settle 0 (Fulfilled "I")] in
  let p0 := (enqueue w0 "k" 7%nat).1 in
  let w1 := step w0 (Enqueue "k" 7%nat) in
  let w2 := run w1 mid in
  settled (step w2 (Settle p0 (Fulfilled "v")))
  = settled w2 ++ map (fun p => (p, Fulfilled "v")) (p0 :: callers "k" w1 mid).
Proof.
  apply (callers_settle_in_arrival_order 2
           [Enqueue "i" 5; Settle 0 (Fulfilled "I")]%nat
           [Enqueue "k" 7; Enqueue "j" 8; Enqueue "k" 7;
            Settle 2 (Rejected "boom"); Enqueue "k" 7]%nat
           "k" 7%nat (Fulfilled "v")).
  - apply (bool_decide_eq_false_1 _). by vm_compute.
  - by vm_compute.
  - vm_compute. repeat constructor; lia.
Defined.
End AsyncQueueLaws.

(* ===================================================================== *)
(** * UserService: properties *)
(* ===================================================================== *)

Module JsObjectFacts.
Section WithValue.
Context {V : Type}.
Implicit Types (m : list (Z * V)).

Lemma obj_get_set_eq m k (v : V) : JsObject.get k (JsObject.set k v m) = Some v.
Proof.
  induction m as [|[k0 v0] m IH]; simpl.
  - by rewrite decide_True.
  - destruct (decide (k0 = k)) as [->|Hne]; simpl.
    + by rewrite decide_True.
    + destruct (decide (k < k0)); simpl.
      * by rewrite decide_True.
      * by rewrite decide_False.
Qed.

Lemma obj_get_set_ne m k k' (v : V) :
  k' ≠ k -> JsObject.get k' (JsObject.set k v m) = JsObject.get k' m.
Proof.
  intros Hk. induction m as [|[k0 v0] m IH]; simpl.
  - by rewrite decide_False.
  - destruct (decide (k0 = k)) as [->|Hne]; simpl.
    + by rewrite !decide_False.
    + destruct (decide (k < k0)); simpl.
      * by rewrite decide_False.
      * by rewrite IH.
Qed.

(** A write above every key appends. *)
Lemma obj_set_above m k (v : V) :
  Forall (fun e => e.1 < k) m -> JsObject.set k v m = m ++ [(k, v)].
Proof.
  induction 1 as [|[k0 v0] m Hk0 Hall IH]; simpl; [done|].
  simpl in Hk0. rewrite decide_False by lia. rewrite decide_False by lia.
  by rewrite IH.
Qed.
End WithValue.
End JsObjectFacts.

Module UserServiceLaws.
Import UserService UserServiceDefs.

(** ** Response times *)

Lemma measure_snoc s xs x :
  measure s (xs ++ [x]) = updatePerformanceMetrics (measure s xs) x.1 x.2.
Proof. unfold measure. by rewrite foldl_app. Qed.

Lemma floor_half (n : Z) : Qfloor (inject_Z n + (1 # 2)) = n.
Proof.
  apply Z.le_antisymm.
  - pose proof (Qfloor_le (inject_Z n + (1 # 2))) as Hle.
    destruct (Z.le_gt_cases (Qfloor (inject_Z n + (1 # 2))) n) as [|Hgt]; [done|].
    assert (Hq : (inject_Z (n + 1) <= inject_Z (Qfloor (inject_Z n + (1 # 2))))%Q).
    { rewrite <- Zle_Qle. lia. }
    rewrite inject_Z_plus in Hq. change (inject_Z 1) with 1%Q in Hq. lra.
  - rewrite <- (Qfloor_Z n) at 1. apply Qfloor_resp_le. lra.
Qed.

Lemma round_between (a b : Z) (q : Q) :
  (inject_Z a <= q)%Q -> (q <= inject_Z b)%Q ->
  (inject_Z a <= inject_Z (LRUCache.Math_round (q * 100)) / 100)%Q
  /\ (inject_Z (LRUCache.Math_round (q * 100)) / 100 <= inject_Z b)%Q.
Proof.
  intros Ha Hb. unfold LRUCache.Math_round.
  assert (H1 : a * 100 <= Qfloor (q * 100 + (1 # 2))).
  { rewrite <- (floor_half (a * 100)). apply Qfloor_resp_le.
    rewrite inject_Z_mult. change (inject_Z 100) with 100%Q. lra. }
  assert (H2 : Qfloor (q * 100 + (1 # 2)) <= b * 100).
  { rewrite <- (floor_half (b * 100)). apply Qfloor_resp_le.
    rewrite inject_Z_mult. change (inject_Z 100) with 100%Q. lra. }
  rewrite Zle_Qle, inject_Z_mult in H1, H2.
  change (inject_Z 100) with 100%Q in H1, H2.
  split.
  - apply Qle_shift_div_l; [reflexivity | done].
  - apply Qle_shift_div_r; [reflexivity | done].
Qed.

Lemma round_near (q : Q) :
  (q - (1 # 200) <= inject_Z (LRUCache.Math_round (q * 100)) / 100)%Q
  /\ (inject_Z (LRUCache.Math_round (q * 100)) / 100 <= q + (1 # 200))%Q.
Proof.
  unfold LRUCache.Math_round.
  pose proof (Qfloor_le (q * 100 + (1 # 2))) as Hle.
  pose proof (Qlt_floor (q * 100 + (1 # 2))) as Hlt.
  rewrite inject_Z_plus in Hlt. change (inject_Z 1) with 1%Q in Hlt.
  set (f := inject_Z (Qfloor (q * 100 + (1 # 2)))) in *.
  split.
  - apply Qle_shift_div_l; [reflexivity | lra].
  - apply Qle_shift_div_r; [reflexivity | lra].
Qed.

Lemma sum_snoc l r : total_of (l ++ [r]) = total_of l + r.
Proof. unfold total_of. induction l as [|a l IH]; simpl; lia. Qed.

Lemma sums_up_update s rts startTime now :
  sums_up (performanceMetrics s) rts ->
  sums_up (performanceMetrics (updatePerformanceMetrics s startTime now))
          (rts ++ [now - startTime]).
Proof.
  intros (Hc & Ht & Hmax & Hmaxin & Hmax0 & Hmin).
  unfold sums_up, updatePerformanceMetrics.
  cbn [performanceMetrics requestCount totalResponseTime minResponseTime
       maxResponseTime].
  set (r := now - startTime).
  split_and!.
  - rewrite length_app. simpl. lia.
  - rewrite sum_snoc. lia.
  - apply Forall_app. split.
    + eapply Forall_impl; [exact Hmax|]. simpl. lia.
    + constructor; [lia | constructor].
  - destruct (Z.max_spec (maxResponseTime (performanceMetrics s)) r)
      as [[_ ->]|[_ ->]].
    + right. apply elem_of_app. right. by apply list_elem_of_singleton.
    + destruct Hmaxin as [?|Hin]; [by left|].
      right. apply elem_of_app. by left.
  - lia.
  - destruct (minResponseTime (performanceMetrics s)) as [mn|].
    + destruct Hmin as [Hin Hall].
      destruct (Z.min_spec mn r) as [[_ ->]|[_ ->]].
      * apply elem_of_app; by left.
      * apply elem_of_app; right; by apply list_elem_of_singleton.
    + apply elem_of_app; right; by apply list_elem_of_singleton.
  - apply Forall_app. split.
    + destruct (minResponseTime (performanceMetrics s)) as [mn|].
      * destruct Hmin as [Hin Hall].
        eapply Forall_impl; [exact Hall|]. simpl. lia.
      * subst rts. constructor.
    + constructor; [|constructor].
      destruct (minResponseTime (performanceMetrics s)); lia.
Qed.

Lemma sums_up_measure xs s rts :
  sums_up (performanceMetrics s) rts ->
  sums_up (performanceMetrics (measure s xs)) (rts ++ responseTimes xs).
Proof.
  revert s rts. induction xs as [|x xs IH]; intros s rts H; simpl.
  - by rewrite app_nil_r.
  - change (rts ++ (x.2 - x.1) :: responseTimes xs)
      with (rts ++ [x.2 - x.1] ++ responseTimes xs).
    rewrite (assoc (++)). apply IH. by apply sums_up_update.
Qed.

Lemma sum_bounds (l : list Z) (a b : Z) :
  Forall (fun r => a <= r) l -> Forall (fun r => r <= b) l ->
  a * Z.of_nat (length l) <= total_of l <= b * Z.of_nat (length l).
Proof.
  unfold total_of. induction l as [|r l IH]; intros Ha Hb; simpl; [lia|].
  apply Forall_cons in Ha as [Hr Ha]. apply Forall_cons in Hb as [Hr' Hb].
  specialize (IH Ha Hb). lia.
Qed.

Lemma average_of_update s startTime now :
  averageResponseTime (performanceMetrics (updatePerformanceMetrics s startTime now))
  = (inject_Z (LRUCache.Math_round
       ((inject_Z (totalResponseTime
                     (performanceMetrics
                        (updatePerformanceMetrics s startTime now)))
         / inject_Z (requestCount
                       (performanceMetrics
                          (updatePerformanceMetrics s startTime now)))) * 100))
     / 100)%Q.
Proof. done. Qed.

(** X20.  After a reset (or the constructor) and one or more measured
    requests, the performance metrics summarise exactly the response
    times measured since: [requestCount] is their number,
    [totalResponseTime] their sum, [minResponseTime] the least of them,
    [maxResponseTime] the greatest of them or 0 (it starts at 0, so it
    stays 0 when every response time is negative), and
    [averageResponseTime] lies between the minimum and the maximum; for
    response times between 0 and 10^9 ms it is within 0.01 of their mean.
    (The model rounds the exact mean to the nearest hundredth; the bound
    of 0.01 leaves room for the rounding of the division.) *)
Theorem metrics_summarise_response_times (s : t) (xs : list (Z * Z)) (x : Z * Z) :
  let m := getPerformanceMetrics
             (measure (resetPerformanceMetrics s) (xs ++ [x])) in
  let rts := responseTimes (xs ++ [x]) in
  requestCount m = Z.of_nat (length rts)
  /\ totalResponseTime m = total_of rts
  /\ (exists mn, minResponseTime m = Some mn
        /\ mn ∈ rts /\ Forall (fun r => mn <= r) rts
        /\ (inject_Z mn <= averageResponseTime m)%Q)
  /\ Forall (fun r => r <= maxResponseTime m) rts
  /\ (maxResponseTime m = 0 \/ maxResponseTime m ∈ rts)
  /\ (averageResponseTime m <= inject_Z (maxResponseTime m))%Q
  /\ (Forall (fun r => 0 <= r <= 1000000000) rts ->
      (inject_Z (total_of rts) / inject_Z (Z.of_nat (length rts)) - (1 # 100)
       <= averageResponseTime m)%Q
      /\ (averageResponseTime m
          <= inject_Z (total_of rts) / inject_Z (Z.of_nat (length rts))
             + (1 # 100))%Q).
Proof.
  intros m rts. subst m. unfold getPerformanceMetrics.
  pose proof (sums_up_measure (xs ++ [x]) (resetPerformanceMetrics s) []) as H.
  simpl in H. fold rts in H.
  destruct H as (Hc & Ht & Hmax & Hmaxin & Hmax0 & Hmin).
  { unfold sums_up. simpl. split_and!; try done. by left. }
  rewrite measure_snoc in *.
  set (s1 := measure (resetPerformanceMetrics s) xs) in *.
  rewrite average_of_update.
  set (m := performanceMetrics (updatePerformanceMetrics s1 x.1 x.2)) in *.
  assert (Hn : (0 < length rts)%nat).
  { subst rts. unfold responseTimes. rewrite fmap_app, length_app. simpl. lia. }
  rewrite Hc, Ht.
  set (n := Z.of_nat (length rts)) in *.
  assert (Hn' : (0 < inject_Z n)%Q).
  { change 0%Q with (inject_Z 0). rewrite <- Zlt_Qlt. lia. }
  destruct (minResponseTime m) as [mn|] eqn:Hmn.
  2:{ rewrite Hmin in Hn. simpl in Hn. lia. }
  destruct Hmin as [Hmnin Hmnall].
  destruct (sum_bounds rts mn (maxResponseTime m) Hmnall Hmax) as [Hlo Hhi].
  fold n in Hlo, Hhi.
  assert (Hqlo : (inject_Z mn <= inject_Z (total_of rts) / inject_Z n)%Q).
  { apply Qle_shift_div_l; [done|]. rewrite <- inject_Z_mult, <- Zle_Qle. lia. }
  assert (Hqhi : (inject_Z (total_of rts) / inject_Z n
                  <= inject_Z (maxResponseTime m))%Q).
  { apply Qle_shift_div_r; [done|]. rewrite <- inject_Z_mult, <- Zle_Qle. lia. }
  destruct (round_between mn (maxResponseTime m) _ Hqlo Hqhi) as [Hr1 Hr2].
  destruct (round_near (inject_Z (total_of rts) / inject_Z n)) as [Hn1 Hn2].
  split_and!; try done.
  - exists mn. done.
  - intros _. split; lra.
Qed.

(** ** Creating users *)

Lemma step_database s c :
  ids_below s ->
  let s' := (step s c).2 in
  ids_below s'
  /\ userDatabase s'
     = userDatabase s
       ++ ((fun u => (id u, u)) <$> option_list (step s c).1)
  /\ nextUserId s' = nextUserId s + Z.of_nat (length (option_list (step s c).1))
  /\ (step s c).1
     = match c with
       | CreateUser input ck =>
           Some {| id := nextUserId s; name := in_name input;
                   email := in_email input; createdAt := Some (created ck) |}
       | _ => None
       end.
Proof.
  intros Hs. destruct c as [input ck| |]; simpl.
  - rewrite (JsObjectFacts.obj_set_above _ _ _ Hs). split_and!; try done; try lia.
    unfold ids_below. simpl. apply Forall_app. split.
    + eapply Forall_impl; [exact Hs|]. simpl. lia.
    + constructor; [simpl; lia | constructor].
  - rewrite app_nil_r. split_and!; try done. lia.
  - rewrite app_nil_r. split_and!; try done. lia.
Qed.

Lemma run_database cs s :
  ids_below s ->
  getAllUsers (run s cs).2 = getAllUsers s ++ (run s cs).1
  /\ (run s cs).1
     = imap (fun i x =>
               {| id := nextUserId s + Z.of_nat i; name := in_name x.1;
                  email := in_email x.1; createdAt := Some (created x.2) |})
            (creations cs)
  /\ nextUserId (run s cs).2 = nextUserId s + Z.of_nat (length (creations cs)).
Proof.
  revert s. induction cs as [|c cs IH]; intros s Hs.
  - simpl. rewrite app_nil_r. split_and!; try done. lia.
  - destruct (step_database s c Hs) as (Hs' & Hdb & Hnext & Hret).
    specialize (IH (step s c).2 Hs'). destruct IH as (IH1 & IH2 & IH3).
    simpl. destruct (step s c) as [o s1] eqn:Hstep. simpl in *.
    destruct (run s1 cs) as [us s2] eqn:Hrun. simpl in *.
    unfold getAllUsers, JsObject.values in *. rewrite IH1, Hdb.
    rewrite fmap_app, <- list_fmap_compose.
    rewrite (list_fmap_ext _ Datatypes.id (option_list o)) by done.
    rewrite list_fmap_id, <- (assoc (++)).
    split_and!; [done| |].
    + rewrite IH2. subst o. destruct c as [input ck| |]; simpl in *.
      * f_equal; [f_equal; lia|].
        apply imap_ext. intros i x _. simpl. f_equal. lia.
      * apply imap_ext. intros i x _. simpl. f_equal. lia.
      * apply imap_ext. intros i x _. simpl. f_equal. lia.
    + rewrite IH3, Hnext. subst o. destruct c; simpl; lia.
Qed.

(** X21.  Whatever sequence of [createUser], [clearCache] and
    [resetPerformanceMetrics] calls is made on a new service (the other
    methods write neither the database nor the id counter), the users
    created get the ids 4, 5, 6, ... in the order of the calls, with the
    name and the email of their input; no record that was in the database
    is overwritten; and [getAllUsers] lists the three initial users
    followed by the created ones in the order of their creation. *)
Theorem created_users_get_fresh_ids_in_order (cs : list call) :
  (run constructor cs).1 = imap nth_user (creations cs)
  /\ getAllUsers (run constructor cs).2
     = getAllUsers constructor ++ (run constructor cs).1
  /\ nextUserId (run constructor cs).2 = 4 + Z.of_nat (length (creations cs))
  /\ (forall u, u ∈ (run constructor cs).1 ->
        JsObject.get (id u) (userDatabase constructor) = None).
Proof.
  assert (H0 : ids_below constructor).
  { unfold ids_below. simpl. repeat constructor. }
  destruct (run_database cs constructor H0) as (H1 & H2 & H3).
  split_and!; try done.
  intros u Hu. rewrite H2 in Hu.
  apply list_elem_of_lookup in Hu as [i Hi].
  apply list_lookup_imap_Some in Hi as (x & _ & ->). simpl.
  repeat (rewrite decide_False by lia). done.
Qed.

(** ** Write-through *)

Lemma cacheKey_inj i j : cacheKey i = cacheKey j -> i = j.
Proof.
  unfold cacheKey. intros H. apply (inj (String.app "user:")) in H.
  by apply (inj pretty) in H.
Qed.

(** X22.  [createUser] writes through: in any state of the service,
    the user it returns is in the database under its id and in the cache
    under its own key, where a [get] finds it for the next 60 s (the
    boundary included); the key of another id is a different key, and the
    database record of every other id is unchanged. *)
Theorem created_user_is_cached_and_stored (s : t) (input : CreateUserInput)
    (ck : Clock) (now : Z) (i : Z) :
  LRUCache.ttl (cache s) = 60 * 1000 ->
  now <= cached ck + 60 * 1000 ->
  let u := (createUser s input ck).1 in
  let s' := (createUser s input ck).2 in
  (LRUCache.get (cache s') now (cacheKey (id u))).1 = Some u
  /\ JsObject.get (id u) (userDatabase s') = Some u
  /\ (i ≠ id u ->
      cacheKey i ≠ cacheKey (id u)
      /\ JsObject.get i (userDatabase s') = JsObject.get i (userDatabase s)).
Proof.
  intros Httl Hnow u s'. subst u s'.
  unfold createUser, updatePerformanceMetrics.
  cbn [fst snd cache userDatabase id].
  set (u := {| id := nextUserId s; name := in_name input;
               email := in_email input; createdAt := Some (created ck) |}).
  split_and!.
  - unfold LRUCache.get. rewrite LRUCacheSpec.get_after_set.
    unfold LRUCache.isExpired. cbn [LRUCache.timestamp].
    pose proof (proj2 (LRUCacheSpec.config_exec (cache s)
                  (cached ck, LRUCache.OpSet (cacheKey (nextUserId s)) u)))
      as Hcfg.
    unfold LRUCache.exec in Hcfg. cbn [fst snd] in Hcfg.
    rewrite Hcfg, Httl.
    destruct (Z.gtb_spec (now - cached ck) (60 * 1000)); [lia | done].
  - apply JsObjectFacts.obj_get_set_eq.
  - intros Hi. split.
    + intros Heq. by apply cacheKey_inj in Heq.
    + by apply JsObjectFacts.obj_get_set_ne.
Qed.

Lemma created_user_is_cached_and_stored_witness :
  let input := {| in_name := "Bob Wilson"; in_email := "bob@example.com" |} in
  let ck := {| startTime := 1000; created := 1000; cached := 1001;
               finished := 1002 |} in
  let u := (createUser constructor input ck).1 in
  let s' := (createUser constructor input ck).2 in
  (LRUCache.get (cache s') 61001 (cacheKey (id u))).1 = Some u
  /\ JsObject.get (id u) (userDatabase s') = Some u
  /\ (1 ≠ id u ->
      cacheKey 1 ≠ cacheKey (id u)
      /\ JsObject.get 1 (userDatabase s')
         = JsObject.get 1 (userDatabase constructor)).
Proof.
  apply (created_user_is_cached_and_stored constructor
           {| in_name := "Bob Wilson"; in_email := "bob@example.com" |}
           {| startTime := 1000; created := 1000; cached := 1001;
              finished := 1002 |} 61001 1).
  - reflexivity.
  - simpl. lia.
Defined.
End UserServiceLaws.

(* ===================================================================== *)
(** * Logger: properties *)
(* ===================================================================== *)

Module LoggerLaws.
Import Config Logger.

(** X23.  Of the three flags of the configuration exactly the one of
    the environment is set.  The logger therefore gets at most one
    transport: the console in the local environment, the file
    [logs/logs.log] in production, and none in development, which is the
    only environment in which its level is "debug"; elsewhere it is
    "info". *)
Theorem development_logs_nowhere (e : Env) :
  let c := config e in
  let o := constructor c in
  (isDevelopment c, isProduction c, isLocal c)
  = match NODE_ENV e with
    | DEVELOPMENT => (true, false, false)
    | PRODUCTION => (false, true, false)
    | LOCAL => (false, false, true)
    end
  /\ transports o
     = match NODE_ENV e with
       | DEVELOPMENT => []
       | PRODUCTION => [File "logs/logs.log"]
       | LOCAL => [Console]
       end
  /\ level o
     = match NODE_ENV e with
       | DEVELOPMENT => "debug"%string
       | _ => "info"%string
       end
  /\ (length (transports o) <= 1)%nat
  /\ (transports o = [] <-> NODE_ENV e = DEVELOPMENT)
  /\ (level o = "debug"%string <-> transports o = []).
Proof.
  destruct e as [[] p]; simpl; split_and!; try done; try lia.
Qed.
End LoggerLaws.
